(** * KZG commitments over BLS12-381: the evaluation domain and the
      verification of opening proofs

    A shallow embedding of [internal/kzg/domain.go] (the evaluation domain
    and the barycentric evaluation of polynomials in Lagrange form) and of
    the proof verification ([Verify], [BatchVerifyMultiPoints], [fold]).

    Scalars are elements of the scalar field of BLS12-381, here the type
    [Zmod Modulus] of the standard library; the curve groups and the
    pairing, which the code takes from gnark-crypto, are an interface
    ([Curve]) with its laws ([CurveLaws]). *)

From Stdlib Require Import String ZArith Lia List Bool.
From Stdlib Require Import Zmod.Zstar.
From Stdlib Require Import Field.
From AAC_tactics Require Import AAC.
From Bignums Require Import BigN.
Import ListNotations.
Local Open Scope Z_scope.

(** ** Primality certificates

    The scalar field is a field because its modulus is prime.  Small primes
    are checked by trial division, the modulus itself by Lucas' test: an
    element whose order is exactly [N - 1] exists only when [N] is prime. *)

Fixpoint no_divisor_from (n d : Z) (fuel : nat) : bool :=
  match fuel with
  | O => false
  | S fuel' =>
      if n <? d * d then true
      else if n mod d =? 0 then false
      else no_divisor_from n (d + 1) fuel'
  end.

Definition trial_division (n : Z) : bool :=
  (1 <? n) && no_divisor_from n 2 (S (Z.to_nat (Z.sqrt n))).

Lemma no_divisor_from_sound n fuel : forall d,
  no_divisor_from n d fuel = true -> 1 < d ->
  (forall k, 1 < k < d -> ~ (k | n)) ->
  forall k, 1 < k < n -> ~ (k | n).
Proof.
  induction fuel as [|fuel IH]; simpl; intros d Hc Hd Hlow k Hk; [discriminate|].
  destruct (Z.ltb_spec n (d * d)) as [Hsq|Hsq].
  - intros [c Hcn].
    assert (Hck : 1 < c < n) by nia.
    destruct (Z.lt_ge_cases k d) as [Hkd|Hkd].
    + apply (Hlow k); [lia | now exists c].
    + apply (Hlow c); [nia | exists k; lia].
  - destruct (Z.eqb_spec (n mod d) 0) as [|Hnd]; [discriminate|].
    apply (IH (d + 1)); trivial; [lia|].
    intros j Hj. destruct (Z.eq_dec j d) as [->|Hne].
    + intros Hdiv. apply Hnd, Z.mod_divide; trivial; lia.
    + apply Hlow; lia.
Qed.

Lemma trial_division_sound n : trial_division n = true -> Z.prime n.
Proof.
  unfold trial_division. intros [H1 H2]%andb_prop. split; [lia|].
  apply (no_divisor_from_sound _ _ _ H2); lia.
Qed.

Lemma filter_full_length {A} (f : A -> bool) (l : list A) :
  length (filter f l) = length l -> forall x, In x l -> f x = true.
Proof.
  induction l as [|y l IH]; simpl; [tauto|].
  pose proof (filter_length_le f l) as Hle.
  destruct (f y) eqn:Hy; simpl; intros Hlen x [->|Hin]; auto; lia.
Qed.

Lemma prime_factor_of_divisor (qs : list Z) : Forall Z.prime qs ->
  forall h, 1 < h -> (h | fold_right Z.mul 1 qs) -> exists q, In q qs /\ (q | h).
Proof.
  induction 1 as [|q qs Hq _ IH]; simpl; intros h Hh Hdiv.
  - apply Z.divide_1_r_nonneg in Hdiv; lia.
  - destruct (Z.BoolSpec_divide q h) as [Hqh|Hqh].
    + exists q; auto.
    + apply Z.coprime_prime_l in Hqh; trivial.
      destruct (IH h Hh) as (q' & Hin & Hq').
      * apply Z.gauss with q; trivial. now rewrite Z.gcd_comm.
      * exists q'; auto.
Qed.

Section Lucas.
Variable N : Z.
Variable a : Zstar N.
Variable qs : list Z.
Hypothesis HN : 2 <= N.
Hypothesis qs_prime : Forall Z.prime qs.
Hypothesis qs_prod : fold_right Z.mul 1 qs = N - 1.
Hypothesis a_order : Zstar.pow a (N - 1) = Zstar.one.
Hypothesis a_proper : Forall (fun q => Zstar.pow a ((N - 1) / q) <> Zstar.one) qs.

Lemma order_divides d : Zstar.pow a d = Zstar.one -> (N - 1 | d).
Proof.
  intros Hd.
  destruct (Z.gcd_bezout d (N - 1) _ eq_refl) as (u & v & Huv).
  set (g := Z.gcd d (N - 1)) in *.
  assert (Hg : Zstar.pow a g = Zstar.one).
  { rewrite <- Huv, Zstar.pow_add_r, (Z.mul_comm u), (Z.mul_comm v),
      !Zstar.pow_mul_r, Hd, a_order, !Zstar.pow_1_l. apply Zstar.mul_1_l. }
  assert (Hgd : (g | N - 1)) by apply Z.gcd_divide_r.
  assert (Hg0 : 0 <= g) by apply Z.gcd_nonneg.
  destruct (Z.eq_dec g (N - 1)) as [E|NE].
  { rewrite <- E. apply Z.gcd_divide_l. }
  exfalso. destruct Hgd as [h Hh].
  assert (Hgpos : 0 < g) by (destruct (Z.eq_dec g 0); [subst; lia | lia]).
  assert (Hhpos : 0 < h) by nia.
  assert (Hh1 : 1 < h) by (destruct (Z.eq_dec h 1); [subst; lia | lia]).
  destruct (prime_factor_of_divisor qs qs_prime h Hh1) as (q & Hin & [c Hc]).
  { rewrite qs_prod. exists g. lia. }
  rewrite Forall_forall in a_proper, qs_prime.
  apply (a_proper q Hin).
  pose proof (Z.prime_ge_2 q (qs_prime q Hin)).
  replace ((N - 1) / q) with (g * c).
  - now rewrite Zstar.pow_mul_r, Hg, Zstar.pow_1_l.
  - apply Z.div_unique_exact; [lia|]. rewrite Hh, Hc. ring.
Qed.

Theorem lucas_prime : Z.prime N.
Proof.
  pose proof (order_divides _ (Zstar.euler a)) as Hphi.
  pose proof (f_equal (@length _) (Zstar.to_Zmod_elements N)) as Hlen.
  rewrite length_map in Hlen.
  unfold Zmod.invertibles in Hlen.
  destruct (Z.eqb_spec N 0) as [|_]; [lia|].
  unfold Zmod.elements in Hlen.
  replace (Z.abs_nat N) with (S (Z.to_nat (N - 1))) in Hlen by lia.
  cbn [seq map filter] in Hlen.
  rewrite Zmod.to_Z_of_Z, Z.mod_0_l, Z.gcd_0_l in Hlen by lia.
  destruct (Z.eqb_spec (Z.abs N) 1) as [|_]; [lia|].
  set (rest := map _ (seq 1 _)) in Hlen.
  set (f := fun x : Zmod N => _) in Hlen.
  pose proof (filter_length_le f rest) as Hle.
  assert (Hrest : length rest = Z.to_nat (N - 1))
    by (unfold rest; now rewrite length_map, length_seq).
  assert (Hpos : (0 < length (Zstar.elements N))%nat).
  { pose proof (Zstar.in_elements a) as Hin.
    destruct (Zstar.elements N); [destruct Hin | simpl; lia]. }
  destruct Hphi as [k Hk].
  assert (Hfull : length (filter f rest) = length rest).
  { assert (Hb : 0 < Z.of_nat (length (Zstar.elements N)) <= N - 1) by lia.
    assert (k = 1) by nia. lia. }
  split; [lia|]. intros n Hn Hdiv.
  assert (Hin : In (Zmod.of_Z N n) rest).
  { unfold rest. apply in_map_iff. exists (Z.to_nat n). split.
    - f_equal. lia.
    - apply in_seq. lia. }
  pose proof (filter_full_length f rest Hfull _ Hin) as Hf.
  unfold f in Hf. apply Z.eqb_eq in Hf.
  rewrite Zmod.to_Z_of_Z, Z.mod_small in Hf by lia.
  apply Z.divide_gcd_iff in Hdiv; lia.
Qed.
End Lucas.

(** ** Fast modular exponentiation

    The certificates below raise scalars of 255 bits to powers of 255 bits.
    The powers are computed on machine words ([bigN]) and read back in [Z],
    where [Zmod] states them. *)

Definition big_mul_mod (m x y : bigN) : bigN := BigN.modulo (BigN.mul x y) m.

Definition big_pow_mod (a : bigN) (e : positive) (m : bigN) : bigN :=
  Pos.iter_op (big_mul_mod m) e a.

Definition pow_mod (a : Z) (e : positive) (m : Z) : Z :=
  let m' := BigN.of_N (Z.to_N m) in
  BigN.to_Z (BigN.modulo (big_pow_mod (BigN.of_N (Z.to_N a)) e m') m').

Lemma pow_square_mod (x M : Z) (e : positive) : 0 < M ->
  ((x * x) mod M) ^ Z.pos e mod M = x ^ Z.pos e~0 mod M.
Proof.
  intros HM. rewrite <- Zpow_facts.Zpower_mod by exact HM.
  f_equal. change (Z.pos e~0) with (2 * Z.pos e).
  rewrite Z.pow_mul_r by lia. f_equal. lia.
Qed.

Lemma big_pow_mod_spec (m : bigN) (e : positive) : 0 < BigN.to_Z m -> forall a,
  BigN.to_Z (big_pow_mod a e m) mod BigN.to_Z m
  = (BigN.to_Z a ^ Z.pos e) mod BigN.to_Z m.
Proof.
  intros HM. unfold big_pow_mod.
  induction e as [e IH|e IH|]; intros a; cbn [Pos.iter_op].
  - unfold big_mul_mod at 1.
    rewrite BigN.spec_modulo, BigN.spec_mul, Z.mod_mod by lia.
    rewrite <- Z.mul_mod_idemp_r, IH by lia.
    unfold big_mul_mod. rewrite BigN.spec_modulo, BigN.spec_mul.
    rewrite pow_square_mod, Z.mul_mod_idemp_r by lia.
    replace (Z.pos e~1) with (Z.succ (Z.pos e~0)) by lia.
    now rewrite Z.pow_succ_r by lia.
  - rewrite IH. unfold big_mul_mod. rewrite BigN.spec_modulo, BigN.spec_mul.
    now apply pow_square_mod.
  - now rewrite Z.pow_1_r.
Qed.

Lemma pow_mod_spec (a : Z) (e : positive) (m : Z) : 0 <= a -> 0 < m ->
  pow_mod a e m = a ^ Z.pos e mod m.
Proof.
  intros Ha Hm. unfold pow_mod. cbv zeta.
  rewrite BigN.spec_modulo.
  assert (E : BigN.to_Z (BigN.of_N (Z.to_N m)) = m)
    by (rewrite BigN.spec_of_N; lia).
  rewrite big_pow_mod_spec by (rewrite E; exact Hm).
  rewrite E, BigN.spec_of_N. f_equal. f_equal. lia.
Qed.

(** The powers of [Zmod], computed fast. *)
Lemma Zmod_pow_eval (m a : Z) (e : positive) : 0 < m -> 0 <= a ->
  Zmod.to_Z (Zmod.pow (Zmod.of_Z m a) (Z.pos e)) = pow_mod a e m.
Proof.
  intros Hm Ha.
  rewrite Zmod.unsigned_pow_nonneg_r, Zmod.unsigned_of_Z by lia.
  rewrite <- Zpow_facts.Zpower_mod by exact Hm.
  symmetry. now apply pow_mod_spec.
Qed.

(** ** The scalar field: gnark-crypto's package [fr]

    [fr.Element] is an element of the field of integers modulo [Modulus],
    kept reduced; the methods the code calls are the field operations.
    [Inverse] sends zero to zero, and [Exp] with a negative exponent takes
    the power of the inverse, as gnark-crypto documents them. *)

Module fr.

Definition Modulus : Z :=
  52435875175126190479447740508185965837690552500527637822603658699938581184513.

Definition Element : Type := Zmod Modulus.

Definition Zero : Element := Zmod.zero.
Definition One : Element := Zmod.one.
Definition SetUint64 (v : Z) : Element := Zmod.of_Z Modulus v.
(* SetString on a decimal literal: the number it denotes, reduced. *)
Definition SetString (v : Z) : Element := Zmod.of_Z Modulus v.
(* BigInt: the canonical representative in [0, Modulus). *)
Definition BigInt (x : Element) : Z := Zmod.to_Z x.

Definition Add (x y : Element) : Element := Zmod.add x y.
Definition Sub (x y : Element) : Element := Zmod.sub x y.
Definition Mul (x y : Element) : Element := Zmod.mul x y.
Definition Neg (x : Element) : Element := Zmod.opp x.
Definition Square (x : Element) : Element := Zmod.mul x x.
Definition Inverse (x : Element) : Element := Zmod.inv x.
Definition Equal (x y : Element) : bool := Zmod.eqb x y.
Definition IsZero (x : Element) : bool := Zmod.eqb x Zero.
Definition IsOne (x : Element) : bool := Zmod.eqb x One.

Definition Exp (x : Element) (k : Z) : Element :=
  if k =? 0 then One
  else if k <? 0 then Zmod.pow (Inverse x) (- k)
  else Zmod.pow x k.

(** [BatchInvert]: Montgomery's trick.  A forward pass stores the running
    product before each non-zero entry, the total is inverted once, and a
    backward pass unwinds; zero entries are skipped and stay zero. *)
Fixpoint BatchInvert_forward (a : list Element) (accumulator : Element)
  : list Element * Element :=
  match a with
  | [] => ([], accumulator)
  | x :: a' =>
      if IsZero x then
        let '(res, acc) := BatchInvert_forward a' accumulator in (Zero :: res, acc)
      else
        let '(res, acc) := BatchInvert_forward a' (Mul accumulator x) in
        (accumulator :: res, acc)
  end.

Fixpoint BatchInvert_backward (a res : list Element) (accumulator : Element)
  : list Element * Element :=
  match a, res with
  | x :: a', r :: res' =>
      let '(out, acc) := BatchInvert_backward a' res' accumulator in
      if IsZero x then (r :: out, acc) else (Mul r acc :: out, Mul acc x)
  | _, _ => ([], accumulator)
  end.

Definition BatchInvert (a : list Element) : list Element :=
  let '(res, accumulator) := BatchInvert_forward a One in
  fst (BatchInvert_backward a res (Inverse accumulator)).

(** The certificate of [Modulus]: the prime factors of [Modulus - 1] and an
    element of order [Modulus - 1]. *)
Definition order_primes : list Z :=
  [2; 3; 11; 19; 10177; 125527; 859267; 906349; 2508409; 2529403;
   52437899; 254760293].

Definition order_factors : list Z :=
  repeat 2 32 ++
  [3; 11; 19; 10177; 125527; 859267; 906349; 906349; 2508409; 2529403;
   52437899; 254760293; 254760293].

Definition multiplicative_generator : Element := Zmod.of_Z Modulus 7.

Definition proper_power (q : Z) : bool :=
  negb (pow_mod 7 (Z.to_pos ((Modulus - 1) / q)) Modulus =? 1).

Lemma order_primes_prime : Forall Z.prime order_primes.
Proof.
  assert (H : forallb trial_division order_primes = true) by (vm_compute; reflexivity).
  rewrite forallb_forall in H. apply Forall_forall.
  intros q Hq. apply trial_division_sound, H, Hq.
Qed.

Lemma order_factors_incl : incl order_factors order_primes.
Proof.
  intros q Hq. unfold order_factors in Hq. apply in_app_or in Hq as [Hq|Hq].
  - apply repeat_spec in Hq as ->. now left.
  - simpl in Hq |- *. intuition.
Qed.

Lemma Modulus_pos : 0 < Modulus.
Proof. reflexivity. Qed.

(** [7 ^ z], for a positive [z], as [pow_mod] computes it. *)
Lemma generator_pow (z : Z) : 0 < z ->
  Zmod.to_Z (Zmod.pow multiplicative_generator z) = pow_mod 7 (Z.to_pos z) Modulus.
Proof.
  intros Hz. rewrite <- (Z2Pos.id z) at 1 by exact Hz.
  apply Zmod_pow_eval; [exact Modulus_pos | lia].
Qed.

Lemma Modulus_prime : Z.prime Modulus.
Proof.
  assert (Hco : Z.coprime (Zmod.to_Z multiplicative_generator) Modulus)
    by (vm_compute; reflexivity).
  assert (Hpow : forall z,
    Zstar.to_Zmod (Zstar.pow (Zstar.of_Zmod multiplicative_generator) z)
    = Zmod.pow multiplicative_generator z).
  { intros z. now rewrite Zstar.to_Zmod_pow, Zstar.to_Zmod_of_Zmod. }
  pose proof order_primes_prime as Hprimes. rewrite Forall_forall in Hprimes.
  apply (lucas_prime Modulus (Zstar.of_Zmod multiplicative_generator) order_factors).
  - unfold Modulus; lia.
  - apply Forall_forall. intros q Hq. apply Hprimes, order_factors_incl, Hq.
  - vm_compute; reflexivity.
  - apply Zstar.to_Zmod_inj. rewrite Hpow, Zstar.to_Zmod_1.
    apply Zmod.unsigned_inj. rewrite generator_pow by reflexivity.
    vm_compute. reflexivity.
  - assert (H : forallb proper_power order_primes = true) by (vm_compute; reflexivity).
    rewrite forallb_forall in H. apply Forall_forall.
    intros q Hq%order_factors_incl E%(f_equal Zstar.to_Zmod).
    rewrite Hpow, Zstar.to_Zmod_1 in E. apply (f_equal Zmod.to_Z) in E.
    pose proof (Z.prime_ge_2 q (Hprimes q Hq)) as Hq2.
    assert (Hdiv : 0 < (Modulus - 1) / q).
    { apply Z.div_str_pos. split; [lia|].
      assert (Hle : forallb (fun p => p <=? Modulus - 1) order_primes = true)
        by (vm_compute; reflexivity).
      rewrite forallb_forall in Hle. apply Z.leb_le, Hle, Hq. }
    rewrite generator_pow in E by exact Hdiv.
    specialize (H q Hq). unfold proper_power in H.
    rewrite E in H. change (Zmod.to_Z Zmod.one) with 1 in H.
    rewrite Z.eqb_refl in H. discriminate H.
Qed.

End fr.
(** ** Go values and control

    A call either returns or panics; [fr_calls] counts the calls it made
    into the field package [fr] on the way. *)

Inductive panic : Type :=
| IndexOutOfRange
| NextPowerOfTwoOverflows
| RootOfUnityDoesNotExist (m : Z).

Inductive go (A : Type) : Type :=
| Return (a : A)
| Panic (p : panic).
Arguments Return {A} a.
Arguments Panic {A} p.

Record M (A : Type) : Type := Run { outcome : go A; fr_calls : nat }.
Arguments Run {A} outcome fr_calls.
Arguments outcome {A} m.
Arguments fr_calls {A} m.

Definition ret {A} (a : A) : M A := Run (Return a) 0.
Definition raise {A} (p : panic) : M A := Run (Panic p) 0.
Definition call {A} (a : A) : M A := Run (Return a) 1.
Definition bind {A B} (m : M A) (f : A -> M B) : M B :=
  match outcome m with
  | Return a => let r := f a in Run (outcome r) (fr_calls m + fr_calls r)
  | Panic p => Run (Panic p) (fr_calls m)
  end.

Declare Scope go_scope.
Delimit Scope go_scope with go.
Notation "x <- m ;; k" := (bind m (fun x => k))
  (at level 61, m at next level, right associativity) : go_scope.
Notation "' pat <- m ;; k" := (bind m (fun x => match x with pat => k end))
  (at level 61, pat pattern, m at next level, right associativity) : go_scope.
Local Open Scope go_scope.

(** [for i := start; i < start + n; i++ { s = body i s }] *)
Fixpoint for_loop {State} (n : nat) (i : Z) (body : Z -> State -> M State)
  (s : State) : M State :=
  match n with
  | O => ret s
  | S n' => s' <- body i s ;; for_loop n' (i + 1) body s'
  end.

(** Errors.  [errors_New] is an error made on the spot from its message;
    [LibraryError] is one that gnark-crypto returned. *)
Inductive error : Type :=
| errors_New (msg : String.string)
| ErrVerifyOpeningProof
| ErrInvalidNumDigests
| LibraryError (msg : String.string).

(** Slices: [len], indexing (which panics out of range), [make]. *)
Definition MaxInt : Z := 2 ^ 63 - 1.
Definition len {A} (s : list A) : Z := Z.of_nat (length s).

Definition index {A} (s : list A) (i : Z) : M A :=
  if i <? 0 then raise IndexOutOfRange
  else match nth_error s (Z.to_nat i) with
       | Some x => ret x
       | None => raise IndexOutOfRange
       end.

Fixpoint set_nth {A} (s : list A) (n : nat) (x : A) : list A :=
  match s, n with
  | [], _ => []
  | _ :: s', O => x :: s'
  | y :: s', S n' => y :: set_nth s' n' x
  end.

Definition store {A} (s : list A) (i : Z) (x : A) : M (list A) :=
  if (i <? 0) || (len s <=? i) then raise IndexOutOfRange
  else ret (set_nth s (Z.to_nat i) x).

(** [make([]T, n)]: a slice of [n] zero values.  The runtime panics when the
    storage of [n] elements exceeds the address space; the model does not,
    and every statement below that asserts a return keeps [n] at the length
    of a slice at hand or at a cardinality of at most [2^32]. *)
Definition make {A} (zero : A) (n : Z) : list A := repeat zero (Z.to_nat n).

(** Conversions between [uint64] and [int] (two's complement, 64 bits). *)
Definition int_of_uint64 (x : Z) : Z := if x <? 2 ^ 63 then x else x - 2 ^ 64.
Definition uint64_of_int (x : Z) : Z := x mod 2 ^ 64.

(** Package [math/bits], on [uint64]. *)
Fixpoint ones (p : positive) : Z :=
  match p with
  | xH => 1
  | xO p' => ones p'
  | xI p' => 1 + ones p'
  end.

Fixpoint trailing_zeros (p : positive) : Z :=
  match p with
  | xO p' => 1 + trailing_zeros p'
  | _ => 0
  end.

Definition OnesCount64 (x : Z) : Z :=
  match x with Zpos p => ones p | _ => 0 end.
Definition Len64 (x : Z) : Z :=
  match x with Zpos p => Z.log2 x + 1 | _ => 0 end.
Definition LeadingZeros64 (x : Z) : Z := 64 - Len64 x.
Definition TrailingZeros64 (x : Z) : Z :=
  match x with Zpos p => trailing_zeros p | _ => 64 end.

(** [ecc.NextPowerOfTwo] of gnark-crypto. *)
Definition NextPowerOfTwo (n : Z) : M Z :=
  let c := OnesCount64 n in
  if c =? 0 then ret 1
  else if c =? 1 then ret n
  else
    let t := LeadingZeros64 n in
    if t =? 0 then raise NextPowerOfTwoOverflows
    else ret (Z.shiftl 1 (64 - t) mod 2 ^ 64).

(** ** The evaluation domain ([internal/kzg/domain.go]) *)

Record Domain : Type := {
  Cardinality : Z;
  CardinalityInv : fr.Element;
  Generator : fr.Element;
  GeneratorInv : fr.Element;
  Roots : list fr.Element;
  PreComputedInverses : list fr.Element
}.

Definition Polynomial : Type := list fr.Element.

Definition maxOrderRoot : Z := 32.

(* The decimal literal that NewDomain parses: a root of unity of order 2^32. *)
Definition rootOfUnity_decimal : Z :=
  10238227357739495823651030575849232062558860180284477541189508159991286009131.

Definition NewDomain (m : Z) : M Domain :=
  x <- NextPowerOfTwo m ;;
  rootOfUnity <- call (fr.SetString rootOfUnity_decimal) ;;
  let logx := TrailingZeros64 x in
  if logx >? maxOrderRoot then raise (RootOfUnityDoesNotExist m)
  else
    let expo := Z.shiftl 1 (maxOrderRoot - logx) mod 2 ^ 64 in
    generator <- call (fr.Exp rootOfUnity (int_of_uint64 expo)) ;;
    generatorInv <- call (fr.Inverse generator) ;;
    cardinality <- call (fr.SetUint64 x) ;;
    cardinalityInv <- call (fr.Inverse cardinality) ;;
    current <- call fr.One ;;
    '(roots, _) <- for_loop (Z.to_nat x) 0
        (fun i '(roots, current) =>
           roots <- store roots i current ;;
           current <- call (fr.Mul current generator) ;;
           ret (roots, current))
        (make fr.Zero x, current) ;;
    inverses <- for_loop (Z.to_nat x) 0
        (fun i inverses =>
           root <- index roots i ;;
           inverse <- call (fr.Inverse root) ;;
           store inverses i inverse)
        (make fr.Zero x) ;;
    ret {| Cardinality := x;
           CardinalityInv := cardinalityInv;
           Generator := generator;
           GeneratorInv := generatorInv;
           Roots := roots;
           PreComputedInverses := inverses |}.

Fixpoint findRootIndex_from (d : Domain) (point : fr.Element) (n : nat) (i : Z)
  : M Z :=
  match n with
  | O => ret (-1)
  | S n' =>
      root <- index (Roots d) i ;;
      equal <- call (fr.Equal point root) ;;
      if equal then ret i else findRootIndex_from d point n' (i + 1)
  end.

Definition findRootIndex (d : Domain) (point : fr.Element) : M Z :=
  findRootIndex_from d point (Z.to_nat (int_of_uint64 (Cardinality d))) 0.

Definition isInDomain (d : Domain) (point : fr.Element) : M bool :=
  i <- findRootIndex d point ;; ret (negb (i =? -1)).

Definition domain_size_error : error :=
  errors_New
    "domain size does not equal the number of evaluations in the polynomial"%string.

Definition evaluateLagrangePolynomial (domain : Domain) (poly : Polynomial)
  (eval_point : fr.Element) : M (option fr.Element * Z * option error) :=
  let indexInDomain := -1 in
  if negb (Cardinality domain =? uint64_of_int (len poly)) then
    ret (None, indexInDomain, Some domain_size_error)
  else
    indexInDomain <- findRootIndex domain eval_point ;;
    if negb (indexInDomain =? -1) then
      value <- index poly indexInDomain ;;
      ret (Some value, indexInDomain, None)
    else
      let denom := make fr.Zero (Cardinality domain) in
      denom <- for_loop (length denom) 0
        (fun i denom =>
           root <- index (Roots domain) i ;;
           diff <- call (fr.Sub eval_point root) ;;
           store denom i diff)
        denom ;;
      invDenom <- call (fr.BatchInvert denom) ;;
      result <- for_loop (Z.to_nat (int_of_uint64 (Cardinality domain))) 0
        (fun i result =>
           p <- index poly i ;;
           root <- index (Roots domain) i ;;
           num <- call (fr.Mul p root) ;;
           inv_i <- index invDenom i ;;
           div <- call (fr.Mul num inv_i) ;;
           call (fr.Add result div))
        fr.Zero ;;
      tmp <- call (fr.Exp eval_point (int_of_uint64 (Cardinality domain))) ;;
      one <- call fr.One ;;
      tmp <- call (fr.Sub tmp one) ;;
      tmp <- call (fr.Mul tmp (CardinalityInv domain)) ;;
      result <- call (fr.Mul tmp result) ;;
      ret (Some result, indexInDomain, None).

Definition EvaluateLagrangePolynomial (domain : Domain) (poly : Polynomial)
  (eval_point : fr.Element) : M (option fr.Element * option error) :=
  '(outputPoint, _, err) <- evaluateLagrangePolynomial domain poly eval_point ;;
  ret (outputPoint, err).
(** ** The pairing groups: gnark-crypto's package [bls12381]

    The two groups of the curve, the target group and the pairing are taken
    as an interface.  [G1Affine] stands for a point of the first group in
    either coordinate system (affine or Jacobian: the conversions between
    them do not change the point).

    The pairing with a fixed second point reads the precomputed lines of
    that point.  The library multiplies the coefficients of the lines by the
    inverse coordinates of the first point before it reads them, and it does
    so in the storage it is given: [pair_lines p l] is the value it computes
    from the lines [l] as they are when the call is made, and
    [scale_lines p l] is what the call leaves in their place. *)

Class Curve : Type := {
  G1Affine : Type;
  G2Affine : Type;
  GT : Type;
  LineEvaluations : Type;
  g1_zero : G1Affine;
  g1_add : G1Affine -> G1Affine -> G1Affine;
  g1_neg : G1Affine -> G1Affine;
  g1_mul : Z -> G1Affine -> G1Affine;
  gt_one : GT;
  gt_mul : GT -> GT -> GT;
  gt_inv : GT -> GT;
  gt_eqb : GT -> GT -> bool;
  pair : G1Affine -> G2Affine -> GT;
  PrecomputeLines : G2Affine -> LineEvaluations;
  pair_lines : G1Affine -> LineEvaluations -> GT;
  scale_lines : G1Affine -> LineEvaluations -> LineEvaluations
}.

(** The laws of the interface: two groups of order [fr.Modulus], written
    additively for [G1Affine] and multiplicatively for [GT], and a pairing
    that is linear in its first argument.  Lines as [PrecomputeLines] makes
    them give the pairing; nothing is assumed of lines that a call has
    scaled. *)
Class CurveLaws (C : Curve) : Prop := {
  g1_add_assoc : forall p q r, g1_add p (g1_add q r) = g1_add (g1_add p q) r;
  g1_add_comm : forall p q, g1_add p q = g1_add q p;
  g1_add_zero : forall p, g1_add g1_zero p = p;
  g1_add_neg : forall p, g1_add p (g1_neg p) = g1_zero;
  g1_mul_zero : forall p, g1_mul 0 p = g1_zero;
  g1_mul_add : forall a b p, g1_mul (a + b) p = g1_add (g1_mul a p) (g1_mul b p);
  g1_mul_order : forall p, g1_mul fr.Modulus p = g1_zero;
  gt_mul_assoc : forall x y z, gt_mul x (gt_mul y z) = gt_mul (gt_mul x y) z;
  gt_mul_comm : forall x y, gt_mul x y = gt_mul y x;
  gt_mul_one : forall x, gt_mul gt_one x = x;
  gt_mul_inv : forall x, gt_mul x (gt_inv x) = gt_one;
  gt_eqb_eq : forall x y, gt_eqb x y = true <-> x = y;
  pair_add : forall p q r, pair (g1_add p q) r = gt_mul (pair p r) (pair q r);
  pair_lines_precomputed : forall p q, pair_lines p (PrecomputeLines q) = pair p q
}.

Section KZG.
Context {C : Curve}.

Definition g1_sub (p q : G1Affine) : G1Affine := g1_add p (g1_neg q).

(* [a1.ScalarMultiplication(s1) + a2.ScalarMultiplication(s2)] *)
Definition JointScalarMultiplication (a1 a2 : G1Affine) (s1 s2 : Z) : G1Affine :=
  g1_add (g1_mul s1 a1) (g1_mul s2 a2).

Definition ScalarMultiplication (a : G1Affine) (s : Z) : G1Affine := g1_mul s a.

(** [MultiExp]: the sum of the points, each multiplied by its scalar; an
    error when there are not as many scalars as points. *)
Definition multi_exp_sum (points : list G1Affine) (scalars : list fr.Element)
  : G1Affine :=
  fold_left (fun acc '(p, s) => g1_add acc (g1_mul (fr.BigInt s) p))
            (combine points scalars) g1_zero.

Definition MultiExp (points : list G1Affine) (scalars : list fr.Element)
  : G1Affine * option error :=
  if negb (len points =? len scalars) then
    (g1_zero, Some (LibraryError "len(points) != len(scalars)"))
  else (multi_exp_sum points scalars, None).

(** [PairingCheck]: whether the product of the pairings is one; an error
    when the two slices differ in length or are empty. *)
Definition PairingCheck (P : list G1Affine) (Q : list G2Affine)
  : bool * option error :=
  if negb (len P =? len Q) || (len P =? 0) then
    (false, Some (LibraryError "invalid inputs sizes"))
  else
    (gt_eqb (fold_left (fun acc '(p, q) => gt_mul acc (pair p q)) (combine P Q) gt_one)
            gt_one,
     None).

(** [PairingCheckFixedQ]: the same check, the second points being given by
    their precomputed lines.  [lines] is a slice, and the call writes to it:
    [PairingCheckFixedQ] is what the call returns, and
    [PairingCheckFixedQ_lines] is the content of the slice when it returns,
    the lines of each index scaled by the point of that index (unchanged when
    the sizes are refused, which is decided first). *)
Definition PairingCheckFixedQ (P : list G1Affine) (lines : list LineEvaluations)
  : bool * option error :=
  if negb (len P =? len lines) || (len P =? 0) then
    (false, Some (LibraryError "invalid inputs sizes"))
  else
    (gt_eqb (fold_left (fun acc '(p, l) => gt_mul acc (pair_lines p l))
                       (combine P lines) gt_one)
            gt_one,
     None).

Definition PairingCheckFixedQ_lines (P : list G1Affine)
  (lines : list LineEvaluations) : list LineEvaluations :=
  if negb (len P =? len lines) || (len P =? 0) then lines
  else map (fun '(p, l) => scale_lines p l) (combine P lines).

(** ** Opening proofs and their verification *)

Definition Commitment : Type := G1Affine.

Record OpeningProof : Type := {
  QuotientCommitment : G1Affine;
  InputPoint : fr.Element;
  ClaimedValue : fr.Element
}.

(** Modelled from the spec: the type [OpeningKey] is declared in a file of
    the repository that is not among the sources.  The spec gives its
    fields: the generator of the first group, the generator of the second
    group, the secret multiple of the latter, and the precomputed pairing
    lines of these two points. *)
Record OpeningKey : Type := {
  GenG1 : G1Affine;
  GenG2 : G2Affine;
  AlphaG2 : G2Affine;
  PairingLines : list LineEvaluations
}.

(** Modelled from the spec: [utils.ComputePowers] is in a file of the
    repository that is not among the sources.  The spec gives the weights it
    forms: [r^0, r^1, ..., r^(n-1)]. *)
Definition ComputePowers (x : fr.Element) (n : Z) : list fr.Element :=
  map (fun i => fr.Exp x (Z.of_nat i)) (seq 0 (Z.to_nat n)).

(* What a pairing check that reported no failure makes of the call. *)
Definition verdict (check : bool) : option error :=
  if negb check then Some ErrVerifyOpeningProof else None.

Definition Verify (commitment : Commitment) (proof : OpeningProof)
  (openKey : OpeningKey) : M (option error) :=
  cmInt <- call (fr.BigInt (ClaimedValue proof)) ;;
  pointNeg <- call (fr.Neg (InputPoint proof)) ;;
  pointInt <- call (fr.BigInt pointNeg) ;;
  let totalG1 :=
    JointScalarMultiplication (GenG1 openKey) (QuotientCommitment proof) cmInt pointInt in
  let commitmentJac := commitment in
  let totalG1 := g1_sub totalG1 commitmentJac in
  let totalG1Aff := totalG1 in
  let '(check, err) :=
    PairingCheckFixedQ [totalG1Aff; QuotientCommitment proof] (PairingLines openKey) in
  match err with
  | Some e => ret (Some e)
  | None => if negb check then ret (Some ErrVerifyOpeningProof) else ret None
  end.

(** [Verify] is given its key by pointer and hands [openKey.PairingLines[:]],
    a slice over the key's own storage, to [PairingCheckFixedQ]: the call
    changes the key.  [Verify] above is the error returned, from the key as
    it is when the call is made; [Verify_openKey] is the key when the call
    returns.  The same holds of a batch of one proof, which
    [BatchVerifyMultiPoints] passes to [Verify]; a larger batch reads
    [GenG2] and [AlphaG2] and leaves the key as it is. *)
Definition Verify_openKey (commitment : Commitment) (proof : OpeningProof)
  (openKey : OpeningKey) : OpeningKey :=
  let cmInt := fr.BigInt (ClaimedValue proof) in
  let pointInt := fr.BigInt (fr.Neg (InputPoint proof)) in
  let totalG1 :=
    JointScalarMultiplication (GenG1 openKey) (QuotientCommitment proof) cmInt pointInt in
  let totalG1Aff := g1_sub totalG1 commitment in
  {| GenG1 := GenG1 openKey;
     GenG2 := GenG2 openKey;
     AlphaG2 := AlphaG2 openKey;
     PairingLines :=
       PairingCheckFixedQ_lines [totalG1Aff; QuotientCommitment proof]
                                (PairingLines openKey) |}.

Definition fold (commitments : list Commitment) (evaluations factors : list fr.Element)
  : M (Commitment * fr.Element * option error) :=
  let batchSize := len commitments in
  foldedEvaluations <- for_loop (Z.to_nat batchSize) 0
    (fun i foldedEvaluations =>
       evaluation <- index evaluations i ;;
       factor <- index factors i ;;
       tmp <- call (fr.Mul evaluation factor) ;;
       call (fr.Add foldedEvaluations tmp))
    fr.Zero ;;
  let '(foldedCommitments, err) := MultiExp commitments factors in
  match err with
  | Some e => ret (foldedCommitments, foldedEvaluations, Some e)
  | None => ret (foldedCommitments, foldedEvaluations, None)
  end.

(** [SetRandom] is what the call [randomNumber.SetRandom()] gives: a scalar
    read from the random source of the system, or the error of reading it.
    The source is outside the program, so the draw is an argument here. *)
Definition BatchVerifyMultiPoints (commitments : list Commitment)
  (proofs : list OpeningProof) (openKey : OpeningKey)
  (SetRandom : fr.Element * option error) : M (option error) :=
  if negb (len commitments =? len proofs) then ret (Some ErrInvalidNumDigests)
  else
    let batchSize := len commitments in
    if batchSize =? 0 then ret None
    else if batchSize =? 1 then
      commitment <- index commitments 0 ;;
      proof <- index proofs 0 ;;
      Verify commitment proof openKey
    else
      '(randomNumber, err) <- call SetRandom ;;
      match err with
      | Some e => ret (Some e)
      | None =>
      let randomNumbers := ComputePowers randomNumber (uint64_of_int batchSize) in
      quotients <- for_loop (Z.to_nat batchSize) 0
        (fun i quotients =>
           proof <- index proofs i ;;
           store quotients i (QuotientCommitment proof))
        (make g1_zero (len proofs)) ;;
      let '(foldedQuotients, err) := MultiExp quotients randomNumbers in
      match err with
      | Some e => ret (Some e)
      | None =>
      evaluations <- for_loop (length randomNumbers) 0
        (fun i evaluations =>
           proof <- index proofs i ;;
           value <- call (ClaimedValue proof) ;;
           store evaluations i value)
        (make fr.Zero batchSize) ;;
      '(foldedCommitments, foldedEvaluations, err) <-
        fold commitments evaluations randomNumbers ;;
      match err with
      | Some e => ret (Some e)
      | None =>
      foldedEvaluationsBigInt <- call (fr.BigInt foldedEvaluations) ;;
      let foldedEvaluationsCommit :=
        ScalarMultiplication (GenG1 openKey) foldedEvaluationsBigInt in
      let foldedCommitments := g1_sub foldedCommitments foldedEvaluationsCommit in
      randomNumbers <- for_loop (Z.to_nat batchSize) 0
        (fun i randomNumbers =>
           random <- index randomNumbers i ;;
           proof <- index proofs i ;;
           weighted <- call (fr.Mul random (InputPoint proof)) ;;
           store randomNumbers i weighted)
        randomNumbers ;;
      let '(foldedPointsQuotients, err) := MultiExp quotients randomNumbers in
      match err with
      | Some e => ret (Some e)
      | None =>
      let foldedCommitments := g1_add foldedCommitments foldedPointsQuotients in
      let foldedQuotients := g1_neg foldedQuotients in
      let '(check, err) :=
        PairingCheck [foldedCommitments; foldedQuotients]
                     [GenG2 openKey; AlphaG2 openKey] in
      match err with
      | Some e => ret (Some e)
      | None => if negb check then ret (Some ErrVerifyOpeningProof) else ret None
      end
      end
      end
      end
      end.

End KZG.

(** The pairing in the exponent: every point is given by its discrete
    logarithm, a scalar; the groups are the additive group of the scalar
    field and the pairing is the product of the logarithms.  This is the
    interface as any pairing of prime order [fr.Modulus] realises it, and
    the instance on which theorems are run on concrete values.  The lines of
    a point are the point, and scaling them by a point of the first group
    multiplies them by it, so that the point at infinity leaves zero lines,
    as it does in the library. *)
#[export] Instance ExponentCurve : Curve := {|
  G1Affine := fr.Element;
  G2Affine := fr.Element;
  GT := fr.Element;
  LineEvaluations := fr.Element;
  g1_zero := fr.Zero;
  g1_add := fr.Add;
  g1_neg := fr.Neg;
  g1_mul := fun k p => fr.Mul (Zmod.of_Z fr.Modulus k) p;
  gt_one := fr.Zero;
  gt_mul := fr.Add;
  gt_inv := fr.Neg;
  gt_eqb := fr.Equal;
  pair := fr.Mul;
  PrecomputeLines := fun q => q;
  pair_lines := fr.Mul;
  scale_lines := fr.Mul
|}.
(** ** Field laws of the scalar field *)

#[export] Instance Modulus_is_prime : Z.prime fr.Modulus := fr.Modulus_prime.

Add Field fr_field : (Zmod.field_theory fr.Modulus fr.Modulus_prime).

Ltac fr_unfold :=
  unfold fr.Add, fr.Sub, fr.Mul, fr.Neg, fr.Square, fr.Inverse, fr.One, fr.Zero,
    fr.Element in *.

Lemma fr_IsZero_spec (x : fr.Element) : reflect (x = fr.Zero) (fr.IsZero x).
Proof.
  unfold fr.IsZero. apply iff_reflect. symmetry. apply Zmod.eqb_eq.
Qed.

Lemma fr_Equal_spec (x y : fr.Element) : reflect (x = y) (fr.Equal x y).
Proof.
  unfold fr.Equal. apply iff_reflect. symmetry. apply Zmod.eqb_eq.
Qed.

Lemma fr_Inverse_zero : fr.Inverse fr.Zero = fr.Zero.
Proof. apply Zmod.inv_0. Qed.

Lemma fr_Mul_Inverse (x : fr.Element) :
  x <> fr.Zero -> fr.Mul x (fr.Inverse x) = fr.One.
Proof. intros H. apply Zmod.mul_inv_same_r_prime; [exact fr.Modulus_prime | exact H]. Qed.

Lemma fr_Inverse_unique (x y : fr.Element) :
  fr.Mul x y = fr.One -> y = fr.Inverse x.
Proof.
  intros H.
  assert (Hx : x <> fr.Zero).
  { intros ->. fr_unfold. rewrite Zmod.mul_comm in H.
    assert (E : Zmod.mul y Zmod.zero = Zmod.zero) by ring.
    rewrite E in H. symmetry in H. revert H.
    apply Zmod.one_neq_zero. unfold fr.Modulus. lia. }
  pose proof (fr_Mul_Inverse x Hx) as Hi. fr_unfold.
  transitivity (Zmod.mul y (Zmod.mul x (Zmod.inv x))).
  - rewrite Hi. ring.
  - transitivity (Zmod.mul (Zmod.mul x y) (Zmod.inv x)); [ring|].
    rewrite H. ring.
Qed.

Lemma fr_Mul_nonzero (x y : fr.Element) :
  x <> fr.Zero -> y <> fr.Zero -> fr.Mul x y <> fr.Zero.
Proof.
  intros Hx Hy H. apply (Zmod.mul_0_iff_prime fr.Modulus_prime) in H. tauto.
Qed.

(** The product of the non-zero entries, which [BatchInvert] accumulates. *)
Fixpoint nonzero_product (a : list fr.Element) : fr.Element :=
  match a with
  | [] => fr.One
  | x :: a' => if fr.IsZero x then nonzero_product a' else fr.Mul x (nonzero_product a')
  end.

Lemma nonzero_product_nonzero a : nonzero_product a <> fr.Zero.
Proof.
  induction a as [|x a IH]; simpl.
  - apply Zmod.one_neq_zero. unfold fr.Modulus. lia.
  - destruct (fr_IsZero_spec x); auto using fr_Mul_nonzero.
Qed.

Lemma BatchInvert_forward_acc a : forall acc,
  snd (fr.BatchInvert_forward a acc) = fr.Mul acc (nonzero_product a).
Proof.
  induction a as [|x a IH]; intros acc; simpl.
  - fr_unfold. ring.
  - destruct (fr_IsZero_spec x).
    + specialize (IH acc). destruct (fr.BatchInvert_forward a acc). exact IH.
    + specialize (IH (fr.Mul acc x)).
      destruct (fr.BatchInvert_forward a (fr.Mul acc x)). simpl in *.
      rewrite IH. fr_unfold. ring.
Qed.

Lemma BatchInvert_backward_correct a : forall acc acc_inv,
  acc <> fr.Zero ->
  fr.Mul acc_inv (fr.Mul acc (nonzero_product a)) = fr.One ->
  fr.BatchInvert_backward a (fst (fr.BatchInvert_forward a acc)) acc_inv
  = (map fr.Inverse a, fr.Mul acc_inv (nonzero_product a)).
Proof.
  induction a as [|x a IH]; intros acc acc_inv Hacc Hinv; simpl.
  - f_equal. fr_unfold. ring.
  - destruct (fr_IsZero_spec x) as [->|Hx].
    + specialize (IH acc acc_inv Hacc Hinv).
      destruct (fr.BatchInvert_forward a acc) as [res acc']. simpl in *.
      rewrite IH. destruct (fr_IsZero_spec fr.Zero); [|congruence].
      now rewrite fr_Inverse_zero.
    + specialize (IH (fr.Mul acc x) acc_inv (fr_Mul_nonzero _ _ Hacc Hx)).
      destruct (fr.BatchInvert_forward a (fr.Mul acc x)) as [res acc']. simpl in *.
      rewrite IH.
      * destruct (fr_IsZero_spec x); [congruence|]. f_equal; [f_equal|].
        -- apply fr_Inverse_unique. rewrite <- Hinv. fr_unfold. ring.
        -- fr_unfold. ring.
      * destruct (fr_IsZero_spec x); [congruence|].
        rewrite <- Hinv. fr_unfold. ring.
Qed.

Lemma BatchInvert_correct a : fr.BatchInvert a = map fr.Inverse a.
Proof.
  unfold fr.BatchInvert.
  pose proof (BatchInvert_forward_acc a fr.One) as Hacc.
  pose proof (BatchInvert_backward_correct a fr.One
                (fr.Inverse (fr.Mul fr.One (nonzero_product a)))) as Hb.
  destruct (fr.BatchInvert_forward a fr.One) as [res acc]. simpl in *.
  subst acc. rewrite Hb; [reflexivity| |].
  - apply Zmod.one_neq_zero. unfold fr.Modulus. lia.
  - unfold fr.Mul at 1. rewrite Zmod.mul_comm. apply fr_Mul_Inverse.
    apply fr_Mul_nonzero; [|apply nonzero_product_nonzero].
    apply Zmod.one_neq_zero. unfold fr.Modulus. lia.
Qed.
(** ** Running the monad *)

Lemma outcome_bind {A B} (m : M A) (f : A -> M B) :
  outcome (bind m f) =
  match outcome m with Return a => outcome (f a) | Panic p => Panic p end.
Proof. unfold bind. destruct (outcome m); reflexivity. Qed.

Lemma outcome_bind_return {A B} (m : M A) (f : A -> M B) a :
  outcome m = Return a -> outcome (bind m f) = outcome (f a).
Proof. intros H. now rewrite outcome_bind, H. Qed.

(** The rule of the [for] loop: an invariant that the body keeps, and that
    never lets it panic, holds when the loop is left. *)
Lemma for_loop_rule {State} (P : nat -> State -> Prop)
  (body : Z -> State -> M State) :
  forall (n : nat) (i0 : Z) (s0 : State),
  P O s0 ->
  (forall j s, (j < n)%nat -> P j s ->
     exists s', outcome (body (i0 + Z.of_nat j) s) = Return s' /\ P (S j) s') ->
  exists s', outcome (for_loop n i0 body s0) = Return s' /\ P n s'.
Proof.
  intros n. revert P. induction n as [|n IH]; intros P i0 s0 H0 Hstep; simpl.
  - exists s0; auto.
  - destruct (Hstep O s0) as (s1 & Hb & H1); [lia | exact H0 |].
    rewrite Z.add_0_r in Hb. rewrite (outcome_bind_return _ _ _ Hb).
    apply (IH (fun j s => P (S j) s)); [exact H1|].
    intros j s Hj Hs. destruct (Hstep (S j) s) as (s' & Hb' & Hs'); [lia | exact Hs |].
    exists s'. split; [|exact Hs'].
    rewrite <- Hb'. do 2 f_equal. lia.
Qed.

(** ** Slices *)

Lemma len_nonneg {A} (s : list A) : 0 <= len s.
Proof. unfold len. lia. Qed.

Lemma outcome_index {A} (s : list A) (i : nat) (x : A) :
  nth_error s i = Some x -> outcome (index s (Z.of_nat i)) = Return x.
Proof.
  intros H. unfold index. destruct (Z.ltb_spec (Z.of_nat i) 0); [lia|].
  now rewrite Nat2Z.id, H.
Qed.

Lemma outcome_index_out {A} (s : list A) (i : Z) :
  i < 0 \/ len s <= i -> outcome (index s i) = Panic IndexOutOfRange.
Proof.
  intros H. unfold index. destruct (Z.ltb_spec i 0); [reflexivity|].
  destruct (nth_error s (Z.to_nat i)) eqn:E; [|reflexivity].
  assert (Hl : (Z.to_nat i < length s)%nat) by (apply nth_error_Some; congruence).
  unfold len in H. lia.
Qed.

Lemma length_set_nth {A} (s : list A) : forall n x, length (set_nth s n x) = length s.
Proof. induction s; intros [|n] x; simpl; auto. Qed.

Lemma set_nth_app {A} (l : list A) y (r : list A) x n :
  length l = n -> set_nth (l ++ y :: r) n x = l ++ x :: r.
Proof. intros <-. induction l; simpl; congruence. Qed.

Lemma outcome_store {A} (s : list A) (i : nat) (x : A) :
  (i < length s)%nat ->
  outcome (store s (Z.of_nat i) x) = Return (set_nth s i x).
Proof.
  intros H. unfold store, len.
  destruct (Z.ltb_spec (Z.of_nat i) 0); [lia|].
  destruct (Z.leb_spec (Z.of_nat (length s)) (Z.of_nat i)); [lia|].
  simpl. now rewrite Nat2Z.id.
Qed.

(** A loop that fills a zeroed slice, entry [i] with [g i]. *)
Lemma fill_loop {A} (zero : A) (g : nat -> A) (body : Z -> list A -> M (list A))
  (n : nat) :
  (forall (j : nat) (done : list A) (rest : list A), (j < n)%nat ->
     length done = j ->
     outcome (body (Z.of_nat j) (done ++ zero :: rest))
     = Return (done ++ g j :: rest)) ->
  outcome (for_loop n 0 body (repeat zero n)) = Return (map g (seq 0 n)).
Proof.
  intros Hbody.
  destruct (for_loop_rule
    (fun j s => s = map g (seq 0 j) ++ repeat zero (n - j)) body n 0 (repeat zero n))
    as (s & Hs & ->).
  - now rewrite Nat.sub_0_r.
  - intros j s Hj ->. eexists. split.
    + replace (n - j)%nat with (S (n - S j)) by lia. simpl repeat.
      rewrite Z.add_0_l. apply Hbody; [lia|]. now rewrite length_map, length_seq.
    + rewrite seq_S, map_app, <- app_assoc. reflexivity.
  - now rewrite Hs, Nat.sub_diag, app_nil_r.
Qed.

(** ** Powers of two and [math/bits] *)

Lemma ones_pos p : 1 <= ones p.
Proof. induction p; cbn [ones]; lia. Qed.

Lemma ones_one p : ones p = 1 -> Zpos p = 2 ^ trailing_zeros p /\ 0 <= trailing_zeros p.
Proof.
  induction p as [p IH|p IH|]; cbn [ones trailing_zeros]; intros H.
  - pose proof (ones_pos p). lia.
  - destruct (IH H) as [E Hn]. split; [|lia].
    rewrite Z.add_comm, Z.pow_add_r, Z.pow_1_r, <- E by lia. lia.
  - split; [reflexivity | lia].
Qed.

Lemma pow2_bits (n : nat) :
  OnesCount64 (2 ^ Z.of_nat n) = 1 /\ TrailingZeros64 (2 ^ Z.of_nat n) = Z.of_nat n.
Proof.
  induction n as [|n [IH1 IH2]]; [split; reflexivity|].
  rewrite Nat2Z.inj_succ, Z.pow_succ_r by lia.
  assert (Hp : 0 < 2 ^ Z.of_nat n) by (apply Z.pow_pos_nonneg; lia).
  destruct (2 ^ Z.of_nat n) as [|p|p]; try lia.
  change (2 * Z.pos p) with (Z.pos p~0).
  cbn [OnesCount64 TrailingZeros64 ones trailing_zeros] in *. lia.
Qed.

(** What [NextPowerOfTwo] returns on sizes up to [2^32]. *)
Lemma NextPowerOfTwo_spec m : 0 <= m <= 2 ^ 32 ->
  exists k, 0 <= k <= 32 /\ outcome (NextPowerOfTwo m) = Return (2 ^ k)
    /\ m <= 2 ^ k /\ (m = 0 -> k = 0)
    /\ (forall j, 0 <= j -> m <= 2 ^ j -> 2 ^ k <= 2 ^ j).
Proof.
  intros Hm. unfold NextPowerOfTwo.
  destruct m as [|p|p]; [|destruct Hm as [_ Hm]|lia].
  { exists 0. simpl. repeat split; try lia. }
  pose proof (ones_pos p) as H1. unfold OnesCount64.
  destruct (Z.eqb_spec (ones p) 0) as [|_]; [lia|].
  destruct (Z.eqb_spec (ones p) 1) as [E|NE].
  - destruct (ones_one p E) as [Hp Hk]. exists (trailing_zeros p).
    assert (Hk32 : trailing_zeros p <= 32) by (apply (Z.pow_le_mono_r_iff 2); lia).
    split; [lia|]. split; [simpl; now rewrite Hp at 1|].
    split; [lia|]. split; [lia|]. intros j _ Hj. lia.
  - set (l := Z.log2 (Z.pos p)).
    destruct (Z.log2_spec (Z.pos p)) as [Hlo Hhi]; [lia|]. fold l in Hlo, Hhi.
    assert (Hl0 : 0 <= l) by apply Z.log2_nonneg.
    assert (Hstrict : 2 ^ l < Z.pos p).
    { destruct (Z.eq_dec (2 ^ l) (Z.pos p)) as [Heq|]; [|lia].
      exfalso. apply NE.
      pose proof (pow2_bits (Z.to_nat l)) as [Hc _].
      rewrite Z2Nat.id, Heq in Hc by lia. exact Hc. }
    assert (Hl : l <= 31).
    { assert (l < 32); [|lia]. apply (Z.pow_lt_mono_r_iff 2); lia. }
    exists (l + 1). unfold LeadingZeros64, Len64. fold l.
    destruct (Z.eqb_spec (64 - (l + 1)) 0) as [|_]; [lia|].
    replace (64 - (64 - (l + 1))) with (l + 1) by lia.
    rewrite Z.shiftl_1_l, Z.mod_small;
      [|split; [apply Z.pow_nonneg; lia | apply Z.pow_lt_mono_r; lia]].
    split; [lia|]. split; [reflexivity|]. split; [lia|]. split; [lia|].
    intros j Hj Hmj. apply Z.pow_le_mono_r; [lia|].
    assert (l < j); [|lia]. apply (Z.pow_lt_mono_r_iff 2); lia.
Qed.
(** ** Construction of the domain *)

Ltac run :=
  repeat first
    [ rewrite outcome_bind
    | progress cbn [call ret raise outcome fr_calls] ].

Lemma fr_two_le_Modulus : 2 <= fr.Modulus.
Proof. unfold fr.Modulus. lia. Qed.

Lemma fr_One_nonzero : fr.One <> fr.Zero.
Proof. apply Zmod.one_neq_zero. unfold fr.Modulus. lia. Qed.

Lemma fr_pow_mul_r (x : fr.Element) a b : 0 <= a -> 0 <= b ->
  Zmod.pow x (a * b) = Zmod.pow (Zmod.pow x a) b.
Proof.
  intros Ha Hb. revert b Hb. apply natlike_ind.
  - now rewrite Z.mul_0_r, !Zmod.pow_0_r.
  - intros b Hb IH.
    rewrite Z.mul_succ_r, Zmod.pow_add_r_nonneg, IH by nia.
    rewrite Zmod.pow_succ_nonneg_r by lia. apply Zmod.mul_comm.
Qed.

Lemma fr_pow_one_l b : 0 <= b -> Zmod.pow fr.One b = fr.One.
Proof.
  revert b. apply natlike_ind; [apply Zmod.pow_0_r|].
  intros b Hb IH. rewrite Zmod.pow_succ_nonneg_r, IH by lia. apply Zmod.mul_1_l.
Qed.

Lemma fr_Exp_pos (x : fr.Element) k : 0 < k -> fr.Exp x k = Zmod.pow x k.
Proof.
  intros Hk. unfold fr.Exp.
  destruct (Z.eqb_spec k 0); [lia|]. destruct (Z.ltb_spec k 0); [lia|]. reflexivity.
Qed.

Lemma fr_Exp_nonneg (x : fr.Element) k : 0 <= k -> fr.Exp x k = Zmod.pow x k.
Proof.
  intros Hk. destruct (Z.eq_dec k 0) as [->|]; [reflexivity|].
  apply fr_Exp_pos. lia.
Qed.

(** The literal really is a root of unity of order [2^32]. *)
Lemma rootOfUnity_order :
  Zmod.pow (fr.SetString rootOfUnity_decimal) (2 ^ maxOrderRoot) = fr.One.
Proof. apply Zmod.unsigned_inj. vm_compute. reflexivity. Qed.

Definition powers (g : fr.Element) (n : nat) : list fr.Element :=
  map (fun i => Zmod.pow g (Z.of_nat i)) (seq 0 n).

(** The domain of cardinality [2^k], as [NewDomain] builds it. *)
Definition generator_of_log (k : Z) : fr.Element :=
  Zmod.pow (fr.SetString rootOfUnity_decimal) (2 ^ (maxOrderRoot - k)).

Definition domain_of_log (k : Z) : Domain :=
  {| Cardinality := 2 ^ k;
     CardinalityInv := fr.Inverse (fr.SetUint64 (2 ^ k));
     Generator := generator_of_log k;
     GeneratorInv := fr.Inverse (generator_of_log k);
     Roots := powers (generator_of_log k) (Z.to_nat (2 ^ k));
     PreComputedInverses := map fr.Inverse (powers (generator_of_log k) (Z.to_nat (2 ^ k))) |}.

Lemma roots_loop (g : fr.Element) (n : nat) :
  outcome (for_loop n 0
    (fun i '(roots, current) =>
       roots <- store roots i current ;;
       current <- call (fr.Mul current g) ;;
       ret (roots, current))
    (repeat fr.Zero n, fr.One))
  = Return (powers g n, Zmod.pow g (Z.of_nat n)).
Proof.
  match goal with |- outcome (for_loop _ _ ?b _) = _ => set (body := b) end.
  destruct (for_loop_rule
    (fun j s => s = (powers g j ++ repeat fr.Zero (n - j), Zmod.pow g (Z.of_nat j)))
    body n 0 (repeat fr.Zero n, fr.One)) as (s & Hs & ->).
  - now rewrite Nat.sub_0_r.
  - intros j s Hj ->. eexists. split.
    + unfold body. rewrite Z.add_0_l.
      replace (n - j)%nat with (S (n - S j)) by lia. simpl repeat.
      rewrite outcome_bind, outcome_store;
        [|rewrite length_app; unfold powers; rewrite length_map, length_seq; simpl; lia].
      run. reflexivity.
    + f_equal.
      * rewrite set_nth_app by (unfold powers; now rewrite length_map, length_seq).
        unfold powers. now rewrite seq_S, map_app, <- app_assoc.
      * rewrite Nat2Z.inj_succ, Zmod.pow_succ_nonneg_r by lia. apply Zmod.mul_comm.
  - rewrite Nat.sub_diag, app_nil_r in Hs. exact Hs.
Qed.

Lemma map_nth_seq {A B} (f : A -> B) (d : A) (l : list A) :
  map (fun j => f (nth j l d)) (seq 0 (length l)) = map f l.
Proof.
  induction l as [|x l IH]; simpl; [reflexivity|]. f_equal.
  rewrite <- seq_shift, map_map. exact IH.
Qed.

Lemma inverses_loop (roots : list fr.Element) :
  outcome (for_loop (length roots) 0
    (fun i inverses =>
       root <- index roots i ;;
       inverse <- call (fr.Inverse root) ;;
       store inverses i inverse)
    (repeat fr.Zero (length roots)))
  = Return (map fr.Inverse roots).
Proof.
  rewrite (fill_loop fr.Zero (fun j => fr.Inverse (nth j roots fr.Zero))).
  - now rewrite map_nth_seq.
  - intros j done rest Hj Hdone.
    rewrite outcome_bind, (outcome_index roots j (nth j roots fr.Zero))
      by (apply nth_error_nth'; lia).
    run. subst j. rewrite outcome_store by (rewrite length_app; simpl; lia).
    now rewrite set_nth_app.
Qed.

Lemma NewDomain_spec m : 0 <= m <= 2 ^ 32 ->
  exists k, 0 <= k <= 32 /\ m <= 2 ^ k /\ (m = 0 -> k = 0)
    /\ (forall j, 0 <= j -> m <= 2 ^ j -> 2 ^ k <= 2 ^ j)
    /\ outcome (NewDomain m) = Return (domain_of_log k).
Proof.
  intros Hm. destruct (NextPowerOfTwo_spec m Hm) as (k & Hk & Hx & Hle & H0 & Hmin).
  exists k. repeat (split; [assumption|]).
  assert (Hpow : 0 < 2 ^ k) by (apply Z.pow_pos_nonneg; lia).
  unfold NewDomain. rewrite (outcome_bind_return _ _ _ Hx). run.
  pose proof (pow2_bits (Z.to_nat k)) as [_ Htz]. rewrite Z2Nat.id in Htz by lia.
  rewrite Htz. unfold maxOrderRoot.
  destruct (Z.gtb_spec k 32) as [|_]; [lia|]. run.
  unfold make at 1. rewrite roots_loop. run.
  set (g := fr.Exp _ _).
  assert (Hg : g = generator_of_log k).
  { unfold g, generator_of_log, maxOrderRoot.
    assert (Hb : 0 < 2 ^ (32 - k) <= 2 ^ 32).
    { split; [apply Z.pow_pos_nonneg; lia | apply Z.pow_le_mono_r; lia]. }
    rewrite Z.shiftl_1_l, Z.mod_small by lia.
    unfold int_of_uint64. destruct (Z.ltb_spec (2 ^ (32 - k)) (2 ^ 63)); [|lia].
    apply fr_Exp_pos. lia. }
  pose proof (inverses_loop (powers g (Z.to_nat (2 ^ k)))) as Hinv.
  unfold powers at 1 3 in Hinv. rewrite length_map, length_seq in Hinv.
  unfold make. rewrite Hinv. run. rewrite Hg. reflexivity.
Qed.
Lemma nth_error_powers g n i : (i < n)%nat ->
  nth_error (powers g n) i = Some (Zmod.pow g (Z.of_nat i)).
Proof.
  intros Hi. unfold powers.
  rewrite nth_error_map, nth_error_seq.
  destruct (Nat.ltb_spec i n); [reflexivity | lia].
Qed.

Lemma length_powers g n : length (powers g n) = n.
Proof. unfold powers. now rewrite length_map, length_seq. Qed.

Lemma generator_order k : 0 <= k <= 32 ->
  Zmod.pow (generator_of_log k) (2 ^ k) = fr.One.
Proof.
  intros Hk. unfold generator_of_log, maxOrderRoot.
  rewrite <- fr_pow_mul_r by (apply Z.pow_nonneg; lia).
  rewrite <- Z.pow_add_r by lia. replace (32 - k + k) with 32 by lia.
  apply rootOfUnity_order.
Qed.

Lemma root_order k i : 0 <= k <= 32 -> 0 <= i ->
  Zmod.pow (Zmod.pow (generator_of_log k) i) (2 ^ k) = fr.One.
Proof.
  intros Hk Hi.
  assert (Hp : 0 <= 2 ^ k) by (apply Z.pow_nonneg; lia).
  rewrite <- fr_pow_mul_r, Z.mul_comm, fr_pow_mul_r, generator_order by lia.
  now apply fr_pow_one_l.
Qed.

Lemma root_nonzero k i : 0 <= k <= 32 -> 0 <= i ->
  Zmod.pow (generator_of_log k) i <> fr.Zero.
Proof.
  intros Hk Hi E. pose proof (root_order k i Hk Hi) as H.
  rewrite E in H. unfold fr.Zero in H.
  rewrite Zmod.pow_0_l in H by (assert (0 < 2 ^ k) by (apply Z.pow_pos_nonneg; lia); lia).
  symmetry in H. now apply fr_One_nonzero.
Qed.

(** Sizes above [2^32] are refused: [NewDomain] panics. *)
Lemma NewDomain_rejects m : 2 ^ 32 < m < 2 ^ 64 ->
  exists p, outcome (NewDomain m) = Panic p.
Proof.
  intros Hm. unfold NewDomain, NextPowerOfTwo.
  destruct m as [|p|p]; try lia.
  pose proof (ones_pos p) as H1. unfold OnesCount64.
  destruct (Z.eqb_spec (ones p) 0) as [|_]; [lia|].
  destruct (Z.eqb_spec (ones p) 1) as [E|NE].
  - destruct (ones_one p E) as [Hp Hk]. run.
    cbn [TrailingZeros64]. unfold maxOrderRoot.
    destruct (Z.gtb_spec (trailing_zeros p) 32) as [_|Hle]; [run; eauto|].
    exfalso. assert (2 ^ trailing_zeros p <= 2 ^ 32) by (apply Z.pow_le_mono_r; lia). lia.
  - set (l := Z.log2 (Z.pos p)).
    destruct (Z.log2_spec (Z.pos p)) as [Hlo Hhi]; [lia|]. fold l in Hlo, Hhi.
    assert (Hl0 : 0 <= l) by apply Z.log2_nonneg.
    assert (Hl32 : 32 <= l).
    { assert (32 < l + 1); [|lia]. apply (Z.pow_lt_mono_r_iff 2); lia. }
    assert (Hl63 : l <= 63).
    { assert (l < 64); [|lia]. apply (Z.pow_lt_mono_r_iff 2); lia. }
    unfold LeadingZeros64, Len64. fold l.
    destruct (Z.eqb_spec (64 - (l + 1)) 0) as [|Hne]; [run; eauto|].
    replace (64 - (64 - (l + 1))) with (l + 1) by lia.
    rewrite Z.shiftl_1_l, Z.mod_small;
      [|split; [apply Z.pow_nonneg; lia | apply Z.pow_lt_mono_r; lia]].
    run. pose proof (pow2_bits (Z.to_nat (l + 1))) as [_ Htz].
    rewrite Z2Nat.id in Htz by lia. rewrite Htz. unfold maxOrderRoot.
    destruct (Z.gtb_spec (l + 1) 32) as [_|Hle]; [run; eauto | lia].
Qed.

Lemma NewDomain_returns m d : 0 <= m < 2 ^ 64 -> outcome (NewDomain m) = Return d ->
  exists k, 0 <= k <= 32 /\ m <= 2 ^ k /\ (m = 0 -> k = 0)
    /\ (forall j, 0 <= j -> m <= 2 ^ j -> 2 ^ k <= 2 ^ j)
    /\ d = domain_of_log k.
Proof.
  intros Hm Hd. destruct (Z.le_gt_cases m (2 ^ 32)) as [Hle|Hgt].
  - destruct (NewDomain_spec m) as (k & Hk & H1 & H2 & H3 & H4); [lia|].
    exists k. repeat (split; [assumption|]). congruence.
  - destruct (NewDomain_rejects m) as (p & Hp); [lia | congruence].
Qed.

(** C7. Every size [m] that [NewDomain] accepts (it accepts exactly the
    sizes up to [2^32]) yields a domain whose cardinality is the least
    power of two that is at least [m] (so 1 when [m = 0]), whose [Roots]
    and [PreComputedInverses] have that many entries, with [Roots[0] = 1],
    [Roots[i]^Cardinality = 1] and [Roots[i] * PreComputedInverses[i] = 1]
    at every index [i] below the cardinality. *)
Theorem NewDomain_invariants m d :
  0 <= m < 2 ^ 64 -> outcome (NewDomain m) = Return d ->
  (exists k, 0 <= k /\ Cardinality d = 2 ^ k)
  /\ m <= Cardinality d
  /\ (m = 0 -> Cardinality d = 1)
  /\ (forall j, 0 <= j -> m <= 2 ^ j -> Cardinality d <= 2 ^ j)
  /\ len (Roots d) = Cardinality d
  /\ len (PreComputedInverses d) = Cardinality d
  /\ nth_error (Roots d) 0 = Some fr.One
  /\ forall i, 0 <= i < Cardinality d ->
       exists root inverse,
         nth_error (Roots d) (Z.to_nat i) = Some root
         /\ nth_error (PreComputedInverses d) (Z.to_nat i) = Some inverse
         /\ fr.Exp root (Cardinality d) = fr.One
         /\ fr.Mul root inverse = fr.One.
Proof.
  intros Hm Hd.
  destruct (NewDomain_returns m d Hm Hd) as (k & Hk & Hle & H0 & Hmin & ->).
  assert (Hpow : 0 < 2 ^ k) by (apply Z.pow_pos_nonneg; lia).
  cbn [domain_of_log Cardinality Roots PreComputedInverses].
  split; [exists k; split; [lia | reflexivity]|].
  split; [assumption|].
  split; [intros E; now rewrite (H0 E)|].
  split; [assumption|].
  split; [unfold len; rewrite length_powers; lia|].
  split; [unfold len; rewrite length_map, length_powers; lia|].
  split; [rewrite nth_error_powers by lia; now rewrite Zmod.pow_0_r|].
  intros i Hi. exists (Zmod.pow (generator_of_log k) i), (fr.Inverse (Zmod.pow (generator_of_log k) i)).
  assert (Hnth : nth_error (powers (generator_of_log k) (Z.to_nat (2 ^ k))) (Z.to_nat i)
                 = Some (Zmod.pow (generator_of_log k) i)).
  { rewrite nth_error_powers by lia. now rewrite Z2Nat.id by lia. }
  split; [exact Hnth|].
  split; [now rewrite nth_error_map, Hnth|].
  split; [rewrite fr_Exp_pos by lia; apply root_order; lia|].
  apply fr_Mul_Inverse, root_nonzero; lia.
Qed.

Lemma NewDomain_invariants_witness :
  exists d, outcome (NewDomain 3) = Return d /\ Cardinality d = 4
    /\ nth_error (Roots d) 0 = Some fr.One.
Proof.
  exists (domain_of_log 2).
  assert (Hd : outcome (NewDomain 3) = Return (domain_of_log 2))
    by (vm_compute; reflexivity).
  split; [exact Hd|]. split; [reflexivity|].
  apply (NewDomain_invariants 3 (domain_of_log 2)); [lia | exact Hd].
Defined.

(** C6, as the code has it.  The roots of a constructed domain are stored
    at the indices [0 .. Cardinality - 1] and nowhere else: there is no entry
    at index [Cardinality], and reading one panics.  The sequence starts at
    1 and is cyclic in that one more step from its last entry, a
    multiplication by the generator, leads back to [Roots[0] = 1]. *)
Theorem NewDomain_roots_cycle m d :
  0 <= m < 2 ^ 64 -> outcome (NewDomain m) = Return d ->
  len (Roots d) = Cardinality d
  /\ nth_error (Roots d) 0 = Some fr.One
  /\ nth_error (Roots d) (Z.to_nat (Cardinality d)) = None
  /\ outcome (index (Roots d) (Cardinality d)) = Panic IndexOutOfRange
  /\ exists last, nth_error (Roots d) (Z.to_nat (Cardinality d - 1)) = Some last
       /\ fr.Mul last (Generator d) = fr.One.
Proof.
  intros Hm Hd.
  destruct (NewDomain_returns m d Hm Hd) as (k & Hk & Hle & H0 & Hmin & ->).
  assert (Hpow : 0 < 2 ^ k) by (apply Z.pow_pos_nonneg; lia).
  cbn [domain_of_log Cardinality Roots Generator].
  assert (Hlen : len (powers (generator_of_log k) (Z.to_nat (2 ^ k))) = 2 ^ k)
    by (unfold len; rewrite length_powers; lia).
  split; [exact Hlen|].
  split; [rewrite nth_error_powers by lia; now rewrite Zmod.pow_0_r|].
  split; [apply nth_error_None; rewrite length_powers; lia|].
  split; [apply outcome_index_out; lia|].
  exists (Zmod.pow (generator_of_log k) (2 ^ k - 1)). split.
  - rewrite nth_error_powers by lia. now rewrite Z2Nat.id by lia.
  - unfold fr.Mul. rewrite Zmod.mul_comm, <- Zmod.pow_succ_nonneg_r by lia.
    replace (Z.succ (2 ^ k - 1)) with (2 ^ k) by lia. apply generator_order; lia.
Qed.

Lemma NewDomain_roots_cycle_witness :
  len (Roots (domain_of_log 2)) = Cardinality (domain_of_log 2)
  /\ nth_error (Roots (domain_of_log 2)) 0 = Some fr.One.
Proof.
  assert (Hd : outcome (NewDomain 4) = Return (domain_of_log 2))
    by (vm_compute; reflexivity).
  split; apply (NewDomain_roots_cycle 4 (domain_of_log 2)); (lia || exact Hd).
Defined.

(** C6, as the claim states it, fails: the domain built for size 4 has four
    roots, at the indices 0 to 3, and no entry at index 4. *)
Lemma NewDomain_no_root_at_cardinality :
  exists d, outcome (NewDomain 4) = Return d
    /\ Cardinality d = 4
    /\ length (Roots d) = 4%nat
    /\ nth_error (Roots d) (Z.to_nat (Cardinality d)) = None.
Proof.
  exists (domain_of_log 2).
  split; [|split; [|split]]; vm_compute; reflexivity.
Qed.
(** ** Evaluation in Lagrange form *)

(** The scan of [findRootIndex]: it returns the first index, below the
    bound, whose root is the point, or -1 when there is none, and it panics
    only when [Roots] ends before the scan does. *)
Lemma findRootIndex_from_cases d point : forall n i0,
  match outcome (findRootIndex_from d point n (Z.of_nat i0)) with
  | Return r =>
      (r = -1 /\
       forall j, (i0 <= j < i0 + n)%nat ->
         exists root, nth_error (Roots d) j = Some root /\ root <> point)
      \/ (exists i, r = Z.of_nat i /\ (i0 <= i < i0 + n)%nat
          /\ nth_error (Roots d) i = Some point
          /\ forall j, (i0 <= j < i)%nat ->
               exists root, nth_error (Roots d) j = Some root /\ root <> point)
  | Panic p => p = IndexOutOfRange /\ (length (Roots d) < i0 + n)%nat
  end.
Proof.
  induction n as [|n IH]; intros i0; cbn [findRootIndex_from].
  - cbn. left. split; [reflexivity|]. intros j Hj. lia.
  - rewrite outcome_bind.
    destruct (nth_error (Roots d) i0) as [root|] eqn:Hroot.
    + rewrite (outcome_index _ _ _ Hroot). run.
      destruct (fr_Equal_spec point root) as [<-|Hne].
      * cbn. right. exists i0.
        split; [reflexivity|]. split; [lia|]. split; [exact Hroot|].
        intros j Hj. lia.
      * specialize (IH (S i0)). rewrite Nat2Z.inj_succ in IH.
        unfold Z.succ in IH.
        destruct (outcome (findRootIndex_from d point n (Z.of_nat i0 + 1))) as [r|p].
        -- destruct IH as [[-> Hall]|(i & -> & Hi & Hfound & Hbefore)].
           ++ left. split; [reflexivity|]. intros j Hj.
              destruct (Nat.eq_dec j i0) as [->|]; [eauto|]. apply Hall. lia.
           ++ right. exists i.
              split; [reflexivity|]. split; [lia|]. split; [exact Hfound|].
              intros j Hj.
              destruct (Nat.eq_dec j i0) as [->|]; [eauto|]. apply Hbefore. lia.
        -- destruct IH as [-> Hlen]. split; [reflexivity | lia].
    + rewrite outcome_index_out.
      * split; [reflexivity|]. apply nth_error_None in Hroot. lia.
      * right. apply nth_error_None in Hroot. unfold len. lia.
Qed.

Lemma int_of_uint64_small x : 0 <= x <= MaxInt -> int_of_uint64 x = x.
Proof.
  unfold int_of_uint64, MaxInt. intros H.
  destruct (Z.ltb_spec x (2 ^ 63)); lia.
Qed.

Lemma uint64_of_int_small x : 0 <= x <= MaxInt -> uint64_of_int x = x.
Proof. unfold uint64_of_int, MaxInt. intros H. apply Z.mod_small. lia. Qed.

(** The sum of the barycentric formula, term by term:
    [polynomial[i] * roots[i] * (point - roots[i])^-1]. *)
Definition lagrange_term (poly roots : list fr.Element) (point : fr.Element)
  (i : nat) : fr.Element :=
  fr.Mul (fr.Mul (nth i poly fr.Zero) (nth i roots fr.Zero))
         (fr.Inverse (fr.Sub point (nth i roots fr.Zero))).

Definition barycentric_sum (poly roots : list fr.Element) (point : fr.Element)
  (n : nat) : fr.Element :=
  fold_left (fun acc i => fr.Add acc (lagrange_term poly roots point i)) (seq 0 n)
            fr.Zero.

(** [((point^cardinality - 1) * cardinalityInverse) * sum]. *)
Definition barycentric_formula (d : Domain) (poly : Polynomial)
  (point : fr.Element) : fr.Element :=
  fr.Mul (fr.Mul (fr.Sub (fr.Exp point (Cardinality d)) fr.One) (CardinalityInv d))
         (barycentric_sum poly (Roots d) point (Z.to_nat (Cardinality d))).

Lemma denominators_loop roots point (n : nat) : (n <= length roots)%nat ->
  outcome (for_loop n 0
    (fun i denom =>
       root <- index roots i ;;
       diff <- call (fr.Sub point root) ;;
       store denom i diff)
    (repeat fr.Zero n))
  = Return (map (fun j => fr.Sub point (nth j roots fr.Zero)) (seq 0 n)).
Proof.
  intros Hn. apply fill_loop. intros j done rest Hj Hdone.
  rewrite outcome_bind, (outcome_index roots j (nth j roots fr.Zero))
    by (apply nth_error_nth'; lia).
  run. subst j. rewrite outcome_store by (rewrite length_app; simpl; lia).
  now rewrite set_nth_app.
Qed.

Lemma sum_loop poly roots point (n : nat) :
  (n <= length poly)%nat -> (n <= length roots)%nat ->
  outcome (for_loop n 0
    (fun i result =>
       p <- index poly i ;;
       root <- index roots i ;;
       num <- call (fr.Mul p root) ;;
       inv_i <- index
         (map fr.Inverse (map (fun j => fr.Sub point (nth j roots fr.Zero)) (seq 0 n))) i ;;
       div <- call (fr.Mul num inv_i) ;;
       call (fr.Add result div))
    fr.Zero)
  = Return (barycentric_sum poly roots point n).
Proof.
  intros Hp Hr.
  match goal with |- outcome (for_loop _ _ ?b _) = _ => set (body := b) end.
  destruct (for_loop_rule
    (fun j s => s = barycentric_sum poly roots point j) body n 0 fr.Zero)
    as (s & Hs & ->); [reflexivity | | exact Hs].
  intros j s Hj ->. eexists. split.
  - unfold body. rewrite Z.add_0_l.
    rewrite outcome_bind, (outcome_index poly j (nth j poly fr.Zero))
      by (apply nth_error_nth'; lia).
    rewrite outcome_bind, (outcome_index roots j (nth j roots fr.Zero))
      by (apply nth_error_nth'; lia).
    run.
    rewrite (outcome_index _ j (fr.Inverse (fr.Sub point (nth j roots fr.Zero)))).
    + run. reflexivity.
    + rewrite map_map, nth_error_map, nth_error_seq.
      destruct (Nat.ltb_spec j n); [reflexivity | lia].
  - unfold barycentric_sum. now rewrite seq_S, fold_left_app.
Qed.
Lemma findRootIndex_cases d point : 0 <= Cardinality d <= MaxInt ->
  match outcome (findRootIndex d point) with
  | Return r =>
      (r = -1 /\
       forall j, (j < Z.to_nat (Cardinality d))%nat ->
         exists root, nth_error (Roots d) j = Some root /\ root <> point)
      \/ (exists i, r = Z.of_nat i /\ (i < Z.to_nat (Cardinality d))%nat
          /\ nth_error (Roots d) i = Some point
          /\ forall j, (j < i)%nat ->
               exists root, nth_error (Roots d) j = Some root /\ root <> point)
  | Panic p => p = IndexOutOfRange /\ len (Roots d) < Cardinality d
  end.
Proof.
  intros Hc. unfold findRootIndex. rewrite int_of_uint64_small by exact Hc.
  pose proof (findRootIndex_from_cases d point (Z.to_nat (Cardinality d)) O) as H.
  cbn [Z.of_nat] in H.
  destruct (outcome (findRootIndex_from d point (Z.to_nat (Cardinality d)) 0)) as [r|p].
  - destruct H as [[Hr Hall]|(i & Hr & Hi & Hfound & Hbefore)].
    + left. split; [exact Hr|]. intros j Hj. apply Hall. lia.
    + right. exists i. split; [exact Hr|]. split; [lia|]. split; [exact Hfound|].
      intros j Hj. apply Hbefore. lia.
  - destruct H as [Hp Hlen]. split; [exact Hp|]. unfold len. lia.
Qed.

(** Past the two guards, the code computes the barycentric formula. *)
Lemma barycentric_run (d : Domain) (poly : Polynomial) (point : fr.Element) :
  len poly = Cardinality d -> len poly <= MaxInt ->
  Cardinality d <= len (Roots d) ->
  outcome (
      let denom := make fr.Zero (Cardinality d) in
      denom <- for_loop (length denom) 0
        (fun i denom =>
           root <- index (Roots d) i ;;
           diff <- call (fr.Sub point root) ;;
           store denom i diff)
        denom ;;
      invDenom <- call (fr.BatchInvert denom) ;;
      result <- for_loop (Z.to_nat (int_of_uint64 (Cardinality d))) 0
        (fun i result =>
           p <- index poly i ;;
           root <- index (Roots d) i ;;
           num <- call (fr.Mul p root) ;;
           inv_i <- index invDenom i ;;
           div <- call (fr.Mul num inv_i) ;;
           call (fr.Add result div))
        fr.Zero ;;
      tmp <- call (fr.Exp point (int_of_uint64 (Cardinality d))) ;;
      one <- call fr.One ;;
      tmp <- call (fr.Sub tmp one) ;;
      tmp <- call (fr.Mul tmp (CardinalityInv d)) ;;
      result <- call (fr.Mul tmp result) ;;
      ret (Some result, -1, @None error))
  = Return (Some (barycentric_formula d poly point), -1, None).
Proof.
  intros Hlen Hmax Hroots. pose proof (len_nonneg poly) as Hnn.
  cbv zeta. unfold make. rewrite repeat_length.
  rewrite int_of_uint64_small by lia.
  unfold len in *.
  rewrite outcome_bind, denominators_loop by lia. run.
  rewrite BatchInvert_correct.
  rewrite sum_loop by lia. run. reflexivity.
Qed.

Lemma evaluateLagrangePolynomial_barycentric (d : Domain) (poly : Polynomial)
  (point : fr.Element) :
  len poly = Cardinality d -> len poly <= MaxInt ->
  Cardinality d <= len (Roots d) ->
  (forall i root, 0 <= i < Cardinality d ->
     nth_error (Roots d) (Z.to_nat i) = Some root -> root <> point) ->
  outcome (evaluateLagrangePolynomial d poly point)
  = Return (Some (barycentric_formula d poly point), -1, None).
Proof.
  intros Hlen Hmax Hroots Hout. pose proof (len_nonneg poly) as Hnn.
  unfold evaluateLagrangePolynomial.
  rewrite uint64_of_int_small, Hlen, Z.eqb_refl by lia. cbn [negb].
  rewrite outcome_bind.
  pose proof (findRootIndex_cases d point ltac:(lia)) as Hfind.
  destruct (outcome (findRootIndex d point)) as [r|p].
  - destruct Hfind as [[-> _]|(i & -> & Hi & Hfound & _)].
    + cbn [Z.eqb negb]. apply barycentric_run; assumption.
    + exfalso. apply (Hout (Z.of_nat i) point); [lia | now rewrite Nat2Z.id | reflexivity].
  - exfalso. lia.
Qed.

(** C1. Off the domain, [evaluateLagrangePolynomial] returns the value of
    the barycentric formula
    [((point^cardinality - 1) * cardinalityInverse) * sum_i
     polynomial[i] * roots[i] * (point - roots[i])^-1], index -1 and no
    error: for every domain whose [Roots] hold [Cardinality] entries and
    every polynomial of that length, when the point is none of these
    roots. *)
Theorem evaluateLagrangePolynomial_off_domain (d : Domain) (poly : Polynomial)
  (point : fr.Element) :
  len poly = Cardinality d -> len poly <= MaxInt ->
  Cardinality d <= len (Roots d) ->
  (forall i root, 0 <= i < Cardinality d ->
     nth_error (Roots d) (Z.to_nat i) = Some root -> root <> point) ->
  outcome (evaluateLagrangePolynomial d poly point)
  = Return (Some (barycentric_formula d poly point), -1, None)
  /\ outcome (EvaluateLagrangePolynomial d poly point)
     = Return (Some (barycentric_formula d poly point), None).
Proof.
  intros Hlen Hmax Hroots Hout.
  pose proof (evaluateLagrangePolynomial_barycentric d poly point Hlen Hmax Hroots Hout)
    as He.
  split; [exact He|].
  unfold EvaluateLagrangePolynomial. now rewrite outcome_bind, He.
Qed.

Lemma index_ret {A} (s : list A) (i : nat) (x : A) :
  nth_error s i = Some x -> index s (Z.of_nat i) = ret x.
Proof.
  intros H. unfold index. destruct (Z.ltb_spec (Z.of_nat i) 0); [lia|].
  now rewrite Nat2Z.id, H.
Qed.

(** A scan that finds the point at index [i] has made one comparison for
    each index it looked at, and no other call. *)
Lemma findRootIndex_from_found d point (i : nat) : forall n i0,
  (i0 <= i < i0 + n)%nat ->
  nth_error (Roots d) i = Some point ->
  (forall j root, (j < i)%nat -> nth_error (Roots d) j = Some root -> root <> point) ->
  findRootIndex_from d point n (Z.of_nat i0) = Run (Return (Z.of_nat i)) (S i - i0).
Proof.
  induction n as [|n IH]; intros i0 Hi Hfound Hfirst; [lia|].
  cbn [findRootIndex_from].
  destruct (Nat.eq_dec i0 i) as [->|Hne].
  - rewrite (index_ret _ _ _ Hfound). unfold bind; cbn [outcome fr_calls ret call].
    destruct (fr_Equal_spec point point); [|congruence].
    cbn [outcome fr_calls ret]. f_equal. lia.
  - destruct (nth_error (Roots d) i0) as [root|] eqn:Hroot.
    + rewrite (index_ret _ _ _ Hroot). unfold bind; cbn [outcome fr_calls ret call].
      destruct (fr_Equal_spec point root) as [<-|_].
      * exfalso. apply (Hfirst i0 point); [lia | exact Hroot | reflexivity].
      * replace (Z.of_nat i0 + 1) with (Z.of_nat (S i0)) by lia.
        rewrite IH by (assumption || lia). cbn [outcome fr_calls]. f_equal. lia.
    + exfalso. apply nth_error_None in Hroot.
      assert (i < length (Roots d))%nat by (apply nth_error_Some; congruence). lia.
Qed.

(** C3. On the domain, the stored evaluation is returned as it is: when
    [i] is the first index whose root is the point, the result is
    [poly[i]] itself, with index [i] and no error; the only calls into the
    field package on the way are the [i + 1] comparisons of the scan. *)
Theorem evaluateLagrangePolynomial_on_domain (d : Domain) (poly : Polynomial)
  (i : nat) (point : fr.Element) :
  len poly = Cardinality d -> len poly <= MaxInt ->
  (i < length poly)%nat ->
  nth_error (Roots d) i = Some point ->
  (forall j root, (j < i)%nat -> nth_error (Roots d) j = Some root -> root <> point) ->
  exists value, nth_error poly i = Some value
    /\ evaluateLagrangePolynomial d poly point
       = Run (Return (Some value, Z.of_nat i, None)) (S i)
    /\ EvaluateLagrangePolynomial d poly point
       = Run (Return (Some value, None)) (S i).
Proof.
  intros Hlen Hmax Hi Hfound Hfirst. pose proof (len_nonneg poly) as Hnn.
  destruct (nth_error poly i) as [value|] eqn:Hvalue;
    [|apply nth_error_None in Hvalue; lia].
  exists value. split; [reflexivity|].
  assert (He : evaluateLagrangePolynomial d poly point
               = Run (Return (Some value, Z.of_nat i, None)) (S i)).
  { unfold evaluateLagrangePolynomial.
    rewrite uint64_of_int_small, Hlen, Z.eqb_refl by lia. cbn [negb].
    unfold findRootIndex. rewrite int_of_uint64_small by lia.
    rewrite (findRootIndex_from_found d point i _ O)
      by (assumption || (unfold len in *; lia)).
    unfold bind at 1. cbn [outcome fr_calls].
    destruct (Z.eqb_spec (Z.of_nat i) (-1)) as [|_]; [lia|]. cbn [negb].
    rewrite (index_ret _ _ _ Hvalue). unfold bind; cbn [outcome fr_calls ret].
    f_equal. lia. }
  split; [exact He|].
  unfold EvaluateLagrangePolynomial. rewrite He.
  unfold bind; cbn [outcome fr_calls ret]. f_equal. lia.
Qed.

(** The outcomes of [evaluateLagrangePolynomial], guard by guard. *)
Lemma evaluateLagrangePolynomial_cases (d : Domain) (poly : Polynomial)
  (point : fr.Element) : len poly <= MaxInt ->
  if Cardinality d =? len poly then
    (exists value i, outcome (evaluateLagrangePolynomial d poly point)
                     = Return (Some value, i, None))
    \/ (outcome (evaluateLagrangePolynomial d poly point) = Panic IndexOutOfRange
        /\ len (Roots d) < Cardinality d)
  else
    evaluateLagrangePolynomial d poly point
    = Run (Return (None, -1, Some domain_size_error)) 0.
Proof.
  intros Hmax. pose proof (len_nonneg poly) as Hnn.
  unfold evaluateLagrangePolynomial. rewrite uint64_of_int_small by lia.
  destruct (Z.eqb_spec (Cardinality d) (len poly)) as [Hlen|Hlen]; cbn [negb];
    [|reflexivity].
  rewrite outcome_bind.
  pose proof (findRootIndex_cases d point ltac:(lia)) as Hfind.
  destruct (outcome (findRootIndex d point)) as [r|p].
  - left. destruct Hfind as [[-> Hall]|(i & -> & Hi & Hfound & _)].
    + cbn [Z.eqb negb]. eexists _, _. apply barycentric_run; try lia.
      destruct (Z.le_gt_cases (Cardinality d) (len (Roots d))) as [|Hshort]; [assumption|].
      destruct (Hall (length (Roots d))) as (root & Hroot & _); [unfold len in *; lia|].
      assert (length (Roots d) < length (Roots d))%nat
        by (apply nth_error_Some; congruence). lia.
    + destruct (Z.eqb_spec (Z.of_nat i) (-1)) as [|_]; [lia|]. cbn [negb].
      destruct (nth_error poly i) as [value|] eqn:Hvalue;
        [|apply nth_error_None in Hvalue; unfold len in *; lia].
      rewrite (index_ret _ _ _ Hvalue). cbn. eauto.
  - right. destruct Hfind as [-> Hshort]. split; [reflexivity | exact Hshort].
Qed.

(** C9. The domain-size error comes back exactly when the length of the
    polynomial differs from the cardinality; it comes with no value, and
    before any call into the field package.  With equal lengths no error is
    returned: the call returns a value, or a domain whose [Roots] are
    shorter than its cardinality makes it panic. *)
Theorem evaluateLagrangePolynomial_size_error (d : Domain) (poly : Polynomial)
  (point : fr.Element) : len poly <= MaxInt ->
  (len poly <> Cardinality d ->
     evaluateLagrangePolynomial d poly point
       = Run (Return (None, -1, Some domain_size_error)) 0
     /\ EvaluateLagrangePolynomial d poly point
        = Run (Return (None, Some domain_size_error)) 0)
  /\ (len poly = Cardinality d ->
        (exists value i, outcome (evaluateLagrangePolynomial d poly point)
                         = Return (Some value, i, None)
           /\ outcome (EvaluateLagrangePolynomial d poly point)
              = Return (Some value, None))
        \/ (outcome (evaluateLagrangePolynomial d poly point) = Panic IndexOutOfRange
            /\ outcome (EvaluateLagrangePolynomial d poly point) = Panic IndexOutOfRange)).
Proof.
  intros Hmax. pose proof (evaluateLagrangePolynomial_cases d poly point Hmax) as H.
  split; intros Hlen.
  - destruct (Z.eqb_spec (Cardinality d) (len poly)) as [|_]; [congruence|].
    split; [exact H|]. unfold EvaluateLagrangePolynomial. now rewrite H.
  - rewrite <- Hlen, Z.eqb_refl in H. unfold EvaluateLagrangePolynomial.
    destruct H as [(value & i & H)|[H _]]; [left; exists value, i | right];
      (split; [exact H|]); now rewrite outcome_bind, H.
Qed.

(** C10. [EvaluateLagrangePolynomial] returns either a value and no error,
    or an error and no value; it returns neither only by not returning at
    all, when [Roots] are shorter than the cardinality and the scan
    panics. *)
Theorem EvaluateLagrangePolynomial_value_xor_error (d : Domain) (poly : Polynomial)
  (point : fr.Element) : len poly <= MaxInt ->
  (exists value, outcome (EvaluateLagrangePolynomial d poly point)
                 = Return (Some value, None))
  \/ (exists err, outcome (EvaluateLagrangePolynomial d poly point)
                  = Return (None, Some err))
  \/ (outcome (EvaluateLagrangePolynomial d poly point) = Panic IndexOutOfRange
      /\ len (Roots d) < Cardinality d).
Proof.
  intros Hmax. pose proof (evaluateLagrangePolynomial_cases d poly point Hmax) as H.
  unfold EvaluateLagrangePolynomial. rewrite outcome_bind.
  destruct (Cardinality d =? len poly).
  - destruct H as [(value & i & ->)|[-> Hshort]];
      [left; exists value; reflexivity | right; right; auto].
  - rewrite H. right; left. exists domain_size_error. reflexivity.
Qed.
(** ** The smoke test of the evaluation: [f(x) = x^2 + x] *)

Definition f_x (x : fr.Element) : fr.Element := fr.Add (fr.Square x) x.

Lemma NewDomain_3 : outcome (NewDomain 3) = Return (domain_of_log 2).
Proof. vm_compute. reflexivity. Qed.

Lemma generator_of_log_2_square :
  Zmod.mul (generator_of_log 2) (generator_of_log 2) = Zmod.opp Zmod.one.
Proof. apply Zmod.unsigned_inj. vm_compute. reflexivity. Qed.

Lemma fr_four : fr.SetUint64 4
  = Zmod.add (Zmod.add (Zmod.add Zmod.one Zmod.one) Zmod.one) Zmod.one.
Proof. apply Zmod.unsigned_inj. vm_compute. reflexivity. Qed.

Lemma fr_four_nonzero : fr.SetUint64 4 <> fr.Zero.
Proof. intros H%(f_equal Zmod.to_Z). vm_compute in H. discriminate. Qed.

Lemma powers_4 (g : fr.Element) :
  powers g 4 = [fr.One; g; Zmod.mul g g; Zmod.mul g (Zmod.mul g g)].
Proof.
  unfold powers. cbn [seq map].
  change (Z.of_nat 0) with 0. change (Z.of_nat 1) with 1.
  change (Z.of_nat 2) with 2. change (Z.of_nat 3) with (Z.succ 2).
  now rewrite Zmod.pow_succ_nonneg_r, Zmod.pow_0_r, Zmod.pow_1_r, Zmod.pow_2_r by lia.
Qed.

Lemma fr_pow_4 (z : fr.Element) :
  Zmod.pow z 4 = Zmod.mul (Zmod.mul z z) (Zmod.mul z z).
Proof.
  change 4 with (2 * 2). rewrite fr_pow_mul_r by lia. now rewrite !Zmod.pow_2_r.
Qed.

Lemma fr_Sub_Inverse (z r : fr.Element) : r <> z ->
  Zmod.mul (Zmod.sub z r) (Zmod.inv (Zmod.sub z r)) = Zmod.one.
Proof.
  intros H. apply fr_Mul_Inverse. intros E. apply Zmod.sub_eq_0 in E.
  apply H. now symmetry.
Qed.

(** Lagrange interpolation on the fourth roots of unity, for [x^2 + x]:
    with [g^2 = -1], and [a], [b], [c], [e], [q] the inverses of the four
    denominators and of 4. *)
Lemma quadratic_identity (g z a b c e q : Zmod fr.Modulus) :
  (g * g = - (1) ->
   (z - 1) * a = 1 -> (z - g) * b = 1 -> (z - g * g) * c = 1 ->
   (z - g * (g * g)) * e = 1 ->
   (1 + 1 + 1 + 1) * q = 1 ->
   ((z * z * (z * z) - 1) * q) *
   (0 + (1 * 1 + 1) * 1 * a + (g * g + g) * g * b
      + (g * g * (g * g) + g * g) * (g * g) * c
      + (g * (g * g) * (g * (g * g)) + g * (g * g)) * (g * (g * g)) * e)
   = z * z + z)%Zmod.
Proof.
  intros Hg Ha Hb Hc He Hq.
  assert (Hv : (z * z * (z * z) - 1
                = (z - 1) * (z - g) * (z - g * g) * (z - g * (g * g)))%Zmod)
    by ring [Hg].
  rewrite Hv.
  transitivity (q *
    ((1 * 1 + 1) * 1 * ((z - 1) * a) * ((z - g) * (z - g * g) * (z - g * (g * g)))
     + (g * g + g) * g * ((z - g) * b) * ((z - 1) * (z - g * g) * (z - g * (g * g)))
     + (g * g * (g * g) + g * g) * (g * g) * ((z - g * g) * c)
         * ((z - 1) * (z - g) * (z - g * (g * g)))
     + (g * (g * g) * (g * (g * g)) + g * (g * g)) * (g * (g * g))
         * ((z - g * (g * g)) * e) * ((z - 1) * (z - g) * (z - g * g))))%Zmod;
    [ring|].
  rewrite Ha, Hb, Hc, He.
  transitivity ((1 + 1 + 1 + 1) * q * (z * z + z))%Zmod;
    [ring [Hg] | rewrite Hq; ring].
Qed.

(** C8. The polynomial [x^2 + x], sampled on the domain built for size 3
    (its four roots), evaluates off the domain to [z^2 + z]: the barycentric
    evaluation agrees with the direct one. *)
Theorem evaluateLagrangePolynomial_quadratic (d : Domain) (z : fr.Element) :
  outcome (NewDomain 3) = Return d ->
  ~ In z (Roots d) ->
  outcome (evaluateLagrangePolynomial d (map f_x (Roots d)) z)
  = Return (Some (f_x z), -1, None).
Proof.
  intros Hd Hz. rewrite NewDomain_3 in Hd. injection Hd as <-.
  assert (Hroots : Roots (domain_of_log 2) = powers (generator_of_log 2) 4)
    by reflexivity.
  pose proof generator_of_log_2_square as Hg.
  rewrite Hroots, powers_4 in Hz.
  rewrite evaluateLagrangePolynomial_barycentric.
  - replace (barycentric_formula (domain_of_log 2) (map f_x (Roots (domain_of_log 2))) z)
      with (f_x z); [reflexivity|].
    symmetry. unfold barycentric_formula, barycentric_sum.
    rewrite Hroots, powers_4.
    change (Cardinality (domain_of_log 2)) with 4.
    change (CardinalityInv (domain_of_log 2)) with (fr.Inverse (fr.SetUint64 4)).
    change (Z.to_nat 4) with 4%nat.
    set (g := generator_of_log 2) in *. clearbody g.
    unfold lagrange_term. cbn [seq fold_left map nth].
    rewrite fr_Exp_pos, fr_pow_4 by lia.
    unfold f_x. fr_unfold.
    cbn [In] in Hz.
    apply (quadratic_identity g z _ _ _ _ _ Hg).
    + apply fr_Sub_Inverse. intros E. apply Hz. left. exact E.
    + apply fr_Sub_Inverse. intros E. apply Hz. right; left. exact E.
    + apply fr_Sub_Inverse. intros E. apply Hz. right; right; left. exact E.
    + apply fr_Sub_Inverse. intros E. apply Hz. right; right; right; left. exact E.
    + rewrite <- fr_four. apply fr_Mul_Inverse, fr_four_nonzero.
  - unfold len. now rewrite length_map, Hroots, length_powers.
  - unfold len, MaxInt. rewrite length_map, Hroots, length_powers. lia.
  - unfold len. rewrite Hroots, length_powers.
    change (Cardinality (domain_of_log 2)) with 4. lia.
  - intros i root Hi Hroot Heq. apply Hz. rewrite <- Heq.
    rewrite <- powers_4, <- Hroots. eapply nth_error_In, Hroot.
Qed.
(** ** Laws of the pairing in the exponent *)

Lemma fr_of_Z_Modulus : Zmod.of_Z fr.Modulus fr.Modulus = Zmod.zero.
Proof. apply Zmod.unsigned_inj. vm_compute. reflexivity. Qed.

#[export] Instance ExponentCurveLaws : CurveLaws ExponentCurve.
Proof.
  split; cbn [G1Affine G2Affine GT LineEvaluations g1_zero g1_add g1_neg g1_mul
              gt_one gt_mul gt_inv gt_eqb pair PrecomputeLines pair_lines ExponentCurve];
    intros; fr_unfold; try ring.
  - change (Zmod.of_Z fr.Modulus 0) with (@Zmod.zero fr.Modulus). ring.
  - rewrite Zmod.of_Z_add. ring.
  - rewrite fr_of_Z_Modulus. ring.
  - apply Zmod.eqb_eq.
Qed.

(** ** Consequences of the laws *)

Section Laws.
Context {C : Curve} {L : CurveLaws C}.

#[local] Instance g1_add_Associative : Associative eq g1_add.
Proof. exact g1_add_assoc. Qed.
#[local] Instance g1_add_Commutative : Commutative eq g1_add.
Proof. exact g1_add_comm. Qed.
#[local] Instance g1_add_Unit : Unit eq g1_add g1_zero.
Proof. split; intros p; [|rewrite g1_add_comm]; apply g1_add_zero. Qed.
#[local] Instance gt_mul_Associative : Associative eq gt_mul.
Proof. exact gt_mul_assoc. Qed.
#[local] Instance gt_mul_Commutative : Commutative eq gt_mul.
Proof. exact gt_mul_comm. Qed.
#[local] Instance gt_mul_Unit : Unit eq gt_mul gt_one.
Proof. split; intros p; [|rewrite gt_mul_comm]; apply gt_mul_one. Qed.

Lemma gt_inv_unique (x y : GT) : gt_mul x y = gt_one -> y = gt_inv x.
Proof.
  intros H.
  transitivity (gt_mul (gt_inv x) (gt_mul x y)).
  - symmetry. aac_rewrite gt_mul_inv. aac_reflexivity.
  - rewrite H. aac_reflexivity.
Qed.

Lemma gt_inv_one : gt_inv gt_one = gt_one.
Proof. symmetry. apply gt_inv_unique. aac_reflexivity. Qed.

Lemma gt_inv_involutive (x : GT) : gt_inv (gt_inv x) = x.
Proof. symmetry. apply gt_inv_unique. rewrite gt_mul_comm. apply gt_mul_inv. Qed.

Lemma gt_inv_mul (x y : GT) : gt_inv (gt_mul x y) = gt_mul (gt_inv x) (gt_inv y).
Proof.
  symmetry. apply gt_inv_unique.
  aac_rewrite gt_mul_inv. aac_rewrite gt_mul_inv. aac_reflexivity.
Qed.

Lemma gt_inv_is_one (x : GT) : gt_inv x = gt_one <-> x = gt_one.
Proof.
  split; intros H.
  - rewrite <- (gt_inv_involutive x), H. apply gt_inv_one.
  - rewrite H. apply gt_inv_one.
Qed.

Lemma pair_zero (q : G2Affine) : pair g1_zero q = gt_one.
Proof.
  pose proof (pair_add g1_zero g1_zero q) as H. rewrite g1_add_zero in H.
  set (u := pair g1_zero q) in *.
  assert (E : gt_mul (gt_mul u u) (gt_inv u) = u)
    by (aac_rewrite gt_mul_inv; aac_reflexivity).
  rewrite <- H, gt_mul_inv in E. now symmetry.
Qed.

(** Opposite points have inverse pairings. *)
Lemma pair_opposite (p p' : G1Affine) (q : G2Affine) :
  g1_add p p' = g1_zero -> pair p q = gt_inv (pair p' q).
Proof.
  intros H. apply gt_inv_unique.
  now rewrite gt_mul_comm, <- pair_add, H, pair_zero.
Qed.

Lemma g1_mul_Neg (z : fr.Element) (p : G1Affine) :
  g1_add (g1_mul (fr.BigInt (fr.Neg z)) p) (g1_mul (fr.BigInt z) p) = g1_zero.
Proof.
  rewrite <- g1_mul_add. unfold fr.BigInt, fr.Neg. rewrite Zmod.unsigned_opp.
  pose proof (Zmod.unsigned_pos_bound z ltac:(unfold fr.Modulus; lia)) as Hz.
  destruct (Z.eq_dec (Zmod.to_Z z) 0) as [E|NE].
  - rewrite E. change (- 0) with 0. rewrite Z.mod_0_l by (unfold fr.Modulus; lia).
    apply g1_mul_zero.
  - replace ((- Zmod.to_Z z) mod fr.Modulus + Zmod.to_Z z) with fr.Modulus.
    + apply g1_mul_order.
    + rewrite Z.mod_opp_l_nz; rewrite ?Z.mod_small; lia.
Qed.

(** The product that the pairing identity of KZG is about:
    [e(C - [y]G1 + [z]Q, G2) * e(-Q, [alpha]G2)]. *)
Definition pairing_product (commitment : Commitment) (proof : OpeningProof)
  (openKey : OpeningKey) : GT :=
  gt_mul
    (pair (g1_add (g1_sub commitment
                     (g1_mul (fr.BigInt (ClaimedValue proof)) (GenG1 openKey)))
                  (g1_mul (fr.BigInt (InputPoint proof)) (QuotientCommitment proof)))
          (GenG2 openKey))
    (pair (g1_neg (QuotientCommitment proof)) (AlphaG2 openKey)).

(** The lines of an opening key are those of its two points of [G2].  A key
    is built in this state; a call of [Verify] scales the lines and need not
    leave it there ([Verify_second_call] below). *)
Definition well_formed_key (openKey : OpeningKey) : Prop :=
  PairingLines openKey
  = [PrecomputeLines (GenG2 openKey); PrecomputeLines (AlphaG2 openKey)].

Lemma bool_eq_iff (a b : bool) : (a = true <-> b = true) -> a = b.
Proof. destruct a, b; intuition congruence. Qed.

(** [Verify] computes the inverse of the product, and compares it to one. *)
Lemma Verify_outcome (commitment : Commitment) (proof : OpeningProof)
  (openKey : OpeningKey) : well_formed_key openKey ->
  outcome (Verify commitment proof openKey)
  = Return (verdict (gt_eqb (pairing_product commitment proof openKey) gt_one)).
Proof.
  intros Hkey. unfold Verify, PairingCheckFixedQ. rewrite Hkey. run.
  cbn [len length Z.of_nat Z.eqb Pos.eqb negb orb Pos.of_succ_nat Pos.succ
       combine fold_left outcome ret].
  rewrite !pair_lines_precomputed, gt_mul_one.
  set (total := g1_sub _ _).
  replace (gt_eqb (gt_mul (pair total (GenG2 openKey))
                          (pair (QuotientCommitment proof) (AlphaG2 openKey))) gt_one)
    with (gt_eqb (pairing_product commitment proof openKey) gt_one).
  { unfold verdict. now destruct (gt_eqb _ _). }
  apply bool_eq_iff. rewrite !gt_eqb_eq, <- gt_inv_is_one.
  unfold pairing_product. rewrite gt_inv_mul.
  rewrite <- (pair_opposite total), <- (pair_opposite (QuotientCommitment proof));
    [reflexivity | apply g1_add_neg |].
  unfold total, g1_sub, JointScalarMultiplication.
  pose proof (g1_mul_Neg (InputPoint proof) (QuotientCommitment proof)) as Hz.
  aac_rewrite Hz. aac_rewrite g1_add_neg. aac_rewrite g1_add_neg. aac_reflexivity.
Qed.


End Laws.

Section BatchVerification.
Context {C : Curve}.

Lemma M_eta {A} (m : M A) : Run (outcome m) (fr_calls m) = m.
Proof. now destruct m. Qed.

(** C5. An empty batch is accepted, and a batch of one is verified by
    [Verify] itself: the call returns what [Verify] returns on the pair. *)
Theorem BatchVerifyMultiPoints_small (openKey : OpeningKey)
  (SetRandom : fr.Element * option error) :
  BatchVerifyMultiPoints [] [] openKey SetRandom = ret None
  /\ forall commitment proof,
       BatchVerifyMultiPoints [commitment] [proof] openKey SetRandom
       = Verify commitment proof openKey.
Proof.
  split; [reflexivity|]. intros commitment proof.
  unfold BatchVerifyMultiPoints. cbn [len length Z.of_nat Z.eqb Pos.eqb negb Pos.of_succ_nat].
  unfold index. cbn [Z.ltb Z.compare Z.to_nat nth_error].
  unfold bind. cbn [outcome fr_calls ret]. apply M_eta.
Qed.

End BatchVerification.
(** ** Batch verification: the folding *)

Lemma skipn_nth {A} (d : A) (l : list A) : forall j, (j < length l)%nat ->
  skipn j l = nth j l d :: skipn (S j) l.
Proof.
  induction l as [|x l IH]; intros [|j] Hj; simpl in *; try lia; [reflexivity|].
  apply IH. lia.
Qed.

(** A loop that rewrites a slice in place, entry [j] becoming [h j] of
    what it was. *)
Lemma update_loop {A} (h : nat -> A -> A) (body : Z -> list A -> M (list A))
  (s0 : list A) (d : A) :
  (forall (j : nat) (done : list A) (x : A) (rest : list A),
     (j < length s0)%nat -> length done = j ->
     outcome (body (Z.of_nat j) (done ++ x :: rest))
     = Return (done ++ h j x :: rest)) ->
  outcome (for_loop (length s0) 0 body s0)
  = Return (map (fun j => h j (nth j s0 d)) (seq 0 (length s0))).
Proof.
  intros Hbody.
  destruct (for_loop_rule
    (fun j s => s = map (fun i => h i (nth i s0 d)) (seq 0 j) ++ skipn j s0)
    body (length s0) 0 s0) as (s & Hs & ->).
  - reflexivity.
  - intros j s Hj ->. eexists. split.
    + rewrite (skipn_nth d) by exact Hj. rewrite Z.add_0_l.
      apply Hbody; [exact Hj|]. now rewrite length_map, length_seq.
    + now rewrite seq_S, map_app, <- app_assoc.
  - now rewrite Hs, skipn_all, app_nil_r.
Qed.

Lemma combine_nth_seq {A B} (d1 : A) (d2 : B) (l1 : list A) : forall (l2 : list B),
  length l1 = length l2 ->
  map (fun i => (nth i l1 d1, nth i l2 d2)) (seq 0 (length l1)) = combine l1 l2.
Proof.
  induction l1 as [|x l1 IH]; intros [|y l2] Hlen; simpl in *; try lia; [reflexivity|].
  f_equal. rewrite <- seq_shift, map_map. apply IH. lia.
Qed.

Lemma fold_left_map {A B S} (f : S -> B -> S) (g : A -> B) (l : list A) : forall s,
  fold_left f (map g l) s = fold_left (fun acc x => f acc (g x)) l s.
Proof. induction l as [|x l IH]; intros s; simpl; [reflexivity | apply IH]. Qed.

Lemma length_ComputePowers x n : length (ComputePowers x n) = Z.to_nat n.
Proof. unfold ComputePowers. now rewrite length_map, length_seq. Qed.

Section Folding.
Context {C : Curve}.

Lemma MultiExp_ok (points : list G1Affine) (scalars : list fr.Element) :
  length points = length scalars ->
  MultiExp points scalars = (multi_exp_sum points scalars, None).
Proof. intros H. unfold MultiExp, len. now rewrite H, Z.eqb_refl. Qed.

(** The folded claimed value: the sum of the values, each multiplied by
    its weight. *)
Definition dot_product (values weights : list fr.Element) : fr.Element :=
  fold_left (fun acc '(y, w) => fr.Add acc (fr.Mul y w)) (combine values weights)
            fr.Zero.

Lemma fold_outcome (commitments : list Commitment) (evaluations factors : list fr.Element) :
  length evaluations = length commitments ->
  length factors = length commitments ->
  outcome (fold commitments evaluations factors)
  = Return (multi_exp_sum commitments factors, dot_product evaluations factors, None).
Proof.
  intros He Hf. unfold fold. rewrite outcome_bind.
  match goal with |- context [for_loop _ _ ?b _] => set (body := b) end.
  destruct (for_loop_rule
    (fun j s => s = fold_left
       (fun acc i => fr.Add acc (fr.Mul (nth i evaluations fr.Zero) (nth i factors fr.Zero)))
       (seq 0 j) fr.Zero)
    body (Z.to_nat (len commitments)) 0 fr.Zero) as (s & Hs & ->).
  - reflexivity.
  - intros j s Hj ->. unfold len in Hj. rewrite Nat2Z.id in Hj. eexists. split.
    + unfold body. rewrite Z.add_0_l.
      rewrite outcome_bind, (outcome_index evaluations j (nth j evaluations fr.Zero))
        by (apply nth_error_nth'; lia).
      rewrite outcome_bind, (outcome_index factors j (nth j factors fr.Zero))
        by (apply nth_error_nth'; lia).
      run. reflexivity.
    + now rewrite seq_S, fold_left_app.
  - rewrite Hs. rewrite MultiExp_ok by (symmetry; exact Hf). cbn [outcome ret].
    do 3 f_equal. unfold dot_product, len. rewrite Nat2Z.id, <- He.
    rewrite <- (combine_nth_seq fr.Zero fr.Zero) by (now rewrite He, Hf).
    now rewrite fold_left_map.
Qed.

(** The two points of the one pairing check of a batch, folded with the
    weights [r^0, ..., r^(n-1)]. *)
Definition folded_points (commitments : list Commitment) (proofs : list OpeningProof)
  (openKey : OpeningKey) (r : fr.Element) : G1Affine * G1Affine :=
  let weights := ComputePowers r (len commitments) in
  let quotients := map QuotientCommitment proofs in
  let foldedQuotients := multi_exp_sum quotients weights in
  let foldedEvaluations := dot_product (map ClaimedValue proofs) weights in
  let foldedCommitments := multi_exp_sum commitments weights in
  let foldedPointsQuotients :=
    multi_exp_sum quotients
      (map (fun '(w, proof) => fr.Mul w (InputPoint proof)) (combine weights proofs)) in
  (g1_add (g1_sub foldedCommitments (g1_mul (fr.BigInt foldedEvaluations) (GenG1 openKey)))
          foldedPointsQuotients,
   g1_neg foldedQuotients).

Definition folded_check (commitments : list Commitment) (proofs : list OpeningProof)
  (openKey : OpeningKey) (r : fr.Element) : bool * option error :=
  let '(lhs, rhs) := folded_points commitments proofs openKey r in
  PairingCheck [lhs; rhs] [GenG2 openKey; AlphaG2 openKey].

Definition no_proof : OpeningProof :=
  {| QuotientCommitment := g1_zero; InputPoint := fr.Zero; ClaimedValue := fr.Zero |}.

Lemma quotients_loop (proofs : list OpeningProof) :
  outcome (for_loop (length proofs) 0
    (fun i quotients =>
       proof <- index proofs i ;;
       store quotients i (QuotientCommitment proof))
    (repeat g1_zero (length proofs)))
  = Return (map QuotientCommitment proofs).
Proof.
  rewrite (fill_loop g1_zero (fun j => QuotientCommitment (nth j proofs no_proof))).
  - now rewrite map_nth_seq.
  - intros j done rest Hj Hdone.
    rewrite outcome_bind, (outcome_index proofs j (nth j proofs no_proof))
      by (apply nth_error_nth'; lia).
    subst j. rewrite outcome_store by (rewrite length_app; simpl; lia).
    now rewrite set_nth_app.
Qed.

Lemma evaluations_loop (proofs : list OpeningProof) :
  outcome (for_loop (length proofs) 0
    (fun i evaluations =>
       proof <- index proofs i ;;
       value <- call (ClaimedValue proof) ;;
       store evaluations i value)
    (repeat fr.Zero (length proofs)))
  = Return (map ClaimedValue proofs).
Proof.
  rewrite (fill_loop fr.Zero (fun j => ClaimedValue (nth j proofs no_proof))).
  - now rewrite map_nth_seq.
  - intros j done rest Hj Hdone.
    rewrite outcome_bind, (outcome_index proofs j (nth j proofs no_proof))
      by (apply nth_error_nth'; lia).
    run. subst j. rewrite outcome_store by (rewrite length_app; simpl; lia).
    now rewrite set_nth_app.
Qed.

Lemma weights_loop (weights : list fr.Element) (proofs : list OpeningProof) :
  length weights = length proofs ->
  outcome (for_loop (length weights) 0
    (fun i randomNumbers =>
       random <- index randomNumbers i ;;
       proof <- index proofs i ;;
       weighted <- call (fr.Mul random (InputPoint proof)) ;;
       store randomNumbers i weighted)
    weights)
  = Return (map (fun '(w, proof) => fr.Mul w (InputPoint proof)) (combine weights proofs)).
Proof.
  intros Hlen.
  rewrite (update_loop
    (fun j w => fr.Mul w (InputPoint (nth j proofs no_proof))) _ weights fr.Zero).
  - f_equal. rewrite <- (combine_nth_seq fr.Zero no_proof) by exact Hlen.
    now rewrite map_map.
  - intros j done x rest Hj Hdone.
    rewrite outcome_bind, (outcome_index _ j x)
      by (subst j; now rewrite nth_error_app2, Nat.sub_diag by lia).
    rewrite outcome_bind, (outcome_index proofs j (nth j proofs no_proof))
      by (apply nth_error_nth'; lia).
    run. subst j. rewrite outcome_store by (rewrite length_app; simpl; lia).
    now rewrite set_nth_app.
Qed.

(** C2, as the code has it.  In a batch of two or more the folding scalar
    is the one that [SetRandom] draws at the call: the caller does not
    supply it and it is not computed from the batch.  The draw decides the
    run.  When it fails its error is returned; otherwise the weights are
    the powers [r^0, ..., r^(n-1)] of the scalar drawn, and the call returns
    nil exactly when the one pairing check on the folded points passes, and
    [ErrVerifyOpeningProof] when it does not.  So two runs on the same
    commitments, proofs and key that draw the same scalar return the same
    result. *)
Theorem BatchVerifyMultiPoints_draw (commitments : list Commitment)
  (proofs : list OpeningProof) (openKey : OpeningKey) (r : fr.Element) :
  len commitments = len proofs -> 2 <= len commitments <= MaxInt ->
  outcome (BatchVerifyMultiPoints commitments proofs openKey (r, None))
  = Return (verdict (fst (folded_check commitments proofs openKey r)))
  /\ snd (folded_check commitments proofs openKey r) = None
  /\ forall e,
       outcome (BatchVerifyMultiPoints commitments proofs openKey (r, Some e))
       = Return (Some e).
Proof.
  intros Hlen Hsize. unfold BatchVerifyMultiPoints.
  rewrite Hlen, Z.eqb_refl. cbn [negb].
  destruct (Z.eqb_spec (len proofs) 0) as [|_]; [lia|].
  destruct (Z.eqb_spec (len proofs) 1) as [|_]; [lia|].
  assert (Hn : length commitments = length proofs) by (unfold len in Hlen; lia).
  split; [|split; [|intros e; run; reflexivity]].
  - run. rewrite uint64_of_int_small by lia.
    set (weights := ComputePowers r (len proofs)).
    assert (Hw : length weights = length proofs)
      by (unfold weights, len; now rewrite length_ComputePowers, Nat2Z.id).
    unfold make, len. rewrite !Nat2Z.id.
    rewrite quotients_loop.
    rewrite MultiExp_ok by (now rewrite length_map, Hw).
    run. rewrite Hw, evaluations_loop. run.
    rewrite fold_outcome by (now rewrite ?length_map, ?Hw).
    run.
    rewrite <- Hw at 1. rewrite weights_loop by exact Hw.
    rewrite MultiExp_ok
      by (now rewrite !length_map, length_combine, Hw, Nat.min_id).
    unfold folded_check, folded_points. rewrite Hlen. fold weights.
    unfold PairingCheck.
    cbn [len length Z.of_nat Z.eqb Pos.eqb negb orb Pos.of_succ_nat Pos.succ fst].
    unfold verdict. destruct (gt_eqb _ _); reflexivity.
  - unfold folded_check, folded_points, PairingCheck.
    cbn [len length Z.of_nat Z.eqb Pos.eqb negb orb Pos.of_succ_nat Pos.succ snd].
    reflexivity.
Qed.

End Folding.

(** A batch in the pairing in the exponent, with generators 1 and secret 5:
    two commitments, 1 and -1, to proofs that claim the value 0 at the point
    0 with quotient 0.  Neither proof is valid. *)
Definition example_key : OpeningKey (C := ExponentCurve) :=
  {| GenG1 := fr.One; GenG2 := fr.One; AlphaG2 := fr.SetUint64 5;
     PairingLines := [fr.One; fr.SetUint64 5] |}.

Definition example_proof : OpeningProof (C := ExponentCurve) :=
  {| QuotientCommitment := fr.Zero; InputPoint := fr.Zero; ClaimedValue := fr.Zero |}.

Definition example_commitments : list (Commitment (C := ExponentCurve)) :=
  [fr.One; fr.Neg fr.One].

Definition example_proofs : list (OpeningProof (C := ExponentCurve)) :=
  [example_proof; example_proof].

(** C2, as the claim states it, fails.  On the batch above a run that draws
    the scalar 1 accepts, and a run that draws 2 rejects: the same
    commitments, proofs and key, two results. *)
Lemma BatchVerifyMultiPoints_depends_on_draw :
  outcome (BatchVerifyMultiPoints example_commitments example_proofs example_key
             (fr.SetUint64 1, None))
  = Return None
  /\ outcome (BatchVerifyMultiPoints example_commitments example_proofs example_key
                (fr.SetUint64 2, None))
     = Return (Some ErrVerifyOpeningProof)
  /\ outcome (Verify fr.One example_proof example_key)
     = Return (Some ErrVerifyOpeningProof).
Proof. split; [|split]; vm_compute; reflexivity. Qed.


Definition opening_at_2 : OpeningProof (C := ExponentCurve) :=
  {| QuotientCommitment := fr.One; InputPoint := fr.SetUint64 2;
     ClaimedValue := fr.SetUint64 2 |}.


(** The state of [well_formed_key] does not outlive a call.  In the exponent
    model, [example_key] accepts the proof above for the commitment 5 and is
    left with the lines [[-5; 5]]: the points of the key are as before, the
    product of the claim is still one, and a second call with the same
    commitment and proof returns [ErrVerifyOpeningProof]. *)
Lemma Verify_second_call :
  well_formed_key example_key
  /\ outcome (Verify (fr.SetUint64 5) opening_at_2 example_key) = Return None
  /\ PairingLines (Verify_openKey (fr.SetUint64 5) opening_at_2 example_key)
     = [fr.Neg (fr.SetUint64 5); fr.SetUint64 5]
  /\ pairing_product (fr.SetUint64 5) opening_at_2
       (Verify_openKey (fr.SetUint64 5) opening_at_2 example_key)
     = gt_one
  /\ outcome (Verify (fr.SetUint64 5) opening_at_2
                (Verify_openKey (fr.SetUint64 5) opening_at_2 example_key))
     = Return (Some ErrVerifyOpeningProof).
Proof. split; [reflexivity|]. repeat split; vm_compute; reflexivity. Qed.
(** ** The theorems at work on concrete values *)

Definition example_poly : Polynomial :=
  [fr.SetUint64 2; fr.SetUint64 3; fr.SetUint64 4; fr.SetUint64 5].

Lemma example_point_off_domain (root : fr.Element) :
  In root (Roots (domain_of_log 2)) -> root <> fr.SetUint64 5.
Proof.
  assert (H : forallb (fun r => negb (fr.Equal r (fr.SetUint64 5)))
                      (Roots (domain_of_log 2)) = true)
    by (vm_compute; reflexivity).
  rewrite forallb_forall in H. intros Hin E. specialize (H root Hin).
  apply (reflect_iff _ _ (fr_Equal_spec _ _)) in E. rewrite E in H. discriminate H.
Qed.

Lemma evaluateLagrangePolynomial_off_domain_witness :
  outcome (evaluateLagrangePolynomial (domain_of_log 2) example_poly (fr.SetUint64 5))
  = Return (Some (barycentric_formula (domain_of_log 2) example_poly (fr.SetUint64 5)),
            -1, None)
  /\ outcome (EvaluateLagrangePolynomial (domain_of_log 2) example_poly (fr.SetUint64 5))
     = Return (Some (barycentric_formula (domain_of_log 2) example_poly (fr.SetUint64 5)),
               None).
Proof.
  apply (evaluateLagrangePolynomial_off_domain (domain_of_log 2) example_poly
           (fr.SetUint64 5)).
  - vm_compute. reflexivity.
  - vm_compute. discriminate.
  - vm_compute. discriminate.
  - intros i root _ Hroot. eapply example_point_off_domain, nth_error_In, Hroot.
Defined.

Lemma example_first_root (j : nat) (root : fr.Element) :
  (j < 1)%nat -> nth_error (Roots (domain_of_log 2)) j = Some root ->
  root <> generator_of_log 2.
Proof.
  intros Hj Hroot E. assert (j = O) by lia. subst j.
  assert (H0 : nth_error (Roots (domain_of_log 2)) 0 = Some fr.One)
    by (vm_compute; reflexivity).
  assert (Hne : fr.Equal fr.One (generator_of_log 2) = false)
    by (vm_compute; reflexivity).
  rewrite H0 in Hroot. injection Hroot as <-.
  apply (reflect_iff _ _ (fr_Equal_spec _ _)) in E. rewrite Hne in E. discriminate E.
Qed.

Lemma evaluateLagrangePolynomial_on_domain_witness :
  exists value, nth_error example_poly 1 = Some value
    /\ evaluateLagrangePolynomial (domain_of_log 2) example_poly (generator_of_log 2)
       = Run (Return (Some value, 1, None)) 2
    /\ EvaluateLagrangePolynomial (domain_of_log 2) example_poly (generator_of_log 2)
       = Run (Return (Some value, None)) 2.
Proof.
  apply (evaluateLagrangePolynomial_on_domain (domain_of_log 2) example_poly 1
           (generator_of_log 2)).
  - vm_compute. reflexivity.
  - vm_compute. discriminate.
  - simpl. lia.
  - vm_compute. reflexivity.
  - exact example_first_root.
Defined.

Lemma evaluateLagrangePolynomial_quadratic_witness :
  outcome (evaluateLagrangePolynomial (domain_of_log 2)
             (map f_x (Roots (domain_of_log 2))) (fr.SetUint64 5))
  = Return (Some (f_x (fr.SetUint64 5)), -1, None).
Proof.
  apply (evaluateLagrangePolynomial_quadratic (domain_of_log 2) (fr.SetUint64 5)).
  - vm_compute. reflexivity.
  - intros Hin. now apply (example_point_off_domain _ Hin).
Defined.

Definition short_poly : Polynomial := [fr.SetUint64 2; fr.SetUint64 3; fr.SetUint64 4].

Lemma evaluateLagrangePolynomial_size_error_witness :
  evaluateLagrangePolynomial (domain_of_log 2) short_poly (fr.SetUint64 5)
  = Run (Return (None, -1, Some domain_size_error)) 0
  /\ EvaluateLagrangePolynomial (domain_of_log 2) short_poly (fr.SetUint64 5)
     = Run (Return (None, Some domain_size_error)) 0.
Proof.
  apply (evaluateLagrangePolynomial_size_error (domain_of_log 2) short_poly
           (fr.SetUint64 5)).
  - vm_compute. discriminate.
  - vm_compute. discriminate.
Defined.

Lemma EvaluateLagrangePolynomial_value_xor_error_witness :
  (exists value,
     outcome (EvaluateLagrangePolynomial (domain_of_log 2) example_poly (fr.SetUint64 5))
     = Return (Some value, None))
  \/ (exists err,
        outcome (EvaluateLagrangePolynomial (domain_of_log 2) example_poly (fr.SetUint64 5))
        = Return (None, Some err))
  \/ (outcome (EvaluateLagrangePolynomial (domain_of_log 2) example_poly (fr.SetUint64 5))
      = Panic IndexOutOfRange
      /\ len (Roots (domain_of_log 2)) < Cardinality (domain_of_log 2)).
Proof.
  apply (EvaluateLagrangePolynomial_value_xor_error (domain_of_log 2) example_poly
           (fr.SetUint64 5)).
  vm_compute. discriminate.
Defined.


Lemma BatchVerifyMultiPoints_draw_witness :
  outcome (BatchVerifyMultiPoints example_commitments example_proofs example_key
             (fr.SetUint64 2, None))
  = Return (verdict (fst (folded_check example_commitments example_proofs example_key
                            (fr.SetUint64 2))))
  /\ snd (folded_check example_commitments example_proofs example_key (fr.SetUint64 2))
     = None
  /\ forall e,
       outcome (BatchVerifyMultiPoints example_commitments example_proofs example_key
                  (fr.SetUint64 2, Some e))
       = Return (Some e).
Proof.
  apply (BatchVerifyMultiPoints_draw example_commitments example_proofs example_key
           (fr.SetUint64 2)).
  - reflexivity.
  - vm_compute. split; discriminate.
Defined.
(** ** The subgroup that a domain holds

    The generator of a domain of [2^k] elements has order exactly [2^k],
    because its power [2^(k-1)] is [-1].  So the roots of the domain are
    pairwise distinct, and they are all the scalars whose power [2^k] is
    one. *)

Lemma rootOfUnity_half_order :
  Zmod.pow (fr.SetString rootOfUnity_decimal) (2 ^ 31) = Zmod.opp Zmod.one.
Proof.
  apply Zmod.unsigned_inj. unfold fr.SetString.
  change (2 ^ 31) with (Z.pos 2147483648).
  rewrite (Zmod_pow_eval fr.Modulus rootOfUnity_decimal 2147483648 fr.Modulus_pos)
    by (unfold rootOfUnity_decimal; lia).
  vm_compute. reflexivity.
Qed.

Lemma generator_half_order k : 1 <= k <= 32 ->
  Zmod.pow (generator_of_log k) (2 ^ (k - 1)) = Zmod.opp Zmod.one.
Proof.
  intros Hk. unfold generator_of_log, maxOrderRoot.
  rewrite <- fr_pow_mul_r by (apply Z.pow_nonneg; lia).
  rewrite <- Z.pow_add_r by lia. replace (32 - k + (k - 1)) with 31 by lia.
  apply rootOfUnity_half_order.
Qed.

Lemma generator_of_log_square k : 0 <= k < 32 ->
  generator_of_log k = Zmod.pow (generator_of_log (k + 1)) 2.
Proof.
  intros Hk. unfold generator_of_log, maxOrderRoot.
  rewrite <- fr_pow_mul_r by (try apply Z.pow_nonneg; lia).
  f_equal. replace (32 - k) with (Z.succ (32 - (k + 1))) by lia.
  rewrite Z.pow_succ_r by lia. lia.
Qed.

Lemma fr_opp_one_neq_one : Zmod.opp Zmod.one <> (Zmod.one : fr.Element).
Proof.
  intros E. apply (f_equal Zmod.to_Z) in E. revert E.
  vm_compute. discriminate.
Qed.

Lemma fr_pow_opp_one_odd (a : Z) : 0 <= a ->
  Zmod.pow (Zmod.opp Zmod.one : fr.Element) (2 * a + 1) = Zmod.opp Zmod.one.
Proof.
  intros Ha. rewrite Zmod.pow_add_r_nonneg, Zmod.pow_mul_r_nonneg by lia.
  rewrite Zmod.pow_opp_2, !Zmod.pow_1_l, Zmod.pow_1_r. ring.
Qed.

(** An element whose power [2^k] is [-1] has order [2^(k+1)]: no smaller
    positive power of it is one. *)
Lemma no_smaller_order (e : positive) : forall (k : nat) (x : fr.Element),
  Zmod.pow x (2 ^ Z.of_nat k) = Zmod.opp Zmod.one ->
  Z.pos e < 2 ^ (Z.of_nat k + 1) ->
  Zmod.pow x (Z.pos e) <> Zmod.one.
Proof.
  assert (Hodd : forall a (k : nat) (x : fr.Element), 0 <= a ->
            Zmod.pow x (2 ^ Z.of_nat k) = Zmod.opp Zmod.one ->
            Zmod.pow x (2 * a + 1) <> Zmod.one).
  { intros a k x Ha Hx E.
    assert (Hp : 0 <= 2 ^ Z.of_nat k) by (apply Z.pow_nonneg; lia).
    apply (f_equal (fun y => Zmod.pow y (2 ^ Z.of_nat k))) in E.
    rewrite <- Zmod.pow_mul_r_nonneg, Z.mul_comm, Zmod.pow_mul_r_nonneg in E by lia.
    rewrite Hx, fr_pow_opp_one_odd, Zmod.pow_1_l in E by lia.
    now apply fr_opp_one_neq_one. }
  induction e as [e IH|e IH|]; intros k x Hx He.
  - change (Z.pos e~1) with (2 * Z.pos e + 1). apply (Hodd _ k); [lia | exact Hx].
  - destruct k as [|k].
    { change (2 ^ (Z.of_nat 0 + 1)) with 2 in He. lia. }
    change (Z.pos e~0) with (2 * Z.pos e).
    rewrite Zmod.pow_mul_r_nonneg by lia. apply (IH k).
    + rewrite <- Zmod.pow_mul_r_nonneg by (try apply Z.pow_nonneg; lia).
      rewrite <- Hx. f_equal. rewrite Nat2Z.inj_succ, Z.pow_succ_r; lia.
    + rewrite Nat2Z.inj_succ in He.
      replace (Z.succ (Z.of_nat k) + 1) with (Z.succ (Z.of_nat k + 1)) in He by lia.
      rewrite Z.pow_succ_r in He by lia. lia.
  - change 1 with (2 * 0 + 1). apply (Hodd _ k); [lia | exact Hx].
Qed.

Lemma generator_exact_order k e : 0 <= k <= 32 -> 0 < e < 2 ^ k ->
  Zmod.pow (generator_of_log k) e <> fr.One.
Proof.
  intros Hk He. destruct (Z.eq_dec k 0) as [->|Hk0].
  { change (2 ^ 0) with 1 in He. lia. }
  destruct e as [|e|e]; try lia.
  apply (no_smaller_order e (Z.to_nat (k - 1))).
  - rewrite Z2Nat.id by lia. apply generator_half_order. lia.
  - rewrite Z2Nat.id by lia. replace (k - 1 + 1) with k by lia. lia.
Qed.

Lemma fr_mul_cancel_one (a c : fr.Element) :
  c <> fr.Zero -> fr.Mul a c = c -> a = fr.One.
Proof.
  intros Hc E. fr_unfold.
  assert (H : Zmod.mul (Zmod.sub a Zmod.one) c = Zmod.zero).
  { transitivity (Zmod.sub (Zmod.mul a c) c); [ring | rewrite E; ring]. }
  apply Zmod.mul_0_iff_prime in H; [|exact fr.Modulus_prime].
  destruct H as [H|H]; [|contradiction].
  now apply Zmod.sub_eq_0.
Qed.

Lemma generator_powers_injective k i j : 0 <= k <= 32 ->
  0 <= i < 2 ^ k -> 0 <= j < 2 ^ k ->
  Zmod.pow (generator_of_log k) i = Zmod.pow (generator_of_log k) j -> i = j.
Proof.
  intros Hk.
  assert (Hlt : forall i j, 0 <= i < j -> j < 2 ^ k ->
            Zmod.pow (generator_of_log k) i <> Zmod.pow (generator_of_log k) j).
  { clear i j. intros i j Hij Hj E.
    apply (generator_exact_order k (j - i) Hk); [lia|].
    apply (fr_mul_cancel_one _ (Zmod.pow (generator_of_log k) i)).
    - apply root_nonzero; lia.
    - unfold fr.Mul. rewrite <- Zmod.pow_add_r_nonneg by lia.
      replace (j - i + i) with j by lia. now symmetry. }
  intros Hi Hj E. destruct (Z.lt_trichotomy i j) as [H|[H|H]]; [|exact H|].
  - exfalso. apply (Hlt i j); [lia | lia | exact E].
  - exfalso. apply (Hlt j i); [lia | lia | now symmetry].
Qed.

Lemma powers_NoDup k : 0 <= k <= 32 ->
  NoDup (powers (generator_of_log k) (Z.to_nat (2 ^ k))).
Proof.
  intros Hk. apply NoDup_nth_error. intros i j Hi E.
  rewrite length_powers in Hi.
  assert (Hp : 0 < 2 ^ k) by (apply Z.pow_pos_nonneg; lia).
  assert (Hj : (j < Z.to_nat (2 ^ k))%nat).
  { rewrite nth_error_powers in E by exact Hi.
    destruct (Nat.lt_ge_cases j (Z.to_nat (2 ^ k))) as [H|H]; [exact H|].
    assert (Hnone : nth_error (powers (generator_of_log k) (Z.to_nat (2 ^ k))) j = None)
      by (apply nth_error_None; rewrite length_powers; exact H).
    rewrite Hnone in E. discriminate E. }
  rewrite !nth_error_powers in E by assumption.
  injection E as E. apply generator_powers_injective in E; lia.
Qed.

(** Every scalar whose power [2^k] is one is a power of the generator. *)
Lemma unity_roots_are_powers (k : nat) : Z.of_nat k <= 32 ->
  forall z : fr.Element, Zmod.pow z (2 ^ Z.of_nat k) = fr.One ->
  exists i, 0 <= i < 2 ^ Z.of_nat k
    /\ z = Zmod.pow (generator_of_log (Z.of_nat k)) i.
Proof.
  induction k as [|k IH]; intros Hk z Hz.
  - exists 0. split; [change (2 ^ Z.of_nat 0) with 1; lia|].
    change (2 ^ Z.of_nat 0) with 1 in Hz. rewrite Zmod.pow_1_r in Hz.
    now rewrite Zmod.pow_0_r.
  - rewrite Nat2Z.inj_succ in *. fold (Z.of_nat k + 1) in *.
    replace (Z.succ (Z.of_nat k)) with (Z.of_nat k + 1) in * by lia.
    set (n := Z.of_nat k) in *.
    assert (Hn : 0 <= n) by (unfold n; lia).
    assert (Hp : 0 < 2 ^ n) by (apply Z.pow_pos_nonneg; lia).
    assert (H2 : 2 ^ (n + 1) = 2 * 2 ^ n) by (rewrite Z.pow_add_r; lia).
    set (g' := generator_of_log (n + 1)).
    assert (Hg : generator_of_log n = Zmod.pow g' 2)
      by (apply generator_of_log_square; lia).
    assert (Hhalf : Zmod.pow g' (2 ^ n) = Zmod.opp Zmod.one).
    { replace n with (n + 1 - 1) at 1 by lia. apply generator_half_order. lia. }
    assert (Hfull : Zmod.pow g' (2 ^ (n + 1)) = fr.One)
      by (apply generator_order; lia).
    assert (Hw : Zmod.pow (Zmod.pow z (2 ^ n)) 2 = Zmod.one).
    { rewrite <- Zmod.pow_mul_r_nonneg by lia.
      rewrite Z.mul_comm, <- H2. exact Hz. }
    apply Zmod.square_roots_1_prime in Hw; [|exact fr.Modulus_prime].
    destruct Hw as [Hw|Hw].
    + destruct (IH ltac:(lia) z Hw) as (i & Hi & ->).
      exists (2 * i). split; [lia|].
      rewrite Hg, <- Zmod.pow_mul_r_nonneg by lia. reflexivity.
    + set (z' := Zmod.mul z (Zmod.pow g' (2 ^ (n + 1) - 1))).
      assert (Hz' : Zmod.pow z' (2 ^ n) = fr.One).
      { unfold z'. rewrite Zmod.pow_mul_l_nonneg by lia. rewrite Hw.
        rewrite <- Zmod.pow_mul_r_nonneg, Z.mul_comm, Zmod.pow_mul_r_nonneg by lia.
        rewrite Hhalf. replace (2 ^ (n + 1) - 1) with (2 * (2 ^ n - 1) + 1) by lia.
        rewrite fr_pow_opp_one_odd by lia. fr_unfold. ring. }
      destruct (IH ltac:(lia) z' Hz') as (i & Hi & Ei).
      exists (2 * i + 1). split; [lia|].
      rewrite Zmod.pow_add_r_nonneg, Zmod.pow_mul_r_nonneg, <- Hg, <- Ei by lia.
      unfold z'. rewrite Zmod.pow_1_r.
      transitivity (Zmod.mul z (Zmod.mul (Zmod.pow g' (2 ^ (n + 1) - 1)) (Zmod.pow g' 1))).
      * rewrite <- Zmod.pow_add_r_nonneg by lia.
        replace (2 ^ (n + 1) - 1 + 1) with (2 ^ (n + 1)) by lia.
        rewrite Hfull. fr_unfold. ring.
      * rewrite Zmod.pow_1_r. fr_unfold. ring.
Qed.

Lemma generator_inverse_power k i : 0 <= k <= 32 -> 0 <= i < 2 ^ k ->
  fr.Inverse (Zmod.pow (generator_of_log k) i)
  = Zmod.pow (generator_of_log k) ((2 ^ k - i) mod 2 ^ k).
Proof.
  intros Hk Hi. symmetry. apply fr_Inverse_unique. unfold fr.Mul.
  assert (Hm : 0 <= (2 ^ k - i) mod 2 ^ k < 2 ^ k) by (apply Z.mod_pos_bound; lia).
  rewrite <- Zmod.pow_add_r_nonneg by lia.
  destruct (Z.eq_dec i 0) as [->|Hi0].
  - rewrite Z.sub_0_r, Z.mod_same by lia. apply Zmod.pow_0_r.
  - rewrite Z.mod_small by lia. replace (i + (2 ^ k - i)) with (2 ^ k) by lia.
    now apply generator_order.
Qed.

(** [findRootIndex] on a domain that [NewDomain] built. *)
Lemma findRootIndex_domain_of_log k (z : fr.Element) : 0 <= k <= 32 ->
  (exists i, 0 <= i < 2 ^ k /\ z = Zmod.pow (generator_of_log k) i
     /\ outcome (findRootIndex (domain_of_log k) z) = Return i)
  \/ ((forall i, 0 <= i < 2 ^ k -> Zmod.pow (generator_of_log k) i <> z)
      /\ outcome (findRootIndex (domain_of_log k) z) = Return (-1)).
Proof.
  intros Hk.
  assert (Hp : 0 < 2 ^ k <= 2 ^ 32)
    by (split; [apply Z.pow_pos_nonneg | apply Z.pow_le_mono_r]; lia).
  pose proof (findRootIndex_cases (domain_of_log k) z) as H.
  cbn [Cardinality Roots domain_of_log] in H.
  specialize (H ltac:(unfold MaxInt; lia)).
  destruct (outcome (findRootIndex (domain_of_log k) z)) as [r|p].
  - destruct H as [[-> Hall]|(i & -> & Hi & Hnth & _)].
    + right. split; [|reflexivity]. intros i Hi E.
      destruct (Hall (Z.to_nat i) ltac:(lia)) as (root & Hroot & Hne).
      rewrite nth_error_powers, Z2Nat.id in Hroot by lia. congruence.
    + left. exists (Z.of_nat i). split; [lia|]. split; [|reflexivity].
      rewrite nth_error_powers in Hnth by exact Hi. congruence.
  - exfalso. destruct H as [_ H]. unfold len in H. rewrite length_powers in H. lia.
Qed.

Lemma findRootIndex_power k i : 0 <= k <= 32 -> 0 <= i < 2 ^ k ->
  outcome (findRootIndex (domain_of_log k) (Zmod.pow (generator_of_log k) i))
  = Return i.
Proof.
  intros Hk Hi.
  destruct (findRootIndex_domain_of_log k (Zmod.pow (generator_of_log k) i) Hk)
    as [(j & Hj & E & Hr)|[Hall _]].
  - apply generator_powers_injective in E; [|lia..]. now subst j.
  - exfalso. now apply (Hall i Hi).
Qed.

Lemma evaluateLagrangePolynomial_power k (poly : Polynomial) i value :
  0 <= k <= 32 -> len poly = 2 ^ k -> 0 <= i < 2 ^ k ->
  nth_error poly (Z.to_nat i) = Some value ->
  outcome (evaluateLagrangePolynomial (domain_of_log k) poly
             (Zmod.pow (generator_of_log k) i))
  = Return (Some value, i, None).
Proof.
  intros Hk Hlen Hi Hvalue.
  assert (Hpow : 0 < 2 ^ k <= 2 ^ 32)
    by (split; [apply Z.pow_pos_nonneg | apply Z.pow_le_mono_r]; lia).
  unfold evaluateLagrangePolynomial.
  rewrite uint64_of_int_small by (unfold MaxInt; lia).
  cbn [Cardinality domain_of_log]. rewrite Hlen, Z.eqb_refl. cbn [negb].
  rewrite (outcome_bind_return _ _ _ (findRootIndex_power k i Hk Hi)).
  destruct (Z.eqb_spec i (-1)); [lia|]. cbn [negb].
  rewrite <- (Z2Nat.id i) at 1 by lia.
  rewrite (outcome_bind_return _ _ _ (outcome_index poly _ _ Hvalue)).
  reflexivity.
Qed.

Lemma NewDomain_power k : 0 <= k <= 32 ->
  outcome (NewDomain (2 ^ k)) = Return (domain_of_log k).
Proof.
  intros Hk.
  assert (Hpow : 0 < 2 ^ k <= 2 ^ 32)
    by (split; [apply Z.pow_pos_nonneg | apply Z.pow_le_mono_r]; lia).
  destruct (NewDomain_spec (2 ^ k) ltac:(lia)) as (k' & Hk' & Hle' & _ & Hmin' & Hd').
  assert (k' = k); [|now subst k'].
  assert (2 ^ k' <= 2 ^ k) by (apply Hmin'; lia).
  assert (k <= k') by (apply (Z.pow_le_mono_r_iff 2); lia).
  assert (k' <= k) by (apply (Z.pow_le_mono_r_iff 2); lia).
  lia.
Qed.

(** ** What [NewDomain] accepts, and the group it builds *)

(** X1. [NewDomain] returns a domain exactly for the sizes up to [2^32].  A
    larger size up to [2^63] panics because the root of unity does not
    exist; beyond [2^63] the panic is that of [ecc.NextPowerOfTwo], whose
    result would not fit 64 bits. *)
Theorem NewDomain_accepts_exactly m : 0 <= m < 2 ^ 64 ->
  (m <= 2 ^ 32 -> exists d, outcome (NewDomain m) = Return d)
  /\ (2 ^ 32 < m <= 2 ^ 63 ->
        outcome (NewDomain m) = Panic (RootOfUnityDoesNotExist m))
  /\ (2 ^ 63 < m -> outcome (NewDomain m) = Panic NextPowerOfTwoOverflows).
Proof.
  intros Hm. split; [|split].
  - intros Hle. destruct (NewDomain_spec m) as (k & _ & _ & _ & _ & Hd); [lia|].
    now exists (domain_of_log k).
  - intros Hgt. unfold NewDomain, NextPowerOfTwo.
    destruct m as [|p|p]; try lia.
    pose proof (ones_pos p) as H1. unfold OnesCount64.
    destruct (Z.eqb_spec (ones p) 0) as [|_]; [lia|].
    destruct (Z.eqb_spec (ones p) 1) as [E|NE].
    + destruct (ones_one p E) as [Hp Hk]. run.
      cbn [TrailingZeros64]. unfold maxOrderRoot.
      destruct (Z.gtb_spec (trailing_zeros p) 32) as [_|Hle]; [run; reflexivity|].
      exfalso.
      assert (2 ^ trailing_zeros p <= 2 ^ 32) by (apply Z.pow_le_mono_r; lia). lia.
    + set (l := Z.log2 (Z.pos p)).
      destruct (Z.log2_spec (Z.pos p)) as [Hlo Hhi]; [lia|]. fold l in Hlo, Hhi.
      assert (Hl0 : 0 <= l) by apply Z.log2_nonneg.
      assert (Hl32 : 32 <= l).
      { assert (32 < l + 1); [|lia]. apply (Z.pow_lt_mono_r_iff 2); lia. }
      assert (Hl62 : l <= 62).
      { assert (l < 63); [|lia]. apply (Z.pow_lt_mono_r_iff 2); [lia | lia |].
        destruct (Z.eq_dec (Z.pos p) (2 ^ 63)) as [Heq|]; [|lia].
        exfalso. apply NE.
        assert (Hp : p = 9223372036854775808%positive) by lia.
        rewrite Hp. reflexivity. }
      unfold LeadingZeros64, Len64. fold l.
      destruct (Z.eqb_spec (64 - (l + 1)) 0) as [|Hne]; [lia|].
      replace (64 - (64 - (l + 1))) with (l + 1) by lia.
      rewrite Z.shiftl_1_l, Z.mod_small;
        [|split; [apply Z.pow_nonneg; lia | apply Z.pow_lt_mono_r; lia]].
      run. pose proof (pow2_bits (Z.to_nat (l + 1))) as [_ Htz].
      rewrite Z2Nat.id in Htz by lia. rewrite Htz. unfold maxOrderRoot.
      destruct (Z.gtb_spec (l + 1) 32) as [_|Hle]; [run; reflexivity | lia].
  - intros Hgt. unfold NewDomain, NextPowerOfTwo.
    destruct m as [|p|p]; try lia.
    pose proof (ones_pos p) as H1. unfold OnesCount64.
    destruct (Z.eqb_spec (ones p) 0) as [|_]; [lia|].
    destruct (Z.eqb_spec (ones p) 1) as [E|NE].
    + exfalso. destruct (ones_one p E) as [Hp Hk].
      assert (63 < trailing_zeros p) by (apply (Z.pow_lt_mono_r_iff 2); lia).
      assert (trailing_zeros p < 64) by (apply (Z.pow_lt_mono_r_iff 2); lia).
      lia.
    + set (l := Z.log2 (Z.pos p)).
      destruct (Z.log2_spec (Z.pos p)) as [Hlo Hhi]; [lia|]. fold l in Hlo, Hhi.
      assert (Hl0 : 0 <= l) by apply Z.log2_nonneg.
      assert (Hl63 : l = 63).
      { assert (l < 64) by (apply (Z.pow_lt_mono_r_iff 2); lia).
        assert (63 < l + 1) by (apply (Z.pow_lt_mono_r_iff 2); lia).
        lia. }
      unfold LeadingZeros64, Len64. fold l. rewrite Hl63.
      cbn [Z.add Z.sub Z.opp Z.eqb Pos.add Pos.succ Z.pos_sub Pos.pred_double
           Z.succ_double Z.pred_double Z.double Pos.eqb].
      run. reflexivity.
Qed.

Lemma NewDomain_accepts_exactly_witness :
  outcome (NewDomain (2 ^ 32 + 1)) = Panic (RootOfUnityDoesNotExist (2 ^ 32 + 1)).
Proof.
  refine (proj1 (proj2 (NewDomain_accepts_exactly (2 ^ 32 + 1) _)) _); lia.
Defined.

Lemma fr_power_of_two_nonzero k : 0 <= k <= 32 -> fr.SetUint64 (2 ^ k) <> fr.Zero.
Proof.
  intros Hk E. apply (f_equal Zmod.to_Z) in E. unfold fr.SetUint64, fr.Zero in E.
  rewrite Zmod.unsigned_of_Z, Zmod.unsigned_0 in E.
  assert (Hp : 0 < 2 ^ k <= 2 ^ 32)
    by (split; [apply Z.pow_pos_nonneg | apply Z.pow_le_mono_r]; lia).
  rewrite Z.mod_small in E; [lia|]. unfold fr.Modulus. lia.
Qed.

(** X2. The generator of a constructed domain has order exactly the
    cardinality: its power [Cardinality] is one and no smaller positive
    power is.  [GeneratorInv] and [CardinalityInv] are the inverses of the
    generator and of the cardinality, as scalars. *)
Theorem NewDomain_generator_order m d :
  0 <= m < 2 ^ 64 -> outcome (NewDomain m) = Return d ->
  fr.Exp (Generator d) (Cardinality d) = fr.One
  /\ (forall e, 0 < e < Cardinality d -> fr.Exp (Generator d) e <> fr.One)
  /\ fr.Mul (Generator d) (GeneratorInv d) = fr.One
  /\ fr.Mul (fr.SetUint64 (Cardinality d)) (CardinalityInv d) = fr.One.
Proof.
  intros Hm Hd.
  destruct (NewDomain_returns m d Hm Hd) as (k & Hk & _ & _ & _ & ->).
  assert (Hpow : 0 < 2 ^ k) by (apply Z.pow_pos_nonneg; lia).
  cbn [domain_of_log Cardinality Generator GeneratorInv CardinalityInv].
  split; [rewrite fr_Exp_pos by lia; now apply generator_order|].
  split; [intros e He; rewrite fr_Exp_pos by lia; now apply generator_exact_order|].
  split.
  - apply fr_Mul_Inverse. rewrite <- (Zmod.pow_1_r (generator_of_log k)).
    apply root_nonzero; lia.
  - now apply fr_Mul_Inverse, fr_power_of_two_nonzero.
Qed.

Lemma NewDomain_generator_order_witness :
  fr.Exp (Generator (domain_of_log 2)) (Cardinality (domain_of_log 2)) = fr.One
  /\ fr.Mul (Generator (domain_of_log 2)) (GeneratorInv (domain_of_log 2)) = fr.One.
Proof.
  pose proof (NewDomain_generator_order 3 (domain_of_log 2) ltac:(lia) NewDomain_3)
    as (H1 & _ & H2 & _).
  exact (conj H1 H2).
Defined.

(** X3. The roots of a constructed domain are the powers of its generator,
    [Roots[i] = Generator^i], and they are pairwise distinct. *)
Theorem NewDomain_roots_distinct m d :
  0 <= m < 2 ^ 64 -> outcome (NewDomain m) = Return d ->
  (forall i, 0 <= i < Cardinality d ->
     nth_error (Roots d) (Z.to_nat i) = Some (fr.Exp (Generator d) i))
  /\ NoDup (Roots d).
Proof.
  intros Hm Hd.
  destruct (NewDomain_returns m d Hm Hd) as (k & Hk & _ & _ & _ & ->).
  cbn [domain_of_log Cardinality Generator Roots]. split.
  - intros i Hi. rewrite nth_error_powers, Z2Nat.id, fr_Exp_nonneg by lia.
    reflexivity.
  - now apply powers_NoDup.
Qed.

Lemma NewDomain_roots_distinct_witness : NoDup (Roots (domain_of_log 2)).
Proof.
  exact (proj2 (NewDomain_roots_distinct 3 (domain_of_log 2) ltac:(lia) NewDomain_3)).
Defined.

(** X4. The table of inverses is the table of roots read backwards: the
    inverse stored at index [i] is the root at index [Cardinality - i],
    and at index 0 it is the root at index 0. *)
Theorem NewDomain_inverses_mirror m d :
  0 <= m < 2 ^ 64 -> outcome (NewDomain m) = Return d ->
  forall i, 0 <= i < Cardinality d ->
    exists inverse,
      nth_error (PreComputedInverses d) (Z.to_nat i) = Some inverse
      /\ nth_error (Roots d) (Z.to_nat ((Cardinality d - i) mod Cardinality d))
         = Some inverse.
Proof.
  intros Hm Hd.
  destruct (NewDomain_returns m d Hm Hd) as (k & Hk & _ & _ & _ & ->).
  assert (Hpow : 0 < 2 ^ k) by (apply Z.pow_pos_nonneg; lia).
  cbn [domain_of_log Cardinality PreComputedInverses Roots]. intros i Hi.
  assert (Hmod : 0 <= (2 ^ k - i) mod 2 ^ k < 2 ^ k) by (apply Z.mod_pos_bound; lia).
  exists (Zmod.pow (generator_of_log k) ((2 ^ k - i) mod 2 ^ k)). split.
  - rewrite nth_error_map, nth_error_powers, Z2Nat.id by lia.
    cbn [option_map]. now rewrite generator_inverse_power.
  - rewrite nth_error_powers, Z2Nat.id by lia. reflexivity.
Qed.

Lemma NewDomain_inverses_mirror_witness :
  exists inverse,
    nth_error (PreComputedInverses (domain_of_log 2)) (Z.to_nat 1) = Some inverse
    /\ nth_error (Roots (domain_of_log 2))
         (Z.to_nat ((Cardinality (domain_of_log 2) - 1) mod Cardinality (domain_of_log 2)))
       = Some inverse.
Proof.
  apply (NewDomain_inverses_mirror 3 (domain_of_log 2) ltac:(lia) NewDomain_3 1).
  cbn [Cardinality domain_of_log]. lia.
Defined.

(** ** Looking a point up in a domain *)

(** X5. On any domain whose cardinality fits an [int], [findRootIndex] scans
    the first [Cardinality] roots from index 0.  When the domain has that
    many roots it returns the least index whose root equals the point, and
    [-1] when none does; [isInDomain] tells the two apart.  When the domain
    has fewer roots than its cardinality and none of them equals the point,
    the scan runs off the slice and panics. *)
Theorem findRootIndex_first_match (d : Domain) (point : fr.Element) :
  0 <= Cardinality d <= MaxInt ->
  (Cardinality d <= len (Roots d) ->
     exists r, outcome (findRootIndex d point) = Return r
       /\ outcome (isInDomain d point) = Return (negb (r =? -1))
       /\ ((r = -1
            /\ forall i root, 0 <= i < Cardinality d ->
                 nth_error (Roots d) (Z.to_nat i) = Some root -> root <> point)
           \/ (0 <= r < Cardinality d
               /\ nth_error (Roots d) (Z.to_nat r) = Some point
               /\ forall i root, 0 <= i < r ->
                    nth_error (Roots d) (Z.to_nat i) = Some root -> root <> point)))
  /\ (len (Roots d) < Cardinality d -> ~ In point (Roots d) ->
        outcome (findRootIndex d point) = Panic IndexOutOfRange
        /\ outcome (isInDomain d point) = Panic IndexOutOfRange).
Proof.
  intros Hc. pose proof (findRootIndex_cases d point Hc) as H.
  unfold isInDomain. rewrite outcome_bind.
  destruct (outcome (findRootIndex d point)) as [r|p]; split.
  - intros _. exists r. split; [reflexivity|]. split; [reflexivity|].
    destruct H as [[-> Hall]|(i & -> & Hi & Hnth & Hfirst)].
    + left. split; [reflexivity|]. intros i root Hi Hroot.
      destruct (Hall (Z.to_nat i) ltac:(lia)) as (root' & Hroot' & Hne). congruence.
    + right. split; [lia|]. rewrite Nat2Z.id. split; [exact Hnth|].
      intros j root Hj Hroot.
      destruct (Hfirst (Z.to_nat j) ltac:(lia)) as (root' & Hroot' & Hne). congruence.
  - intros Hlen Hnone. exfalso.
    destruct H as [[_ Hall]|(i & _ & _ & Hnth & _)].
    + destruct (Hall (length (Roots d)) ltac:(unfold len in Hlen; lia))
        as (root & Hroot & _).
      assert (Hn : nth_error (Roots d) (length (Roots d)) = None)
        by (apply nth_error_None; lia).
      congruence.
    + apply Hnone. eapply nth_error_In, Hnth.
  - intros Hlen. exfalso. destruct H as [_ H]. lia.
  - intros _ _. destruct H as [-> _]. split; reflexivity.
Qed.

Lemma findRootIndex_first_match_witness :
  exists r, outcome (findRootIndex (domain_of_log 2) fr.One) = Return r
    /\ outcome (isInDomain (domain_of_log 2) fr.One) = Return (negb (r =? -1)).
Proof.
  assert (Hc : 0 <= Cardinality (domain_of_log 2) <= MaxInt)
    by (cbn [Cardinality domain_of_log]; unfold MaxInt; lia).
  assert (Hl : Cardinality (domain_of_log 2) <= len (Roots (domain_of_log 2)))
    by (cbn [Cardinality Roots domain_of_log]; unfold len;
        rewrite length_powers; lia).
  destruct (proj1 (findRootIndex_first_match (domain_of_log 2) fr.One Hc) Hl)
    as (r & H1 & H2 & _).
  exists r. exact (conj H1 H2).
Defined.

(** X6. Looking up a root of a constructed domain gives back its index: the
    roots are pairwise distinct, so the first match is the only one. *)
Theorem findRootIndex_round_trip m d :
  0 <= m < 2 ^ 64 -> outcome (NewDomain m) = Return d ->
  forall i, 0 <= i < Cardinality d ->
    exists root, nth_error (Roots d) (Z.to_nat i) = Some root
      /\ outcome (findRootIndex d root) = Return i
      /\ outcome (isInDomain d root) = Return true.
Proof.
  intros Hm Hd.
  destruct (NewDomain_returns m d Hm Hd) as (k & Hk & _ & _ & _ & ->).
  cbn [domain_of_log Cardinality Roots]. intros i Hi.
  exists (Zmod.pow (generator_of_log k) i).
  split; [rewrite nth_error_powers, Z2Nat.id by lia; reflexivity|].
  pose proof (findRootIndex_power k i Hk Hi) as Hfind.
  split; [exact Hfind|].
  unfold isInDomain. rewrite outcome_bind, Hfind. cbn [outcome ret]. f_equal.
  destruct (Z.eqb_spec i (-1)); [lia | reflexivity].
Qed.

Lemma findRootIndex_round_trip_witness :
  exists root, nth_error (Roots (domain_of_log 2)) (Z.to_nat 3) = Some root
    /\ outcome (findRootIndex (domain_of_log 2) root) = Return 3
    /\ outcome (isInDomain (domain_of_log 2) root) = Return true.
Proof.
  apply (findRootIndex_round_trip 3 (domain_of_log 2) ltac:(lia) NewDomain_3 3).
  cbn [Cardinality domain_of_log]. lia.
Defined.

(** X7. The points of a constructed domain are exactly the scalars whose power
    [Cardinality] is one: [isInDomain] returns true on them and false on
    every other scalar. *)
Theorem isInDomain_iff_unity_root m d (z : fr.Element) :
  0 <= m < 2 ^ 64 -> outcome (NewDomain m) = Return d ->
  exists b, outcome (isInDomain d z) = Return b
    /\ (b = true <-> fr.Exp z (Cardinality d) = fr.One).
Proof.
  intros Hm Hd.
  destruct (NewDomain_returns m d Hm Hd) as (k & Hk & _ & _ & _ & ->).
  assert (Hpow : 0 < 2 ^ k) by (apply Z.pow_pos_nonneg; lia).
  cbn [domain_of_log Cardinality]. rewrite fr_Exp_pos by lia.
  unfold isInDomain. rewrite outcome_bind.
  destruct (findRootIndex_domain_of_log k z Hk) as [(i & Hi & -> & Hr)|[Hall Hr]];
    rewrite Hr; cbn [outcome ret]; eexists; (split; [reflexivity|]).
  - destruct (Z.eqb_spec i (-1)); [lia|]. cbn [negb].
    split; [intros _; apply root_order; lia | reflexivity].
  - cbn [Z.eqb Pos.eqb negb]. split; [discriminate|]. intros Hz. exfalso.
    destruct (unity_roots_are_powers (Z.to_nat k) ltac:(lia) z) as (i & Hi & E).
    + rewrite Z2Nat.id by lia. exact Hz.
    + rewrite Z2Nat.id in Hi, E by lia. apply (Hall i Hi). now symmetry.
Qed.

Lemma isInDomain_iff_unity_root_witness :
  exists b, outcome (isInDomain (domain_of_log 2) (fr.SetUint64 5)) = Return b
    /\ (b = true <-> fr.Exp (fr.SetUint64 5) (Cardinality (domain_of_log 2)) = fr.One).
Proof.
  exact (isInDomain_iff_unity_root 3 (domain_of_log 2) (fr.SetUint64 5)
           ltac:(lia) NewDomain_3).
Defined.

(** X8. On a constructed domain, evaluating at the root of index [i] returns
    the entry [poly[i]] with the index [i], for every index below the
    cardinality. *)
Theorem evaluateLagrangePolynomial_at_every_root m d (poly : Polynomial) :
  0 <= m < 2 ^ 64 -> outcome (NewDomain m) = Return d ->
  len poly = Cardinality d ->
  forall i, 0 <= i < Cardinality d ->
    exists root value,
      nth_error (Roots d) (Z.to_nat i) = Some root
      /\ nth_error poly (Z.to_nat i) = Some value
      /\ outcome (evaluateLagrangePolynomial d poly root)
         = Return (Some value, i, None)
      /\ outcome (EvaluateLagrangePolynomial d poly root)
         = Return (Some value, None).
Proof.
  intros Hm Hd Hlen i Hi.
  destruct (NewDomain_returns m d Hm Hd) as (k & Hk & _ & _ & _ & ->).
  cbn [domain_of_log Cardinality Roots] in *.
  assert (Hpow : 0 < 2 ^ k) by (apply Z.pow_pos_nonneg; lia).
  destruct (nth_error poly (Z.to_nat i)) as [value|] eqn:Hvalue.
  2:{ apply nth_error_None in Hvalue. unfold len in Hlen. lia. }
  exists (Zmod.pow (generator_of_log k) i), value.
  split; [rewrite nth_error_powers, Z2Nat.id by lia; reflexivity|].
  split; [reflexivity|].
  pose proof (evaluateLagrangePolynomial_power k poly i value Hk Hlen Hi Hvalue)
    as Heval.
  split; [exact Heval|].
  unfold EvaluateLagrangePolynomial. now rewrite (outcome_bind_return _ _ _ Heval).
Qed.

Lemma evaluateLagrangePolynomial_at_every_root_witness :
  exists root value,
    nth_error (Roots (domain_of_log 2)) (Z.to_nat 3) = Some root
    /\ nth_error example_poly (Z.to_nat 3) = Some value
    /\ outcome (evaluateLagrangePolynomial (domain_of_log 2) example_poly root)
       = Return (Some value, 3, None)
    /\ outcome (EvaluateLagrangePolynomial (domain_of_log 2) example_poly root)
       = Return (Some value, None).
Proof.
  apply (evaluateLagrangePolynomial_at_every_root 3 (domain_of_log 2) example_poly
           ltac:(lia) NewDomain_3).
  - reflexivity.
  - cbn [Cardinality domain_of_log]. lia.
Defined.

(** ** The barycentric formula interpolates

    The evaluations of a polynomial of degree below the cardinality, at
    the roots of a constructed domain, determine its value everywhere, and
    [evaluateLagrangePolynomial] computes that value. *)

(** Sums [F 0 + ... + F (n - 1)] of scalars, in the order of the loops. *)
Definition fr_sum (F : nat -> fr.Element) (n : nat) : fr.Element :=
  fold_left (fun acc i => fr.Add acc (F i)) (seq 0 n) fr.Zero.

(** The value at [x] of the polynomial with the given coefficients, the
    constant one first. *)
Definition eval_coefficients (coefficients : list fr.Element) (x : fr.Element)
  : fr.Element :=
  fold_right (fun a acc => fr.Add a (fr.Mul x acc)) fr.Zero coefficients.

Lemma fr_sum_S F n : fr_sum F (S n) = fr.Add (fr_sum F n) (F n).
Proof. unfold fr_sum. now rewrite seq_S, fold_left_app. Qed.

Lemma fr_sum_ext F G n : (forall i, (i < n)%nat -> F i = G i) ->
  fr_sum F n = fr_sum G n.
Proof.
  induction n as [|n IH]; intros H; [reflexivity|].
  rewrite !fr_sum_S, IH, (H n) by (intros; try apply H; lia). reflexivity.
Qed.

Lemma fr_sum_add F G n :
  fr_sum (fun i => fr.Add (F i) (G i)) n = fr.Add (fr_sum F n) (fr_sum G n).
Proof.
  induction n as [|n IH]; [cbn; fr_unfold; ring|].
  rewrite !fr_sum_S, IH. fr_unfold. ring.
Qed.

Lemma fr_sum_scale c F n :
  fr_sum (fun i => fr.Mul c (F i)) n = fr.Mul c (fr_sum F n).
Proof.
  induction n as [|n IH]; [cbn; fr_unfold; ring|].
  rewrite !fr_sum_S, IH. fr_unfold. ring.
Qed.

Lemma fr_sum_zero n : fr_sum (fun _ => fr.Zero) n = fr.Zero.
Proof.
  induction n as [|n IH]; [reflexivity|]. rewrite fr_sum_S, IH. fr_unfold. ring.
Qed.

Lemma fr_sum_one n : fr_sum (fun _ => fr.One) n = fr.SetUint64 (Z.of_nat n).
Proof.
  induction n as [|n IH]; [reflexivity|].
  rewrite fr_sum_S, IH, Nat2Z.inj_succ. unfold fr.SetUint64, fr.Add, fr.One, Z.succ.
  now rewrite Zmod.of_Z_add, Zmod.of_Z_1.
Qed.

(** The sum of the powers [x^0 + ... + x^(n-1)] of a scalar [x] other than
    one whose power [n] is one vanishes. *)
Lemma geometric_sum (x : fr.Element) (n : nat) :
  Zmod.pow x (Z.of_nat n) = fr.One -> x <> fr.One ->
  fr_sum (fun i => Zmod.pow x (Z.of_nat i)) n = fr.Zero.
Proof.
  intros Hx Hne.
  assert (H : forall n, fr.Mul (fr.Sub x fr.One) (fr_sum (fun i => Zmod.pow x (Z.of_nat i)) n)
                        = fr.Sub (Zmod.pow x (Z.of_nat n)) fr.One).
  { clear. intros n. induction n as [|n IH].
    - cbn [fr_sum seq fold_left Z.of_nat]. rewrite Zmod.pow_0_r. fr_unfold. ring.
    - rewrite fr_sum_S, Nat2Z.inj_succ, Zmod.pow_succ_nonneg_r by lia.
      fr_unfold. rewrite Zmod.mul_add_r, IH. ring. }
  specialize (H n). rewrite Hx in H.
  assert (H0 : fr.Sub fr.One fr.One = fr.Zero) by (fr_unfold; ring).
  rewrite H0 in H. unfold fr.Mul, fr.Zero in H.
  apply Zmod.mul_0_iff_prime in H; [|exact fr.Modulus_prime].
  destruct H as [H|H]; [|exact H].
  exfalso. apply Hne. now apply Zmod.sub_eq_0.
Qed.

Lemma term_recurrence (a wi ui z : Zmod fr.Modulus) :
  ((z - wi) * ui = 1 ->
   (wi * a) * (wi * ui) = z * (a * (wi * ui)) + (- (1)) * (wi * a))%Zmod.
Proof.
  intros H.
  transitivity (z * (a * (wi * ui)) + (- (1)) * (wi * a)
                - wi * a * ((z - wi) * ui - 1))%Zmod; [ring|].
  rewrite H. ring.
Qed.

Section Interpolation.
Variable k : Z.
Hypothesis Hk : 0 <= k <= 32.
Variable z : fr.Element.

Let n : nat := Z.to_nat (2 ^ k).
Let g : fr.Element := generator_of_log k.
Let w (i : nat) : fr.Element := Zmod.pow g (Z.of_nat i).
Let u (i : nat) : fr.Element := fr.Inverse (fr.Sub z (w i)).

Hypothesis Hoff : forall i, (i < n)%nat -> w i <> z.

(* [Ssum j] is the sum of [w_i^j * (w_i / (z - w_i))], [Psum j] that of [w_i^j]. *)
Let Ssum (j : nat) : fr.Element :=
  fr_sum (fun i => fr.Mul (Zmod.pow (w i) (Z.of_nat j)) (fr.Mul (w i) (u i))) n.
Let Psum (j : nat) : fr.Element := fr_sum (fun i => Zmod.pow (w i) (Z.of_nat j)) n.

Lemma n_pos : Z.of_nat n = 2 ^ k.
Proof.
  unfold n. rewrite Z2Nat.id; [reflexivity|]. apply Z.pow_nonneg. lia.
Qed.

Lemma denominator_inverse i : (i < n)%nat ->
  fr.Mul (fr.Sub z (w i)) (u i) = fr.One.
Proof.
  intros Hi. apply fr_Mul_Inverse. intros E. apply (Hoff i Hi).
  symmetry. fr_unfold. now apply Zmod.sub_eq_0.
Qed.

Lemma root_power_swap i j :
  Zmod.pow (w i) (Z.of_nat j) = Zmod.pow (Zmod.pow g (Z.of_nat j)) (Z.of_nat i).
Proof.
  unfold w. rewrite <- !Zmod.pow_mul_r_nonneg by lia. f_equal. lia.
Qed.

Lemma power_sum_zero j : (0 < j < n)%nat -> Psum j = fr.Zero.
Proof.
  intros Hj. unfold Psum.
  rewrite (fr_sum_ext _ (fun i => Zmod.pow (Zmod.pow g (Z.of_nat j)) (Z.of_nat i)))
    by (intros; apply root_power_swap).
  pose proof n_pos as Hn. apply geometric_sum.
  - rewrite Hn. apply root_order; [exact Hk | lia].
  - apply generator_exact_order; [exact Hk | lia].
Qed.

Lemma power_sum_full : Psum n = fr.SetUint64 (2 ^ k).
Proof.
  unfold Psum. rewrite (fr_sum_ext _ (fun _ => fr.One)).
  - now rewrite fr_sum_one, n_pos.
  - intros i _. unfold w. rewrite n_pos. apply root_order; [exact Hk | lia].
Qed.

Lemma sum_recurrence j : Ssum (S j) = fr.Sub (fr.Mul z (Ssum j)) (Psum (S j)).
Proof.
  unfold Ssum, Psum.
  assert (Hneg : forall F, fr.Sub (fr.Mul z (fr_sum (fun i => fr.Mul (Zmod.pow (w i) (Z.of_nat j)) (fr.Mul (w i) (u i))) n)) (fr_sum F n)
            = fr_sum (fun i => fr.Add (fr.Mul z (fr.Mul (Zmod.pow (w i) (Z.of_nat j)) (fr.Mul (w i) (u i))))
                                      (fr.Mul (fr.Neg fr.One) (F i))) n).
  { intros F. rewrite fr_sum_add, !fr_sum_scale. fr_unfold. ring. }
  rewrite Hneg. apply fr_sum_ext. intros i Hi.
  pose proof (denominator_inverse i Hi) as Hinv.
  rewrite Nat2Z.inj_succ, Zmod.pow_succ_nonneg_r by lia.
  apply term_recurrence. exact Hinv.
Qed.
Lemma sum_shift j : (j < n)%nat ->
  Ssum j = fr.Mul (Zmod.pow z (Z.of_nat j)) (Ssum 0).
Proof.
  induction j as [|j IH]; intros Hj.
  - cbn [Z.of_nat]. rewrite Zmod.pow_0_r. fr_unfold. ring.
  - rewrite sum_recurrence, IH, power_sum_zero by lia.
    rewrite Nat2Z.inj_succ, Zmod.pow_succ_nonneg_r by lia. fr_unfold. ring.
Qed.

Lemma sum_full : Ssum n = Ssum 0.
Proof.
  unfold Ssum. apply fr_sum_ext. intros i _. cbn [Z.of_nat]. rewrite Zmod.pow_0_r.
  unfold w, g. rewrite n_pos, root_order by (try exact Hk; lia). reflexivity.
Qed.

Lemma sum_normal :
  fr.Mul (fr.Sub (Zmod.pow z (2 ^ k)) fr.One) (Ssum 0) = fr.SetUint64 (2 ^ k).
Proof.
  pose proof n_pos as Hn.
  assert (Hpos : 0 < 2 ^ k) by (apply Z.pow_pos_nonneg; lia).
  assert (Hfull : Ssum (S (Nat.pred n)) = Ssum 0)
    by (replace (S (Nat.pred n)) with n by lia; apply sum_full).
  assert (HP : Psum (S (Nat.pred n)) = fr.SetUint64 (2 ^ k))
    by (replace (S (Nat.pred n)) with n by lia; apply power_sum_full).
  rewrite sum_recurrence, sum_shift, HP in Hfull by lia.
  replace (2 ^ k) with (Z.succ (Z.of_nat (Nat.pred n))) at 1 by lia.
  rewrite Zmod.pow_succ_nonneg_r by lia.
  revert Hfull.
  generalize (fr.SetUint64 (2 ^ k)), (Zmod.pow z (Z.of_nat (Nat.pred n))), (Ssum 0).
  intros p zn1 s0 Hfull. fr_unfold.
  transitivity (Zmod.sub (Zmod.mul z (Zmod.mul zn1 s0))
                         (Zmod.sub (Zmod.mul z (Zmod.mul zn1 s0)) p));
    [rewrite Hfull; ring | ring].
Qed.

Lemma weighted_sum (coefficients : list fr.Element) : forall j,
  (j + length coefficients <= n)%nat ->
  fr_sum (fun i => fr.Mul (fr.Mul (Zmod.pow (w i) (Z.of_nat j))
                                  (eval_coefficients coefficients (w i)))
                          (fr.Mul (w i) (u i))) n
  = fr.Mul (fr.Mul (Zmod.pow z (Z.of_nat j)) (eval_coefficients coefficients z)) (Ssum 0).
Proof.
  induction coefficients as [|a c IH]; intros j Hj; cbn [eval_coefficients fold_right].
  - rewrite (fr_sum_ext _ (fun _ => fr.Zero)), fr_sum_zero
      by (intros; fr_unfold; ring).
    fr_unfold. ring.
  - fold (eval_coefficients c). cbn [length] in Hj.
    rewrite (fr_sum_ext _
      (fun i => fr.Add
         (fr.Mul a (fr.Mul (Zmod.pow (w i) (Z.of_nat j)) (fr.Mul (w i) (u i))))
         (fr.Mul (fr.Mul (Zmod.pow (w i) (Z.of_nat (S j)))
                         (eval_coefficients c (w i)))
                 (fr.Mul (w i) (u i))))).
    + rewrite fr_sum_add, fr_sum_scale, IH by lia.
      fold (Ssum j). rewrite sum_shift by lia.
      rewrite Nat2Z.inj_succ, Zmod.pow_succ_nonneg_r by lia.
      fold (eval_coefficients c z). fr_unfold. ring.
    + intros i _. rewrite Nat2Z.inj_succ, Zmod.pow_succ_nonneg_r by lia.
      fold (eval_coefficients c (w i)). fr_unfold. ring.
Qed.

(** The formula of the code, on the evaluations of a polynomial of degree
    below [2^k] and at a point outside the domain, is the value of the
    polynomial at the point. *)
Lemma barycentric_formula_interpolates (coefficients : list fr.Element) :
  (length coefficients <= n)%nat ->
  barycentric_formula (domain_of_log k)
    (map (eval_coefficients coefficients) (Roots (domain_of_log k))) z
  = eval_coefficients coefficients z.
Proof.
  intros Hlen. pose proof n_pos as Hn.
  assert (Hpos : 0 < 2 ^ k) by (apply Z.pow_pos_nonneg; lia).
  unfold barycentric_formula. cbn [Cardinality CardinalityInv Roots domain_of_log].
  rewrite fr_Exp_pos by lia. fold n. fold g.
  assert (Hsum : barycentric_sum (map (eval_coefficients coefficients) (powers g n))
                   (powers g n) z n
                 = fr.Mul (eval_coefficients coefficients z) (Ssum 0)).
  { unfold barycentric_sum. fold (fr_sum (lagrange_term
      (map (eval_coefficients coefficients) (powers g n)) (powers g n) z) n).
    rewrite <- (Zmod.mul_1_l (eval_coefficients coefficients z)).
    rewrite <- (Zmod.pow_0_r z). change 0 with (Z.of_nat 0).
    fold (fr.Mul (Zmod.pow z (Z.of_nat 0)) (eval_coefficients coefficients z)).
    rewrite <- weighted_sum by (cbn [Nat.add]; exact Hlen).
    apply fr_sum_ext. intros i Hi. unfold lagrange_term.
    assert (Hroot : nth i (powers g n) fr.Zero = w i).
    { apply nth_error_nth. now apply nth_error_powers. }
    assert (Hval : nth i (map (eval_coefficients coefficients) (powers g n)) fr.Zero
                   = eval_coefficients coefficients (w i)).
    { apply nth_error_nth. rewrite nth_error_map, nth_error_powers by exact Hi.
      reflexivity. }
    rewrite Hroot, Hval. cbn [Z.of_nat]. rewrite Zmod.pow_0_r.
    fold (u i). fr_unfold. ring. }
  rewrite Hsum.
  pose proof sum_normal as Hnorm.
  pose proof (fr_Mul_Inverse _ (fr_power_of_two_nonzero k Hk)) as Hinv.
  revert Hnorm Hinv. generalize (Ssum 0). generalize (fr.Inverse (fr.SetUint64 (2 ^ k))).
  generalize (fr.SetUint64 (2 ^ k)). generalize (eval_coefficients coefficients z).
  generalize (Zmod.pow z (2 ^ k)). intros zn e c ci s0 Hnorm Hinv. fr_unfold.
  transitivity (Zmod.mul (Zmod.mul e ci) (Zmod.mul (Zmod.sub zn Zmod.one) s0)); [ring|].
  rewrite Hnorm. transitivity (Zmod.mul e (Zmod.mul c ci)); [ring|].
  rewrite Hinv. ring.
Qed.

End Interpolation.

Lemma interpolation_value k (coefficients : list fr.Element) (z : fr.Element) :
  0 <= k <= 32 -> len coefficients <= 2 ^ k ->
  exists index,
    outcome (evaluateLagrangePolynomial (domain_of_log k)
               (map (eval_coefficients coefficients) (Roots (domain_of_log k))) z)
    = Return (Some (eval_coefficients coefficients z), index, None).
Proof.
  intros Hk Hlen.
  assert (Hpow : 0 < 2 ^ k <= 2 ^ 32)
    by (split; [apply Z.pow_pos_nonneg | apply Z.pow_le_mono_r]; lia).
  set (poly := map (eval_coefficients coefficients) (Roots (domain_of_log k))).
  assert (Hpoly : len poly = 2 ^ k).
  { unfold poly, len. cbn [Roots domain_of_log].
    rewrite length_map, length_powers. lia. }
  destruct (findRootIndex_domain_of_log k z Hk) as [(i & Hi & -> & _)|[Hall _]].
  - exists i. apply evaluateLagrangePolynomial_power; [exact Hk | exact Hpoly | exact Hi |].
    unfold poly. cbn [Roots domain_of_log].
    rewrite nth_error_map, nth_error_powers, Z2Nat.id by lia. reflexivity.
  - exists (-1).
    rewrite (evaluateLagrangePolynomial_barycentric (domain_of_log k) poly z).
    + unfold poly. rewrite barycentric_formula_interpolates; [reflexivity | exact Hk | |].
      * intros i Hi. apply Hall. lia.
      * unfold len in Hlen. lia.
    + exact Hpoly.
    + unfold MaxInt. lia.
    + cbn [Cardinality Roots domain_of_log]. unfold len. rewrite length_powers. lia.
    + cbn [Cardinality Roots domain_of_log]. intros i root Hi Hroot.
      rewrite nth_error_powers, Z2Nat.id in Hroot by lia.
      injection Hroot as <-. now apply Hall.
Qed.

(** X9. [evaluateLagrangePolynomial] interpolates.  Take any polynomial of
    degree below the cardinality of a constructed domain, by its
    coefficients, and hand the function its evaluations at the roots: at
    every point, in the domain or not, the function returns the value of
    the polynomial at that point, and no error. *)
Theorem evaluateLagrangePolynomial_interpolates m d
  (coefficients : list fr.Element) (z : fr.Element) :
  0 <= m < 2 ^ 64 -> outcome (NewDomain m) = Return d ->
  len coefficients <= Cardinality d ->
  exists index,
    outcome (evaluateLagrangePolynomial d
               (map (eval_coefficients coefficients) (Roots d)) z)
    = Return (Some (eval_coefficients coefficients z), index, None)
    /\ outcome (EvaluateLagrangePolynomial d
                  (map (eval_coefficients coefficients) (Roots d)) z)
       = Return (Some (eval_coefficients coefficients z), None).
Proof.
  intros Hm Hd Hlen.
  destruct (NewDomain_returns m d Hm Hd) as (k & Hk & _ & _ & _ & ->).
  cbn [Cardinality domain_of_log] in Hlen.
  destruct (interpolation_value k coefficients z Hk Hlen) as (index & Heval).
  exists index. split; [exact Heval|].
  unfold EvaluateLagrangePolynomial. now rewrite (outcome_bind_return _ _ _ Heval).
Qed.

Lemma evaluateLagrangePolynomial_interpolates_witness :
  exists index,
    outcome (evaluateLagrangePolynomial (domain_of_log 2)
               (map (eval_coefficients [fr.One; fr.SetUint64 2; fr.SetUint64 3])
                    (Roots (domain_of_log 2))) (fr.SetUint64 5))
    = Return (Some (eval_coefficients [fr.One; fr.SetUint64 2; fr.SetUint64 3]
                      (fr.SetUint64 5)), index, None)
    /\ outcome (EvaluateLagrangePolynomial (domain_of_log 2)
                  (map (eval_coefficients [fr.One; fr.SetUint64 2; fr.SetUint64 3])
                       (Roots (domain_of_log 2))) (fr.SetUint64 5))
       = Return (Some (eval_coefficients [fr.One; fr.SetUint64 2; fr.SetUint64 3]
                         (fr.SetUint64 5)), None).
Proof.
  apply (evaluateLagrangePolynomial_interpolates 3 (domain_of_log 2)
           [fr.One; fr.SetUint64 2; fr.SetUint64 3] (fr.SetUint64 5)
           ltac:(lia) NewDomain_3).
  unfold len. cbn [Cardinality domain_of_log length]. lia.
Defined.

(** ** The Lagrange coefficients at a point

    [evaluateAllLagrangeCoefficients] of [internal/kzg/domain.go]: the
    values at [tau] of the Lagrange polynomials of the domain.  The powers
    of the generator are recomputed on the way; [Roots] is not read. *)

Definition evaluateAllLagrangeCoefficients (domain : Domain) (tau : fr.Element)
  : M (list fr.Element) :=
  let size := Cardinality domain in
  t_size <- call (fr.Exp tau (int_of_uint64 size)) ;;
  one <- call fr.One ;;
  isOne <- call (fr.IsOne t_size) ;;
  if isOne then
    let u := make fr.Zero size in
    let omega_i := one in
    '(u, _) <- for_loop (Z.to_nat size) 0
      (fun i '(u, omega_i) =>
         equal <- call (fr.Equal omega_i tau) ;;
         u <- (if equal then store u i one else ret u) ;;
         omega_i <- call (fr.Mul omega_i (Generator domain)) ;;
         ret (u, omega_i))
      (u, omega_i) ;;
    ret u
  else
    l <- call (fr.Sub t_size one) ;;
    l <- call (fr.Mul l (CardinalityInv domain)) ;;
    r <- call fr.One ;;
    let u := make fr.Zero size in
    let ls := make fr.Zero size in
    '(u, ls, _, _) <- for_loop (Z.to_nat size) 0
      (fun i '(u, ls, l, r) =>
         diff <- call (fr.Sub tau r) ;;
         u <- store u i diff ;;
         ls <- store ls i l ;;
         l <- call (fr.Mul l (Generator domain)) ;;
         r <- call (fr.Mul r (Generator domain)) ;;
         ret (u, ls, l, r))
      (u, ls, l, r) ;;
    u <- call (fr.BatchInvert u) ;;
    u <- for_loop (Z.to_nat size) 0
      (fun i u =>
         u_i <- index u i ;;
         ls_i <- index ls i ;;
         product <- call (fr.Mul u_i ls_i) ;;
         store u i product)
      u ;;
    ret u.

(** The coefficient of index [i], in closed form. *)
Definition lagrange_coefficient (d : Domain) (tau : fr.Element) (i : nat)
  : fr.Element :=
  let omega_i := Zmod.pow (Generator d) (Z.of_nat i) in
  let t_size := fr.Exp tau (Cardinality d) in
  if fr.IsOne t_size then
    if fr.Equal omega_i tau then fr.One else fr.Zero
  else
    fr.Mul (fr.Inverse (fr.Sub tau omega_i))
           (fr.Mul (fr.Mul (fr.Sub t_size fr.One) (CardinalityInv d)) omega_i).

Lemma indicator_loop (g tau : fr.Element) (n : nat) :
  outcome (for_loop n 0
    (fun i '(u, omega_i) =>
       equal <- call (fr.Equal omega_i tau) ;;
       u <- (if equal then store u i fr.One else ret u) ;;
       omega_i <- call (fr.Mul omega_i g) ;;
       ret (u, omega_i))
    (repeat fr.Zero n, fr.One))
  = Return (map (fun i => if fr.Equal (Zmod.pow g (Z.of_nat i)) tau
                          then fr.One else fr.Zero) (seq 0 n),
            Zmod.pow g (Z.of_nat n)).
Proof.
  set (F := fun i => if fr.Equal (Zmod.pow g (Z.of_nat i)) tau then fr.One else fr.Zero).
  match goal with |- context [for_loop _ _ ?b _] => set (body := b) end.
  destruct (for_loop_rule
    (fun j s => s = (map F (seq 0 j) ++ repeat fr.Zero (n - j), Zmod.pow g (Z.of_nat j)))
    body n 0 (repeat fr.Zero n, fr.One)) as (s & Hs & ->).
  - now rewrite Nat.sub_0_r.
  - intros j s Hj ->. eexists. split.
    + unfold body. rewrite Z.add_0_l. run.
      replace (n - j)%nat with (S (n - S j)) by lia. cbn [repeat].
      assert (Hlen : length (map F (seq 0 j)) = j) by now rewrite length_map, length_seq.
      assert (Hstore : outcome (if fr.Equal (Zmod.pow g (Z.of_nat j)) tau
                       then store (map F (seq 0 j) ++ fr.Zero :: repeat fr.Zero (n - S j))
                                  (Z.of_nat j) fr.One
                       else ret (map F (seq 0 j) ++ fr.Zero :: repeat fr.Zero (n - S j)))
                      = Return (map F (seq 0 j) ++ F j :: repeat fr.Zero (n - S j))).
      { assert (HF : F j = if fr.Equal (Zmod.pow g (Z.of_nat j)) tau
                           then fr.One else fr.Zero) by reflexivity.
        rewrite HF. destruct (fr.Equal (Zmod.pow g (Z.of_nat j)) tau).
        - rewrite outcome_store by (rewrite length_app, Hlen; cbn [length]; lia).
          now rewrite set_nth_app.
        - reflexivity. }
      rewrite Hstore. run. reflexivity.
    + rewrite seq_S, map_app, <- app_assoc. cbn [map app Nat.add]. f_equal.
      rewrite Nat2Z.inj_succ, Zmod.pow_succ_nonneg_r by lia.
      unfold fr.Mul. apply Zmod.mul_comm.
  - rewrite Nat.sub_diag, app_nil_r in Hs. exact Hs.
Qed.

Lemma differences_loop (g tau l0 : fr.Element) (n : nat) :
  outcome (for_loop n 0
    (fun i '(u, ls, l, r) =>
       diff <- call (fr.Sub tau r) ;;
       u <- store u i diff ;;
       ls <- store ls i l ;;
       l <- call (fr.Mul l g) ;;
       r <- call (fr.Mul r g) ;;
       ret (u, ls, l, r))
    (repeat fr.Zero n, repeat fr.Zero n, l0, fr.One))
  = Return (map (fun i => fr.Sub tau (Zmod.pow g (Z.of_nat i))) (seq 0 n),
            map (fun i => fr.Mul l0 (Zmod.pow g (Z.of_nat i))) (seq 0 n),
            fr.Mul l0 (Zmod.pow g (Z.of_nat n)),
            Zmod.pow g (Z.of_nat n)).
Proof.
  set (U := fun i => fr.Sub tau (Zmod.pow g (Z.of_nat i))).
  set (L := fun i => fr.Mul l0 (Zmod.pow g (Z.of_nat i))).
  match goal with |- context [for_loop _ _ ?b _] => set (body := b) end.
  destruct (for_loop_rule
    (fun j s => s = (map U (seq 0 j) ++ repeat fr.Zero (n - j),
                     map L (seq 0 j) ++ repeat fr.Zero (n - j),
                     L j, Zmod.pow g (Z.of_nat j)))
    body n 0 (repeat fr.Zero n, repeat fr.Zero n, l0, fr.One)) as (s & Hs & ->).
  - rewrite Nat.sub_0_r. cbn [seq map app Z.of_nat]. unfold L. cbn [Z.of_nat].
    rewrite Zmod.pow_0_r. do 2 f_equal. fr_unfold. ring.
  - intros j s Hj ->. eexists. split.
    + unfold body. rewrite Z.add_0_l. run.
      replace (n - j)%nat with (S (n - S j)) by lia. cbn [repeat].
      rewrite outcome_store
        by (rewrite length_app, length_map, length_seq; cbn [length]; lia).
      rewrite set_nth_app by now rewrite length_map, length_seq.
      run.
      rewrite outcome_store
        by (rewrite length_app, length_map, length_seq; cbn [length]; lia).
      rewrite set_nth_app by now rewrite length_map, length_seq.
      run. reflexivity.
    + rewrite !seq_S, !map_app, <- !app_assoc. cbn [map app Nat.add].
      fold (U j). f_equal; [f_equal|].
      * unfold L. rewrite Nat2Z.inj_succ, Zmod.pow_succ_nonneg_r by lia.
        fr_unfold. ring.
      * rewrite Nat2Z.inj_succ, Zmod.pow_succ_nonneg_r by lia.
        unfold fr.Mul. apply Zmod.mul_comm.
  - rewrite Nat.sub_diag, !app_nil_r in Hs. exact Hs.
Qed.

Lemma products_loop (u ls : list fr.Element) : length ls = length u ->
  outcome (for_loop (length u) 0
    (fun i u =>
       u_i <- index u i ;;
       ls_i <- index ls i ;;
       product <- call (fr.Mul u_i ls_i) ;;
       store u i product)
    u)
  = Return (map (fun j => fr.Mul (nth j u fr.Zero) (nth j ls fr.Zero))
                (seq 0 (length u))).
Proof.
  intros Hlen.
  rewrite (update_loop (fun j x => fr.Mul x (nth j ls fr.Zero)) _ u fr.Zero);
    [reflexivity|].
  intros j done x rest Hj Hdone.
  rewrite outcome_bind, (outcome_index _ j x)
    by (subst j; now rewrite nth_error_app2, Nat.sub_diag by lia).
  rewrite outcome_bind, (outcome_index ls j (nth j ls fr.Zero))
    by (apply nth_error_nth'; lia).
  run. subst j. rewrite outcome_store by (rewrite length_app; simpl; lia).
  now rewrite set_nth_app.
Qed.

Lemma nth_map_seq {A} (f : nat -> A) (d : A) (n j : nat) : (j < n)%nat ->
  nth j (map f (seq 0 n)) d = f j.
Proof.
  intros Hj. rewrite (nth_indep _ d (f 0%nat)) by now rewrite length_map, length_seq.
  rewrite map_nth, seq_nth by exact Hj. reflexivity.
Qed.

(** On any domain of at most [2^32] points, the largest that [NewDomain]
    builds, the call returns [Cardinality] coefficients, the one of index
    [i] being [lagrange_coefficient]. *)
Lemma evaluateAllLagrangeCoefficients_run (d : Domain) (tau : fr.Element) :
  0 <= Cardinality d <= 2 ^ 32 ->
  outcome (evaluateAllLagrangeCoefficients d tau)
  = Return (map (lagrange_coefficient d tau) (seq 0 (Z.to_nat (Cardinality d)))).
Proof.
  intros Hc. unfold evaluateAllLagrangeCoefficients. run.
  rewrite int_of_uint64_small by (unfold MaxInt; lia).
  set (n := Z.to_nat (Cardinality d)).
  unfold make. fold n.
  destruct (fr.IsOne (fr.Exp tau (Cardinality d))) eqn:HisOne.
  - rewrite outcome_bind, indicator_loop. cbn [outcome ret]. f_equal.
    apply map_ext. intros i. unfold lagrange_coefficient. cbv zeta.
    now rewrite HisOne.
  - run. rewrite differences_loop. run.
    rewrite BatchInvert_correct.
    set (U := fun i => fr.Sub tau (Zmod.pow (Generator d) (Z.of_nat i))).
    set (l0 := fr.Mul (fr.Sub (fr.Exp tau (Cardinality d)) fr.One) (CardinalityInv d)).
    set (L := fun i => fr.Mul l0 (Zmod.pow (Generator d) (Z.of_nat i))).
    assert (Hlen : length (map fr.Inverse (map U (seq 0 n))) = n)
      by now rewrite !length_map, length_seq.
    pose proof (products_loop (map fr.Inverse (map U (seq 0 n))) (map L (seq 0 n))) as Hp.
    rewrite Hlen in Hp. rewrite Hp by now rewrite length_map, length_seq.
    cbn [outcome ret]. f_equal. apply map_ext_in. intros i Hi.
    apply in_seq in Hi. rewrite map_map, !nth_map_seq by lia.
    unfold lagrange_coefficient. cbv zeta. rewrite HisOne. reflexivity.
Qed.

Lemma dot_product_fr_sum (values weights : list fr.Element) :
  length values = length weights ->
  dot_product values weights
  = fr_sum (fun i => fr.Mul (nth i values fr.Zero) (nth i weights fr.Zero))
           (length values).
Proof.
  intros Hlen. unfold dot_product, fr_sum.
  rewrite <- (combine_nth_seq fr.Zero fr.Zero) by exact Hlen.
  now rewrite fold_left_map.
Qed.

Lemma fr_sum_indicator (a : nat -> fr.Element) (j n : nat) : (j < n)%nat ->
  fr_sum (fun i => fr.Mul (a i) (if Nat.eqb i j then fr.One else fr.Zero)) n = a j.
Proof.
  intros Hj.
  assert (Hbelow : forall m, (m <= j)%nat ->
            fr_sum (fun i => fr.Mul (a i) (if Nat.eqb i j then fr.One else fr.Zero)) m
            = fr.Zero).
  { intros m Hm. rewrite (fr_sum_ext _ (fun _ => fr.Zero)); [apply fr_sum_zero|].
    intros i Hi. destruct (Nat.eqb_spec i j); [lia|]. fr_unfold. ring. }
  induction n as [|n IH]; [lia|]. rewrite fr_sum_S.
  destruct (Nat.eqb_spec n j) as [->|Hne].
  - rewrite Hbelow by lia. fr_unfold. ring.
  - rewrite IH by lia. fr_unfold. ring.
Qed.

(** The closed form on a constructed domain: an indicator at a point of
    the domain, the barycentric weights elsewhere. *)
Lemma lagrange_coefficient_on_domain k j i : 0 <= k <= 32 -> 0 <= j < 2 ^ k ->
  (i < Z.to_nat (2 ^ k))%nat ->
  lagrange_coefficient (domain_of_log k) (Zmod.pow (generator_of_log k) j) i
  = if Nat.eqb i (Z.to_nat j) then fr.One else fr.Zero.
Proof.
  intros Hk Hj Hi. unfold lagrange_coefficient. cbv zeta.
  cbn [Cardinality Generator domain_of_log].
  assert (Hpow : 0 < 2 ^ k) by (apply Z.pow_pos_nonneg; lia).
  rewrite fr_Exp_pos, root_order by lia.
  assert (H1 : fr.IsOne fr.One = true) by (vm_compute; reflexivity).
  rewrite H1.
  destruct (fr_Equal_spec (Zmod.pow (generator_of_log k) (Z.of_nat i))
                          (Zmod.pow (generator_of_log k) j)) as [E|NE];
    destruct (Nat.eqb_spec i (Z.to_nat j)) as [E'|NE']; try reflexivity.
  - apply generator_powers_injective in E; lia.
  - exfalso. apply NE. f_equal. lia.
Qed.

Lemma fr_IsOne_false (x : fr.Element) : x <> fr.One -> fr.IsOne x = false.
Proof.
  intros Hx. destruct (fr.IsOne x) eqn:E; [|reflexivity].
  exfalso. apply Hx. unfold fr.IsOne in E. now apply Zmod.eqb_eq in E.
Qed.

Lemma lagrange_coefficient_off_domain k (tau : fr.Element) i : 0 <= k <= 32 ->
  (forall j, 0 <= j < 2 ^ k -> Zmod.pow (generator_of_log k) j <> tau) ->
  lagrange_coefficient (domain_of_log k) tau i
  = fr.Mul (fr.Inverse (fr.Sub tau (Zmod.pow (generator_of_log k) (Z.of_nat i))))
           (fr.Mul (fr.Mul (fr.Sub (fr.Exp tau (2 ^ k)) fr.One)
                           (fr.Inverse (fr.SetUint64 (2 ^ k))))
                   (Zmod.pow (generator_of_log k) (Z.of_nat i))).
Proof.
  intros Hk Hoff. unfold lagrange_coefficient. cbv zeta.
  cbn [Cardinality CardinalityInv Generator domain_of_log].
  assert (Hpow : 0 < 2 ^ k) by (apply Z.pow_pos_nonneg; lia).
  rewrite fr_IsOne_false; [reflexivity|].
  rewrite fr_Exp_pos by lia. intros Hz.
  destruct (unity_roots_are_powers (Z.to_nat k) ltac:(lia) tau) as (j & Hj & E).
  - rewrite Z2Nat.id by lia. exact Hz.
  - rewrite Z2Nat.id in Hj, E by lia. apply (Hoff j Hj). now symmetry.
Qed.

(** The inner product of the evaluations with the coefficients is the
    value that [evaluateLagrangePolynomial] returns. *)
Lemma inner_product_value k (poly : Polynomial) (tau : fr.Element) :
  0 <= k <= 32 -> len poly = 2 ^ k ->
  exists value index,
    outcome (evaluateLagrangePolynomial (domain_of_log k) poly tau)
    = Return (Some value, index, None)
    /\ dot_product poly
         (map (lagrange_coefficient (domain_of_log k) tau) (seq 0 (Z.to_nat (2 ^ k))))
       = value.
Proof.
  intros Hk Hlen.
  assert (Hpow : 0 < 2 ^ k <= 2 ^ 32)
    by (split; [apply Z.pow_pos_nonneg | apply Z.pow_le_mono_r]; lia).
  set (n := Z.to_nat (2 ^ k)).
  assert (Hn : length poly = n) by (unfold len in Hlen; lia).
  rewrite dot_product_fr_sum by (now rewrite length_map, length_seq).
  rewrite Hn.
  destruct (findRootIndex_domain_of_log k tau Hk) as [(j & Hj & -> & _)|[Hall _]].
  - destruct (nth_error poly (Z.to_nat j)) as [value|] eqn:Hvalue.
    2:{ apply nth_error_None in Hvalue. lia. }
    exists value, j. split.
    + now apply evaluateLagrangePolynomial_power.
    + rewrite (fr_sum_ext _
        (fun i => fr.Mul (nth i poly fr.Zero)
                         (if Nat.eqb i (Z.to_nat j) then fr.One else fr.Zero))).
      * rewrite fr_sum_indicator by lia. now apply nth_error_nth.
      * intros i Hi. rewrite nth_map_seq by exact Hi.
        now rewrite lagrange_coefficient_on_domain.
  - exists (barycentric_formula (domain_of_log k) poly tau), (-1). split.
    + apply evaluateLagrangePolynomial_barycentric.
      * exact Hlen.
      * unfold MaxInt. lia.
      * cbn [Cardinality Roots domain_of_log]. unfold len. rewrite length_powers. lia.
      * cbn [Cardinality Roots domain_of_log]. intros i root Hi Hroot.
        rewrite nth_error_powers, Z2Nat.id in Hroot by lia.
        injection Hroot as <-. now apply Hall.
    + unfold barycentric_formula, barycentric_sum.
      cbn [Cardinality CardinalityInv Roots domain_of_log]. fold n.
      fold (fr_sum (lagrange_term poly (powers (generator_of_log k) n) tau) n).
      rewrite <- fr_sum_scale. apply fr_sum_ext. intros i Hi.
      rewrite nth_map_seq by exact Hi.
      rewrite lagrange_coefficient_off_domain by assumption.
      unfold lagrange_term.
      assert (Hroot : nth i (powers (generator_of_log k) n) fr.Zero
                      = Zmod.pow (generator_of_log k) (Z.of_nat i)).
      { apply nth_error_nth. now apply nth_error_powers. }
      rewrite Hroot. fr_unfold. ring.
Qed.

Lemma nth_error_seq_0 (n i : nat) : (i < n)%nat ->
  nth_error (seq 0 n) i = Some i.
Proof.
  intros Hi. rewrite (nth_error_nth' _ 0%nat) by now rewrite length_seq.
  now rewrite seq_nth.
Qed.

(** X10. On any domain whose cardinality is at most [2^32], the largest that
    [NewDomain] builds, [evaluateAllLagrangeCoefficients] returns
    [Cardinality] coefficients, with no index out of range.  When
    [tau^Cardinality = 1] the coefficient of index [i] is one if
    [Generator^i = tau] and zero otherwise; else it is
    [(tau - Generator^i)^-1 * ((tau^Cardinality - 1) * CardinalityInv * Generator^i)]. *)
Theorem evaluateAllLagrangeCoefficients_closed_form (d : Domain) (tau : fr.Element) :
  0 <= Cardinality d <= 2 ^ 32 ->
  exists u, outcome (evaluateAllLagrangeCoefficients d tau) = Return u
    /\ len u = Cardinality d
    /\ forall i, 0 <= i < Cardinality d ->
         nth_error u (Z.to_nat i)
         = Some (if fr.IsOne (fr.Exp tau (Cardinality d)) then
                   if fr.Equal (fr.Exp (Generator d) i) tau then fr.One else fr.Zero
                 else
                   fr.Mul (fr.Inverse (fr.Sub tau (fr.Exp (Generator d) i)))
                          (fr.Mul (fr.Mul (fr.Sub (fr.Exp tau (Cardinality d)) fr.One)
                                          (CardinalityInv d))
                                  (fr.Exp (Generator d) i))).
Proof.
  intros Hc. eexists. split; [now apply evaluateAllLagrangeCoefficients_run|].
  split; [unfold len; rewrite length_map, length_seq; lia|].
  intros i Hi. rewrite nth_error_map.
  rewrite nth_error_seq_0 by lia. cbn [option_map]. unfold lagrange_coefficient. cbv zeta.
  rewrite Z2Nat.id by lia. rewrite (fr_Exp_nonneg (Generator d) i) by lia.
  reflexivity.
Qed.

Lemma evaluateAllLagrangeCoefficients_closed_form_witness :
  exists u,
    outcome (evaluateAllLagrangeCoefficients (domain_of_log 2) (fr.SetUint64 5))
    = Return u
    /\ len u = Cardinality (domain_of_log 2).
Proof.
  assert (Hc : 0 <= Cardinality (domain_of_log 2) <= 2 ^ 32)
    by (cbn [Cardinality domain_of_log]; lia).
  destruct (evaluateAllLagrangeCoefficients_closed_form (domain_of_log 2)
              (fr.SetUint64 5) Hc) as (u & H1 & H2 & _).
  exists u. exact (conj H1 H2).
Defined.

(** X11. At the root of index [j] of a constructed domain the coefficients are
    the indicator of [j]: one at index [j], zero at every other index. *)
Theorem evaluateAllLagrangeCoefficients_at_root m d :
  0 <= m < 2 ^ 64 -> outcome (NewDomain m) = Return d ->
  forall j, 0 <= j < Cardinality d ->
    exists root u,
      nth_error (Roots d) (Z.to_nat j) = Some root
      /\ outcome (evaluateAllLagrangeCoefficients d root) = Return u
      /\ len u = Cardinality d
      /\ forall i, 0 <= i < Cardinality d ->
           nth_error u (Z.to_nat i) = Some (if i =? j then fr.One else fr.Zero).
Proof.
  intros Hm Hd.
  destruct (NewDomain_returns m d Hm Hd) as (k & Hk & _ & _ & _ & ->).
  cbn [Cardinality Roots domain_of_log]. intros j Hj.
  assert (Hpow : 0 < 2 ^ k <= 2 ^ 32)
    by (split; [apply Z.pow_pos_nonneg | apply Z.pow_le_mono_r]; lia).
  exists (Zmod.pow (generator_of_log k) j). eexists.
  split; [rewrite nth_error_powers, Z2Nat.id by lia; reflexivity|].
  split; [apply evaluateAllLagrangeCoefficients_run;
          cbn [Cardinality domain_of_log]; unfold MaxInt; lia|].
  cbn [Cardinality domain_of_log].
  split; [unfold len; rewrite length_map, length_seq; lia|].
  intros i Hi. rewrite nth_error_map.
  rewrite nth_error_seq_0 by lia. cbn [option_map].
  rewrite lagrange_coefficient_on_domain by lia.
  destruct (Nat.eqb_spec (Z.to_nat i) (Z.to_nat j)), (Z.eqb_spec i j);
    try reflexivity; lia.
Qed.

Lemma evaluateAllLagrangeCoefficients_at_root_witness :
  exists root u,
    nth_error (Roots (domain_of_log 2)) (Z.to_nat 1) = Some root
    /\ outcome (evaluateAllLagrangeCoefficients (domain_of_log 2) root) = Return u
    /\ len u = Cardinality (domain_of_log 2)
    /\ forall i, 0 <= i < Cardinality (domain_of_log 2) ->
         nth_error u (Z.to_nat i) = Some (if i =? 1 then fr.One else fr.Zero).
Proof.
  apply (evaluateAllLagrangeCoefficients_at_root 3 (domain_of_log 2)
           ltac:(lia) NewDomain_3 1).
  cbn [Cardinality domain_of_log]. lia.
Defined.

(** X12. The two evaluation routines agree.  On a constructed domain and for
    every point, the inner product of the evaluations [poly] with the
    coefficients that [evaluateAllLagrangeCoefficients] returns is the value
    that [evaluateLagrangePolynomial] returns. *)
Theorem evaluateAllLagrangeCoefficients_inner_product m d (poly : Polynomial)
  (tau : fr.Element) :
  0 <= m < 2 ^ 64 -> outcome (NewDomain m) = Return d ->
  len poly = Cardinality d ->
  exists u value index,
    outcome (evaluateAllLagrangeCoefficients d tau) = Return u
    /\ outcome (evaluateLagrangePolynomial d poly tau)
       = Return (Some value, index, None)
    /\ dot_product poly u = value.
Proof.
  intros Hm Hd Hlen.
  destruct (NewDomain_returns m d Hm Hd) as (k & Hk & _ & _ & _ & ->).
  cbn [Cardinality domain_of_log] in Hlen.
  assert (Hpow : 0 < 2 ^ k <= 2 ^ 32)
    by (split; [apply Z.pow_pos_nonneg | apply Z.pow_le_mono_r]; lia).
  destruct (inner_product_value k poly tau Hk Hlen) as (value & index & Heval & Hdot).
  eexists. exists value, index.
  split; [apply evaluateAllLagrangeCoefficients_run;
          cbn [Cardinality domain_of_log]; unfold MaxInt; lia|].
  split; [exact Heval | exact Hdot].
Qed.

Lemma evaluateAllLagrangeCoefficients_inner_product_witness :
  exists u value index,
    outcome (evaluateAllLagrangeCoefficients (domain_of_log 2) (fr.SetUint64 5))
    = Return u
    /\ outcome (evaluateLagrangePolynomial (domain_of_log 2) example_poly (fr.SetUint64 5))
       = Return (Some value, index, None)
    /\ dot_product example_poly u = value.
Proof.
  apply (evaluateAllLagrangeCoefficients_inner_product 3 (domain_of_log 2)
           example_poly (fr.SetUint64 5) ltac:(lia) NewDomain_3).
  reflexivity.
Defined.

(** X13. The coefficients reproduce polynomials.  For every polynomial of
    degree below the cardinality of a constructed domain, the inner product
    of its evaluations at the roots with the coefficients at [tau] is its
    value at [tau]; in particular the coefficients sum to one. *)
Theorem evaluateAllLagrangeCoefficients_reproduces m d
  (coefficients : list fr.Element) (tau : fr.Element) :
  0 <= m < 2 ^ 64 -> outcome (NewDomain m) = Return d ->
  len coefficients <= Cardinality d ->
  exists u,
    outcome (evaluateAllLagrangeCoefficients d tau) = Return u
    /\ dot_product (map (eval_coefficients coefficients) (Roots d)) u
       = eval_coefficients coefficients tau
    /\ dot_product (map (fun _ => fr.One) (Roots d)) u = fr.One.
Proof.
  intros Hm Hd Hlen.
  destruct (NewDomain_returns m d Hm Hd) as (k & Hk & _ & _ & _ & ->).
  cbn [Cardinality domain_of_log] in Hlen.
  assert (Hpow : 0 < 2 ^ k <= 2 ^ 32)
    by (split; [apply Z.pow_pos_nonneg | apply Z.pow_le_mono_r]; lia).
  assert (Hreproduce : forall c, len c <= 2 ^ k ->
            dot_product (map (eval_coefficients c) (Roots (domain_of_log k)))
              (map (lagrange_coefficient (domain_of_log k) tau) (seq 0 (Z.to_nat (2 ^ k))))
            = eval_coefficients c tau).
  { intros c Hc.
    destruct (inner_product_value k (map (eval_coefficients c) (Roots (domain_of_log k))) tau Hk)
      as (value & index & Heval & Hdot).
    - cbn [Roots domain_of_log]. unfold len. rewrite length_map, length_powers. lia.
    - destruct (interpolation_value k c tau Hk Hc) as (index' & Heval').
      rewrite Heval in Heval'. injection Heval' as Hvalue _. now rewrite Hdot. }
  eexists.
  split; [apply evaluateAllLagrangeCoefficients_run;
          cbn [Cardinality domain_of_log]; unfold MaxInt; lia|].
  cbn [Cardinality domain_of_log]. split; [now apply Hreproduce|].
  specialize (Hreproduce [fr.One] ltac:(unfold len; cbn [length]; lia)).
  assert (Hone : forall x, eval_coefficients [fr.One] x = fr.One)
    by (intros x; cbn [eval_coefficients fold_right]; fr_unfold; ring).
  rewrite Hone in Hreproduce. etransitivity; [|exact Hreproduce]. f_equal.
  apply map_ext. intros x. now rewrite Hone.
Qed.

Lemma evaluateAllLagrangeCoefficients_reproduces_witness :
  exists u,
    outcome (evaluateAllLagrangeCoefficients (domain_of_log 2) (fr.SetUint64 5))
    = Return u
    /\ dot_product (map (eval_coefficients [fr.One; fr.SetUint64 2; fr.SetUint64 3])
                        (Roots (domain_of_log 2))) u
       = eval_coefficients [fr.One; fr.SetUint64 2; fr.SetUint64 3] (fr.SetUint64 5)
    /\ dot_product (map (fun _ => fr.One) (Roots (domain_of_log 2))) u = fr.One.
Proof.
  apply (evaluateAllLagrangeCoefficients_reproduces 3 (domain_of_log 2)
           [fr.One; fr.SetUint64 2; fr.SetUint64 3] (fr.SetUint64 5)
           ltac:(lia) NewDomain_3).
  unfold len. cbn [Cardinality domain_of_log length]. lia.
Defined.

(** ** [fold] on slices of any lengths *)

(** A loop whose body panics at the step [j0], having run the steps before
    it, panics. *)
Lemma for_loop_panic {State} (body : Z -> State -> M State) (p : panic) :
  forall (n : nat) (i0 : Z) (s0 : State) (j0 : nat),
  (j0 < n)%nat ->
  (forall j s, (j < j0)%nat ->
     exists s', outcome (body (i0 + Z.of_nat j) s) = Return s') ->
  (forall s, outcome (body (i0 + Z.of_nat j0) s) = Panic p) ->
  outcome (for_loop n i0 body s0) = Panic p.
Proof.
  induction n as [|n IH]; intros i0 s0 j0 Hj0 Hbefore Hat; [lia|].
  cbn [for_loop]. rewrite outcome_bind. destruct j0 as [|j0].
  - specialize (Hat s0). rewrite Z.add_0_r in Hat. now rewrite Hat.
  - destruct (Hbefore O s0 ltac:(lia)) as (s1 & Hs1).
    rewrite Z.add_0_r in Hs1. rewrite Hs1.
    apply (IH (i0 + 1) s1 j0); [lia | |].
    + intros j s Hj. destruct (Hbefore (S j) s ltac:(lia)) as (s' & Hs').
      exists s'. rewrite <- Hs'. do 2 f_equal. lia.
    + intros s. rewrite <- (Hat s). do 2 f_equal. lia.
Qed.

Section FoldLengths.
Context {C : Curve}.

Lemma fold_loop (evaluations factors : list fr.Element) (n : nat) :
  (n <= length evaluations)%nat -> (n <= length factors)%nat ->
  outcome (for_loop n 0
    (fun i foldedEvaluations =>
       evaluation <- index evaluations i ;;
       factor <- index factors i ;;
       tmp <- call (fr.Mul evaluation factor) ;;
       call (fr.Add foldedEvaluations tmp))
    fr.Zero)
  = Return (dot_product (firstn n evaluations) (firstn n factors)).
Proof.
  intros He Hf.
  match goal with |- context [for_loop _ _ ?b _] => set (body := b) end.
  destruct (for_loop_rule
    (fun j s => s = fold_left
       (fun acc i => fr.Add acc (fr.Mul (nth i evaluations fr.Zero) (nth i factors fr.Zero)))
       (seq 0 j) fr.Zero)
    body n 0 fr.Zero) as (s & Hs & ->).
  - reflexivity.
  - intros j s Hj ->. eexists. split.
    + unfold body. rewrite Z.add_0_l.
      rewrite outcome_bind, (outcome_index evaluations j (nth j evaluations fr.Zero))
        by (apply nth_error_nth'; lia).
      rewrite outcome_bind, (outcome_index factors j (nth j factors fr.Zero))
        by (apply nth_error_nth'; lia).
      run. reflexivity.
    + now rewrite seq_S, fold_left_app.
  - rewrite Hs. f_equal. rewrite dot_product_fr_sum
      by (rewrite !length_firstn; lia).
    rewrite length_firstn, Nat.min_l by exact He.
    apply (fr_sum_ext
      (fun i => fr.Mul (nth i evaluations fr.Zero) (nth i factors fr.Zero))).
    intros i Hi. now rewrite !nth_firstn, (proj2 (Nat.ltb_lt i n) Hi).
Qed.

(** X14. [fold] checks no length.  When [evaluations] or [factors] is shorter
    than [commitments] its loop reads past the end and panics.  Otherwise
    the folded value is the inner product of the first [len(commitments)]
    evaluations and factors; the folded commitment is the multi-
    exponentiation when there are exactly as many factors as commitments,
    and the error of [MultiExp] comes back when there are more. *)
Theorem fold_lengths (commitments : list Commitment)
  (evaluations factors : list fr.Element) :
  (len evaluations < len commitments \/ len factors < len commitments ->
     outcome (fold commitments evaluations factors) = Panic IndexOutOfRange)
  /\ (len commitments <= len evaluations -> len factors = len commitments ->
        outcome (fold commitments evaluations factors)
        = Return (multi_exp_sum commitments factors,
                  dot_product (firstn (length commitments) evaluations) factors,
                  None))
  /\ (len commitments <= len evaluations -> len commitments < len factors ->
        outcome (fold commitments evaluations factors)
        = Return (g1_zero,
                  dot_product (firstn (length commitments) evaluations)
                              (firstn (length commitments) factors),
                  Some (LibraryError "len(points) != len(scalars)"))).
Proof.
  unfold len. split; [|split].
  - intros Hshort. unfold fold, len. rewrite Nat2Z.id, outcome_bind.
    set (j0 := Nat.min (length evaluations) (length factors)).
    rewrite (for_loop_panic _ IndexOutOfRange (length commitments) 0 fr.Zero j0);
      [reflexivity | lia | |].
    + intros j s Hj. rewrite Z.add_0_l.
      rewrite outcome_bind, (outcome_index evaluations j (nth j evaluations fr.Zero))
        by (apply nth_error_nth'; lia).
      rewrite outcome_bind, (outcome_index factors j (nth j factors fr.Zero))
        by (apply nth_error_nth'; lia).
      run. eexists. reflexivity.
    + intros s. rewrite Z.add_0_l, outcome_bind.
      destruct (Nat.lt_ge_cases j0 (length evaluations)) as [He|He].
      * rewrite (outcome_index evaluations j0 (nth j0 evaluations fr.Zero))
          by (apply nth_error_nth'; lia).
        rewrite outcome_bind, outcome_index_out; [reflexivity|]. unfold len. lia.
      * rewrite outcome_index_out; [reflexivity|]. unfold len. lia.
  - intros He Hf. unfold fold, len. rewrite Nat2Z.id, outcome_bind.
    rewrite fold_loop by lia.
    rewrite MultiExp_ok by (symmetry; apply Nat2Z.inj; exact Hf).
    cbn [outcome ret]. do 2 f_equal.
    replace (length commitments) with (length factors) at 2
      by (apply Nat2Z.inj; exact Hf).
    now rewrite firstn_all.
  - intros He Hf. unfold fold, len. rewrite Nat2Z.id, outcome_bind.
    rewrite fold_loop by lia. unfold MultiExp, len.
    unfold Commitment in *.
    match goal with |- context [?a =? ?b] => destruct (Z.eqb_spec a b) end; [lia|].
    reflexivity.
Qed.

End FoldLengths.

Lemma fold_lengths_witness :
  outcome (fold (C := ExponentCurve) [fr.One; fr.One] [fr.One] [fr.One; fr.One])
  = Panic IndexOutOfRange.
Proof.
  apply (proj1 (fold_lengths (C := ExponentCurve) [fr.One; fr.One] [fr.One]
                  [fr.One; fr.One])).
  left. unfold len. cbn [length]. lia.
Defined.

(** ** Batch verification: what the call returns *)

Section BatchOutcome.
Context {C : Curve}.

(** A batch of two or more, with a scalar drawn: the verdict of the one
    pairing check on the folded points. *)
Lemma BatchVerifyMultiPoints_folded (commitments : list Commitment)
  (proofs : list OpeningProof) (openKey : OpeningKey) (r : fr.Element) :
  len commitments = len proofs -> 2 <= len commitments <= MaxInt ->
  outcome (BatchVerifyMultiPoints commitments proofs openKey (r, None))
  = Return (verdict (fst (folded_check commitments proofs openKey r))).
Proof.
  intros Hlen Hsize. unfold BatchVerifyMultiPoints.
  rewrite Hlen, Z.eqb_refl. cbn [negb].
  destruct (Z.eqb_spec (len proofs) 0) as [|_]; [lia|].
  destruct (Z.eqb_spec (len proofs) 1) as [|_]; [lia|].
  assert (Hn : length commitments = length proofs) by (unfold len in Hlen; lia).
  run. rewrite uint64_of_int_small by lia.
  set (weights := ComputePowers r (len proofs)).
  assert (Hw : length weights = length proofs)
    by (unfold weights, len; now rewrite length_ComputePowers, Nat2Z.id).
  unfold make, len. rewrite !Nat2Z.id.
  rewrite quotients_loop.
  rewrite MultiExp_ok by (now rewrite length_map, Hw).
  run. rewrite Hw, evaluations_loop. run.
  rewrite fold_outcome by (now rewrite ?length_map, ?Hw).
  run.
  rewrite <- Hw at 1. rewrite weights_loop by exact Hw.
  rewrite MultiExp_ok
    by (now rewrite !length_map, length_combine, Hw, Nat.min_id).
  unfold folded_check, folded_points. rewrite Hlen. fold weights.
  unfold PairingCheck.
  cbn [len length Z.of_nat Z.eqb Pos.eqb negb orb Pos.of_succ_nat Pos.succ fst].
  unfold verdict. destruct (gt_eqb _ _); reflexivity.
Qed.

Lemma Verify_returns (commitment : Commitment) (proof : OpeningProof)
  (openKey : OpeningKey) :
  exists result, outcome (Verify commitment proof openKey) = Return result.
Proof.
  unfold Verify. run.
  destruct (PairingCheckFixedQ _ _) as [check [e|]]; [eexists; reflexivity|].
  destruct check; eexists; reflexivity.
Qed.

(** X15. [BatchVerifyMultiPoints] first compares the two lengths: when they
    differ it returns [ErrInvalidNumDigests] at once, before any scalar is
    drawn or any field operation made.  When they agree the call returns,
    it does not panic; and in a batch of two or more with a scalar drawn,
    what it returns is nil or [ErrVerifyOpeningProof]. *)
Theorem BatchVerifyMultiPoints_outcomes (commitments : list Commitment)
  (proofs : list OpeningProof) (openKey : OpeningKey)
  (SetRandom : fr.Element * option error) :
  len commitments <= MaxInt ->
  (len commitments <> len proofs ->
     BatchVerifyMultiPoints commitments proofs openKey SetRandom
     = Run (Return (Some ErrInvalidNumDigests)) 0)
  /\ (len commitments = len proofs ->
        exists result,
          outcome (BatchVerifyMultiPoints commitments proofs openKey SetRandom)
          = Return result)
  /\ (len commitments = len proofs -> 2 <= len commitments ->
        snd SetRandom = None ->
        outcome (BatchVerifyMultiPoints commitments proofs openKey SetRandom)
        = Return None
        \/ outcome (BatchVerifyMultiPoints commitments proofs openKey SetRandom)
           = Return (Some ErrVerifyOpeningProof)).
Proof.
  intros Hmax. split; [|split].
  - intros Hne. unfold BatchVerifyMultiPoints.
    destruct (Z.eqb_spec (len commitments) (len proofs)); [contradiction|].
    reflexivity.
  - intros Hlen. destruct (Z.le_gt_cases 2 (len commitments)) as [H2|H2].
    + destruct SetRandom as [r [e|]].
      * exists (Some e). unfold BatchVerifyMultiPoints.
        rewrite Hlen, Z.eqb_refl. cbn [negb].
        destruct (Z.eqb_spec (len proofs) 0) as [|_]; [lia|].
        destruct (Z.eqb_spec (len proofs) 1) as [|_]; [lia|].
        run. reflexivity.
      * eexists. apply BatchVerifyMultiPoints_folded; [exact Hlen | lia].
    + destruct commitments as [|c [|c' commitments]], proofs as [|p [|p' proofs]];
        unfold len in *; cbn [length] in *; try lia.
      * exists None. reflexivity.
      * destruct (Verify_returns c p openKey) as (result & Hresult).
        exists result. rewrite <- Hresult. unfold BatchVerifyMultiPoints.
        cbn [len length Z.of_nat Z.eqb Pos.eqb negb Pos.of_succ_nat].
        unfold index. cbn [Z.ltb Z.compare Z.to_nat nth_error].
        now rewrite !outcome_bind.
  - intros Hlen H2 Hdraw. destruct SetRandom as [r e]. cbn [snd] in Hdraw. subst e.
    rewrite BatchVerifyMultiPoints_folded by (try exact Hlen; lia).
    unfold verdict. destruct (fst _); [left | right]; reflexivity.
Qed.

End BatchOutcome.

Lemma BatchVerifyMultiPoints_outcomes_witness :
  BatchVerifyMultiPoints example_commitments [example_proof] example_key
    (fr.One, None)
  = Run (Return (Some ErrInvalidNumDigests)) 0.
Proof.
  refine (proj1 (BatchVerifyMultiPoints_outcomes example_commitments [example_proof]
                   example_key (fr.One, None) _) _).
  - unfold len, MaxInt. cbn [length example_commitments]. lia.
  - unfold len. cbn [length example_commitments]. lia.
Defined.

(** ** Scalar multiplication, and what folding proves

    Scalar multiplication is the action of the integers on the first
    group.  With it, the one pairing check of a batch is the product of
    the checks of its proofs, each raised to its weight. *)

Class ScalarLaws (C : Curve) : Prop := {
  g1_mul_one : forall p, g1_mul 1 p = p;
  g1_mul_mul : forall a b p, g1_mul (a * b) p = g1_mul a (g1_mul b p);
  g1_mul_distr : forall a p q, g1_mul a (g1_add p q) = g1_add (g1_mul a p) (g1_mul a q)
}.

#[export] Instance ExponentScalarLaws : ScalarLaws ExponentCurve.
Proof.
  split; cbn [G1Affine g1_add g1_mul ExponentCurve]; intros; fr_unfold.
  - rewrite Zmod.of_Z_1. ring.
  - rewrite Zmod.of_Z_mul. ring.
  - ring.
Qed.

Section Scalars.
Context {C : Curve} {L : CurveLaws C} {SL : ScalarLaws C}.

#[local] Existing Instance g1_add_Associative.
#[local] Existing Instance g1_add_Commutative.
#[local] Existing Instance g1_add_Unit.
#[local] Existing Instance gt_mul_Associative.
#[local] Existing Instance gt_mul_Commutative.
#[local] Existing Instance gt_mul_Unit.

Lemma g1_neg_unique (p q : G1Affine) : g1_add p q = g1_zero -> q = g1_neg p.
Proof.
  intros H.
  transitivity (g1_add (g1_neg p) (g1_add p q)).
  - symmetry. aac_rewrite g1_add_neg. aac_reflexivity.
  - rewrite H. aac_reflexivity.
Qed.

Lemma g1_neg_add (p q : G1Affine) :
  g1_neg (g1_add p q) = g1_add (g1_neg p) (g1_neg q).
Proof.
  symmetry. apply g1_neg_unique.
  aac_rewrite g1_add_neg. aac_rewrite g1_add_neg. aac_reflexivity.
Qed.

Lemma g1_mul_zero_point (a : Z) : g1_mul a g1_zero = g1_zero.
Proof.
  rewrite <- (g1_mul_zero g1_zero) at 1.
  now rewrite <- g1_mul_mul, Z.mul_0_r, g1_mul_zero.
Qed.

Lemma g1_mul_neg_point (a : Z) (p : G1Affine) :
  g1_mul a (g1_neg p) = g1_neg (g1_mul a p).
Proof.
  apply g1_neg_unique. now rewrite <- g1_mul_distr, g1_add_neg, g1_mul_zero_point.
Qed.

Lemma g1_mul_mod (x : Z) (p : G1Affine) : g1_mul (x mod fr.Modulus) p = g1_mul x p.
Proof.
  rewrite (Z.div_mod x fr.Modulus) at 2 by (unfold fr.Modulus; lia).
  rewrite g1_mul_add, g1_mul_mul, g1_mul_order. now rewrite g1_add_zero.
Qed.

Lemma g1_mul_Add (a b : fr.Element) (p : G1Affine) :
  g1_mul (fr.BigInt (fr.Add a b)) p
  = g1_add (g1_mul (fr.BigInt a) p) (g1_mul (fr.BigInt b) p).
Proof.
  unfold fr.BigInt, fr.Add. now rewrite Zmod.unsigned_add, g1_mul_mod, g1_mul_add.
Qed.

Lemma g1_mul_Mul (a b : fr.Element) (p : G1Affine) :
  g1_mul (fr.BigInt (fr.Mul a b)) p
  = g1_mul (fr.BigInt a) (g1_mul (fr.BigInt b) p).
Proof.
  unfold fr.BigInt, fr.Mul. now rewrite Zmod.unsigned_mul, g1_mul_mod, g1_mul_mul.
Qed.

Lemma g1_mul_Zero (p : G1Affine) : g1_mul (fr.BigInt fr.Zero) p = g1_zero.
Proof. apply g1_mul_zero. Qed.

Lemma g1_mul_One (p : G1Affine) : g1_mul (fr.BigInt fr.One) p = p.
Proof.
  unfold fr.BigInt, fr.One. rewrite Zmod.unsigned_1, Z.mod_1_l by (unfold fr.Modulus; lia).
  apply g1_mul_one.
Qed.

Lemma g1_mul_Neg_point (a : fr.Element) (p : G1Affine) :
  g1_mul (fr.BigInt (fr.Neg a)) p = g1_neg (g1_mul (fr.BigInt a) p).
Proof.
  apply g1_neg_unique. rewrite g1_add_comm. apply g1_mul_Neg.
Qed.

(** A product of two pairings that is one stays one when both points are
    multiplied by the same scalar. *)
Lemma pairing_scaling (d q : G1Affine) (q1 q2 : G2Affine) (a : Z) : 0 <= a ->
  gt_mul (pair d q1) (pair q q2) = gt_one ->
  gt_mul (pair (g1_mul a d) q1) (pair (g1_mul a q) q2) = gt_one.
Proof.
  intros Ha H. rewrite <- (Z2Nat.id a) by exact Ha.
  induction (Z.to_nat a) as [|n IH].
  - cbn [Z.of_nat]. rewrite !g1_mul_zero, !pair_zero. aac_reflexivity.
  - rewrite Nat2Z.inj_succ. unfold Z.succ.
    rewrite !g1_mul_add, !g1_mul_one, !pair_add.
    transitivity (gt_mul (gt_mul (pair (g1_mul (Z.of_nat n) d) q1)
                                 (pair (g1_mul (Z.of_nat n) q) q2))
                         (gt_mul (pair d q1) (pair q q2))); [aac_reflexivity|].
    rewrite IH, H. aac_reflexivity.
Qed.

Lemma BigInt_nonneg (a : fr.Element) : 0 <= fr.BigInt a.
Proof.
  unfold fr.BigInt.
  pose proof (Zmod.unsigned_pos_bound a ltac:(unfold fr.Modulus; lia)). lia.
Qed.

(** And back, when the scalar is not zero. *)
Lemma pairing_unscaling (d q : G1Affine) (q1 q2 : G2Affine) (w : fr.Element) :
  w <> fr.Zero ->
  gt_mul (pair (g1_mul (fr.BigInt w) d) q1) (pair (g1_mul (fr.BigInt w) q) q2) = gt_one ->
  gt_mul (pair d q1) (pair q q2) = gt_one.
Proof.
  intros Hw H.
  apply (pairing_scaling _ _ _ _ (fr.BigInt (fr.Inverse w)) (BigInt_nonneg _)) in H.
  rewrite <- !g1_mul_Mul in H.
  assert (E : fr.Mul (fr.Inverse w) w = fr.One).
  { rewrite <- (fr_Mul_Inverse w Hw). fr_unfold. ring. }
  now rewrite E, !g1_mul_One in H.
Qed.

Lemma g1_neg_zero : g1_neg g1_zero = g1_zero.
Proof. symmetry. apply g1_neg_unique. aac_reflexivity. Qed.

(** Sums of points and products of pairing values over a list. *)
Definition g1_sum (l : list G1Affine) : G1Affine := fold_right g1_add g1_zero l.
Definition gt_prod (l : list GT) : GT := fold_right gt_mul gt_one l.

Lemma g1_sum_cons p l : g1_sum (p :: l) = g1_add p (g1_sum l).
Proof. reflexivity. Qed.

Lemma gt_prod_cons x l : gt_prod (x :: l) = gt_mul x (gt_prod l).
Proof. reflexivity. Qed.

Lemma multi_exp_acc (l : list (G1Affine * fr.Element)) : forall acc,
  fold_left (fun acc '(p, s) => g1_add acc (g1_mul (fr.BigInt s) p)) l acc
  = g1_add acc
      (fold_left (fun acc '(p, s) => g1_add acc (g1_mul (fr.BigInt s) p)) l g1_zero).
Proof.
  induction l as [|[p s] l IH]; intros acc; cbn [fold_left].
  - aac_reflexivity.
  - rewrite IH, (IH (g1_add g1_zero _)). aac_reflexivity.
Qed.

Lemma multi_exp_sum_cons p (points : list G1Affine) s (scalars : list fr.Element) :
  multi_exp_sum (p :: points) (s :: scalars)
  = g1_add (g1_mul (fr.BigInt s) p) (multi_exp_sum points scalars).
Proof.
  unfold multi_exp_sum. cbn [combine fold_left]. rewrite multi_exp_acc.
  aac_reflexivity.
Qed.

Lemma dot_product_acc (l : list (fr.Element * fr.Element)) : forall acc,
  fold_left (fun acc '(y, w) => fr.Add acc (fr.Mul y w)) l acc
  = fr.Add acc (fold_left (fun acc '(y, w) => fr.Add acc (fr.Mul y w)) l fr.Zero).
Proof.
  induction l as [|[y w] l IH]; intros acc; cbn [fold_left].
  - fr_unfold. ring.
  - rewrite IH, (IH (fr.Add fr.Zero _)). fr_unfold. ring.
Qed.

Lemma dot_product_cons y (values : list fr.Element) w (weights : list fr.Element) :
  dot_product (y :: values) (w :: weights)
  = fr.Add (fr.Mul w y) (dot_product values weights).
Proof.
  unfold dot_product. cbn [combine fold_left]. rewrite dot_product_acc.
  fr_unfold. ring.
Qed.

(** The first point of the check of one proof: [C - [y]G1 + [z]Q]. *)
Definition proof_point (commitment : Commitment) (proof : OpeningProof)
  (openKey : OpeningKey) : G1Affine :=
  g1_add (g1_sub commitment
            (g1_mul (fr.BigInt (ClaimedValue proof)) (GenG1 openKey)))
         (g1_mul (fr.BigInt (InputPoint proof)) (QuotientCommitment proof)).

(** The two folded points, for any weights. *)
Definition folded_lhs (weights : list fr.Element) (commitments : list Commitment)
  (proofs : list OpeningProof) (openKey : OpeningKey) : G1Affine :=
  g1_add
    (g1_sub (multi_exp_sum commitments weights)
       (g1_mul (fr.BigInt (dot_product (map ClaimedValue proofs) weights))
               (GenG1 openKey)))
    (multi_exp_sum (map QuotientCommitment proofs)
       (map (fun '(w, proof) => fr.Mul w (InputPoint proof)) (combine weights proofs))).

Definition folded_rhs (weights : list fr.Element) (proofs : list OpeningProof)
  : G1Affine :=
  g1_neg (multi_exp_sum (map QuotientCommitment proofs) weights).

Lemma folded_lhs_sum (openKey : OpeningKey) (proofs : list OpeningProof) :
  forall (commitments : list Commitment) (weights : list fr.Element),
  length commitments = length proofs -> length weights = length proofs ->
  folded_lhs weights commitments proofs openKey
  = g1_sum (map (fun '(c, p, w) => g1_mul (fr.BigInt w) (proof_point c p openKey))
                (combine (combine commitments proofs) weights)).
Proof.
  unfold folded_lhs.
  induction proofs as [|p proofs IH]; intros [|c commitments] [|w weights] Hc Hw;
    cbn [length] in Hc, Hw; try lia.
  - cbn [map combine]. unfold g1_sum, multi_exp_sum, dot_product, g1_sub.
    cbn [combine fold_left fold_right]. rewrite g1_mul_Zero, g1_neg_zero.
    aac_reflexivity.
  - cbn [map combine]. rewrite g1_sum_cons, <- IH by lia.
    rewrite !multi_exp_sum_cons, dot_product_cons, g1_mul_Add, !g1_mul_Mul.
    unfold proof_point, g1_sub.
    rewrite !g1_mul_distr, g1_mul_neg_point, g1_neg_add. aac_reflexivity.
Qed.

Lemma folded_rhs_sum (proofs : list OpeningProof) :
  forall (commitments : list Commitment) (weights : list fr.Element),
  length commitments = length proofs -> length weights = length proofs ->
  folded_rhs weights proofs
  = g1_sum (map (fun '(c, p, w) =>
                   g1_mul (fr.BigInt w) (g1_neg (QuotientCommitment p)))
                (combine (combine commitments proofs) weights)).
Proof.
  unfold folded_rhs.
  induction proofs as [|p proofs IH]; intros [|c commitments] [|w weights] Hc Hw;
    cbn [length] in Hc, Hw; try lia.
  - cbn [map combine]. unfold g1_sum, multi_exp_sum.
    cbn [combine fold_left fold_right]. apply g1_neg_zero.
  - cbn [map combine]. rewrite g1_sum_cons, <- (IH commitments) by lia.
    now rewrite multi_exp_sum_cons, g1_neg_add, g1_mul_neg_point.
Qed.

Lemma pair_sums {T} (f1 f2 : T -> G1Affine) (q1 q2 : G2Affine) (l : list T) :
  gt_mul (pair (g1_sum (map f1 l)) q1) (pair (g1_sum (map f2 l)) q2)
  = gt_prod (map (fun t => gt_mul (pair (f1 t) q1) (pair (f2 t) q2)) l).
Proof.
  induction l as [|t l IH]; cbn [map].
  - unfold g1_sum, gt_prod. cbn [fold_right]. rewrite !pair_zero. aac_reflexivity.
  - rewrite !g1_sum_cons, gt_prod_cons, <- IH, !pair_add. aac_reflexivity.
Qed.

Lemma gt_prod_ones (l : list GT) : (forall x, In x l -> x = gt_one) ->
  gt_prod l = gt_one.
Proof.
  induction l as [|x l IH]; intros H; [reflexivity|].
  rewrite gt_prod_cons, IH by (intros z Hz; apply H; right; exact Hz).
  rewrite (H x) by (left; reflexivity). aac_reflexivity.
Qed.

Lemma gt_prod_single (l : list GT) : forall (j : nat) (x : GT),
  nth_error l j = Some x ->
  (forall i y, i <> j -> nth_error l i = Some y -> y = gt_one) ->
  gt_prod l = x.
Proof.
  induction l as [|y l IH]; intros [|j] x Hj Hothers; cbn [nth_error] in Hj;
    try discriminate; rewrite gt_prod_cons.
  - injection Hj as ->. rewrite gt_prod_ones; [aac_reflexivity|].
    intros z Hz. apply In_nth_error in Hz. destruct Hz as (i & Hi).
    apply (Hothers (S i)); [lia | exact Hi].
  - assert (Hy : y = gt_one) by (apply (Hothers O y); [lia | reflexivity]).
    rewrite Hy, (IH j x Hj); [aac_reflexivity|].
    intros i z Hi Hz. apply (Hothers (S i)); [lia | exact Hz].
Qed.

Lemma nth_error_zip {A B} (l1 : list A) : forall (l2 : list B) (i : nat),
  nth_error (combine l1 l2) i
  = match nth_error l1 i, nth_error l2 i with
    | Some a, Some b => Some (a, b)
    | _, _ => None
    end.
Proof.
  induction l1 as [|a l1 IH]; intros [|b l2] [|i]; cbn [combine nth_error];
    try reflexivity.
  - now destruct (nth_error l1 i).
  - apply IH.
Qed.

Lemma nth_error_ComputePowers (r : fr.Element) (n : Z) (i : nat) :
  (i < Z.to_nat n)%nat ->
  nth_error (ComputePowers r n) i = Some (fr.Exp r (Z.of_nat i)).
Proof.
  intros Hi. unfold ComputePowers.
  now rewrite nth_error_map, nth_error_seq_0 by exact Hi.
Qed.

Lemma fr_Exp_nonzero (r : fr.Element) (i : nat) :
  r <> fr.Zero \/ i = 0%nat -> fr.Exp r (Z.of_nat i) <> fr.Zero.
Proof.
  intros H. rewrite fr_Exp_nonneg by lia. induction i as [|i IH].
  - cbn [Z.of_nat]. rewrite Zmod.pow_0_r. apply fr_One_nonzero.
  - destruct H as [Hr|H]; [|discriminate].
    rewrite Nat2Z.inj_succ, Zmod.pow_succ_nonneg_r by lia.
    apply fr_Mul_nonzero; [exact Hr | apply IH; now left].
Qed.

(** The check of one proof, its two points multiplied by a weight. *)
Definition weighted_check (openKey : OpeningKey)
  (t : Commitment * OpeningProof * fr.Element) : GT :=
  let '(c, p, w) := t in
  gt_mul (pair (g1_mul (fr.BigInt w) (proof_point c p openKey)) (GenG2 openKey))
         (pair (g1_mul (fr.BigInt w) (g1_neg (QuotientCommitment p))) (AlphaG2 openKey)).

(** The pairing check of a batch is the product of the weighted checks of
    its proofs. *)
Lemma batch_verdict (commitments : list Commitment) (proofs : list OpeningProof)
  (openKey : OpeningKey) (r : fr.Element) :
  len commitments = len proofs -> 2 <= len commitments <= MaxInt ->
  outcome (BatchVerifyMultiPoints commitments proofs openKey (r, None))
  = Return (verdict (gt_eqb
      (gt_prod (map (weighted_check openKey)
                    (combine (combine commitments proofs)
                             (ComputePowers r (len commitments)))))
      gt_one)).
Proof.
  intros Hlen Hsize. rewrite BatchVerifyMultiPoints_folded by assumption.
  do 2 f_equal. unfold folded_check, folded_points.
  set (weights := ComputePowers r (len commitments)).
  assert (Hn : length commitments = length proofs) by (unfold len in Hlen; lia).
  assert (Hw : length weights = length proofs).
  { unfold weights, len. now rewrite length_ComputePowers, Nat2Z.id. }
  fold (folded_lhs weights commitments proofs openKey).
  fold (folded_rhs weights proofs).
  unfold PairingCheck.
  cbn [len length Z.of_nat Z.eqb Pos.eqb negb orb Pos.of_succ_nat Pos.succ fst
       combine fold_left].
  rewrite gt_mul_one.
  rewrite (folded_lhs_sum openKey proofs commitments weights Hn Hw).
  rewrite (folded_rhs_sum proofs commitments weights Hn Hw).
  rewrite pair_sums. do 2 f_equal. apply map_ext. now intros [[c p] w].
Qed.

Lemma Verify_nil_iff (commitment : Commitment) (proof : OpeningProof)
  (openKey : OpeningKey) : well_formed_key openKey ->
  (outcome (Verify commitment proof openKey) = Return None
   <-> pairing_product commitment proof openKey = gt_one)
  /\ (outcome (Verify commitment proof openKey) = Return (Some ErrVerifyOpeningProof)
      <-> pairing_product commitment proof openKey <> gt_one).
Proof.
  intros Hkey. rewrite (Verify_outcome _ _ _ Hkey).
  pose proof (gt_eqb_eq (pairing_product commitment proof openKey) gt_one) as Heq.
  unfold verdict.
  destruct (gt_eqb (pairing_product commitment proof openKey) gt_one); cbn [negb].
  - assert (Hone : pairing_product commitment proof openKey = gt_one) by now apply Heq.
    split; split; try discriminate; try tauto.
  - assert (Hne : pairing_product commitment proof openKey <> gt_one)
      by (intros E; apply Heq in E; discriminate).
    split; split; try discriminate; try tauto.
Qed.

Lemma small_batch (commitment : Commitment) (proof : OpeningProof)
  (openKey : OpeningKey) (SetRandom : fr.Element * option error) :
  outcome (BatchVerifyMultiPoints [commitment] [proof] openKey SetRandom)
  = outcome (Verify commitment proof openKey).
Proof.
  unfold BatchVerifyMultiPoints.
  cbn [len length Z.of_nat Z.eqb Pos.eqb negb Pos.of_succ_nat].
  unfold index. cbn [Z.ltb Z.compare Z.to_nat nth_error].
  now rewrite !outcome_bind.
Qed.

(** X16. Batch verification is complete: when every proof of the batch passes
    [Verify] against its commitment, the batch is accepted, whatever scalar
    is drawn. *)
Theorem BatchVerifyMultiPoints_complete (commitments : list Commitment)
  (proofs : list OpeningProof) (openKey : OpeningKey) (r : fr.Element) :
  well_formed_key openKey ->
  len commitments = len proofs -> len commitments <= MaxInt ->
  (forall i c p, nth_error commitments i = Some c -> nth_error proofs i = Some p ->
     outcome (Verify c p openKey) = Return None) ->
  outcome (BatchVerifyMultiPoints commitments proofs openKey (r, None)) = Return None.
Proof.
  intros Hkey Hlen Hmax Hvalid.
  destruct (Z.le_gt_cases 2 (len commitments)) as [H2|H2].
  - rewrite batch_verdict by (try exact Hlen; lia).
    rewrite gt_prod_ones.
    + assert (E : gt_eqb gt_one gt_one = true) by now apply gt_eqb_eq.
      now rewrite E.
    + intros x Hx. apply in_map_iff in Hx. destruct Hx as ([[c p] w] & <- & Ht).
      apply In_nth_error in Ht. destruct Ht as (i & Hi).
      rewrite !nth_error_zip in Hi.
      destruct (nth_error commitments i) as [c'|] eqn:Hc; [|discriminate].
      destruct (nth_error proofs i) as [p'|] eqn:Hp; [|discriminate].
      destruct (nth_error (ComputePowers r (len commitments)) i) as [w'|];
        [|discriminate].
      injection Hi as -> -> ->.
      apply pairing_scaling; [apply BigInt_nonneg|].
      apply (Verify_nil_iff c p openKey Hkey), (Hvalid i); assumption.
  - destruct commitments as [|c [|c' commitments]], proofs as [|p [|p' proofs]];
      unfold len in *; cbn [length] in *; try lia.
    + reflexivity.
    + rewrite small_batch. now apply (Hvalid O).
Qed.

(** X17. One invalid proof is caught by a batch of two or more.  When the
    product [e(C - [y]G1 + [z]Q, G2) * e(-Q, [alpha]G2)] is not one for the
    commitment and proof of index [j] and is one for every other pair of
    the batch, the batch is rejected with [ErrVerifyOpeningProof], provided
    the scalar drawn is not zero (for [j = 0], whatever it is).  The lines
    of the key play no part: a batch of two or more does not read them. *)
Theorem BatchVerifyMultiPoints_single_fault (commitments : list Commitment)
  (proofs : list OpeningProof) (openKey : OpeningKey) (r : fr.Element)
  (j : nat) (c : Commitment) (p : OpeningProof) :
  len commitments = len proofs -> 2 <= len commitments <= MaxInt ->
  r <> fr.Zero \/ j = 0%nat ->
  nth_error commitments j = Some c -> nth_error proofs j = Some p ->
  pairing_product c p openKey <> gt_one ->
  (forall i c' p', i <> j ->
     nth_error commitments i = Some c' -> nth_error proofs i = Some p' ->
     pairing_product c' p' openKey = gt_one) ->
  outcome (BatchVerifyMultiPoints commitments proofs openKey (r, None))
  = Return (Some ErrVerifyOpeningProof).
Proof.
  intros Hlen Hsize Hr Hc Hp Hinvalid Hvalid.
  rewrite batch_verdict by assumption.
  assert (Hj : (j < length commitments)%nat) by (apply nth_error_Some; congruence).
  set (w := fr.Exp r (Z.of_nat j)).
  assert (Hw : nth_error (ComputePowers r (len commitments)) j = Some w)
    by (apply nth_error_ComputePowers; unfold len; lia).
  rewrite (gt_prod_single _ j (weighted_check openKey (c, p, w))).
  - destruct (gt_eqb (weighted_check openKey (c, p, w)) gt_one) eqn:E;
      [|reflexivity].
    exfalso. apply gt_eqb_eq in E. unfold weighted_check in E.
    apply pairing_unscaling in E; [|now apply fr_Exp_nonzero].
    now apply Hinvalid.
  - now rewrite nth_error_map, !nth_error_zip, Hc, Hp, Hw.
  - intros i y Hi Hy. rewrite nth_error_map, !nth_error_zip in Hy.
    destruct (nth_error commitments i) as [c'|] eqn:Hc'; [|discriminate].
    destruct (nth_error proofs i) as [p'|] eqn:Hp'; [|discriminate].
    destruct (nth_error (ComputePowers r (len commitments)) i) as [w'|];
      [|discriminate].
    injection Hy as <-. unfold weighted_check.
    apply pairing_scaling; [apply BigInt_nonneg|].
    now apply (Hvalid i).
Qed.

(** X18. The scalar drawn is not checked against zero.  Were zero drawn for
    a batch of two or more, the weights would be [1, 0, ..., 0] and the
    batch would be decided by its first pair alone: accepted exactly when
    the product [e(C - [y]G1 + [z]Q, G2) * e(-Q, [alpha]G2)] of the first
    commitment and proof is one, and rejected with [ErrVerifyOpeningProof]
    exactly when it is not, whatever the other proofs are. *)
Theorem BatchVerifyMultiPoints_zero_draw (commitments : list Commitment)
  (proofs : list OpeningProof) (openKey : OpeningKey)
  (c : Commitment) (p : OpeningProof) :
  len commitments = len proofs -> 2 <= len commitments <= MaxInt ->
  nth_error commitments 0 = Some c -> nth_error proofs 0 = Some p ->
  (outcome (BatchVerifyMultiPoints commitments proofs openKey (fr.Zero, None))
   = Return None
   <-> pairing_product c p openKey = gt_one)
  /\ (outcome (BatchVerifyMultiPoints commitments proofs openKey (fr.Zero, None))
      = Return (Some ErrVerifyOpeningProof)
      <-> pairing_product c p openKey <> gt_one).
Proof.
  intros Hlen Hsize Hc Hp.
  rewrite batch_verdict by assumption.
  assert (Hw : nth_error (ComputePowers fr.Zero (len commitments)) 0 = Some fr.One).
  { rewrite nth_error_ComputePowers by lia. reflexivity. }
  rewrite (gt_prod_single _ 0 (pairing_product c p openKey)).
  - pose proof (gt_eqb_eq (pairing_product c p openKey) gt_one) as Heq.
    unfold verdict.
    destruct (gt_eqb (pairing_product c p openKey) gt_one); cbn [negb].
    + assert (Hone : pairing_product c p openKey = gt_one) by now apply Heq.
      split; split; try discriminate; try tauto.
    + assert (Hne : pairing_product c p openKey <> gt_one)
        by (intros E; apply Heq in E; discriminate).
      split; split; try discriminate; try tauto.
  - rewrite nth_error_map, !nth_error_zip, Hc, Hp, Hw. cbn [option_map].
    unfold weighted_check. now rewrite !g1_mul_One.
  - intros i y Hi Hy. rewrite nth_error_map, !nth_error_zip in Hy.
    destruct (nth_error commitments i) as [c'|] eqn:Hc'; [|discriminate].
    destruct (nth_error proofs i) as [p'|] eqn:Hp'; [|discriminate].
    destruct (nth_error (ComputePowers fr.Zero (len commitments)) i) as [w'|] eqn:Hw';
      [|discriminate].
    injection Hy as <-. unfold weighted_check.
    assert (Hlt : (i < Z.to_nat (len commitments))%nat).
    { rewrite <- (length_ComputePowers fr.Zero). apply nth_error_Some. congruence. }
    rewrite nth_error_ComputePowers in Hw' by exact Hlt. injection Hw' as <-.
    assert (E : fr.Exp fr.Zero (Z.of_nat i) = fr.Zero)
      by (rewrite fr_Exp_pos by lia; apply Zmod.pow_0_l; lia).
    rewrite E, !g1_mul_Zero, !pair_zero. aac_reflexivity.
Qed.

(** ** [Verify] and the quotient relation

    An opening key with trapdoor [alpha] is one whose second point is
    [alpha] times its generator: pairing with it is pairing [alpha] times
    the point with the generator. *)
Definition trapdoor (openKey : OpeningKey) (alpha : fr.Element) : Prop :=
  forall p, pair p (AlphaG2 openKey)
            = pair (g1_mul (fr.BigInt alpha) p) (GenG2 openKey).

(** The pairing of the two generators has the order of the scalar field. *)
Definition nondegenerate (openKey : OpeningKey) : Prop :=
  forall s : fr.Element,
    pair (g1_mul (fr.BigInt s) (GenG1 openKey)) (GenG2 openKey) = gt_one ->
    s = fr.Zero.

Lemma pairing_product_scalar (openKey : OpeningKey) (alpha f q y z : fr.Element) :
  trapdoor openKey alpha ->
  pairing_product (g1_mul (fr.BigInt f) (GenG1 openKey))
    {| QuotientCommitment := g1_mul (fr.BigInt q) (GenG1 openKey);
       InputPoint := z; ClaimedValue := y |} openKey
  = pair (g1_mul (fr.BigInt (fr.Sub (fr.Sub f y) (fr.Mul q (fr.Sub alpha z))))
                 (GenG1 openKey))
         (GenG2 openKey).
Proof.
  intros Halpha. unfold pairing_product.
  cbn [QuotientCommitment InputPoint ClaimedValue].
  rewrite Halpha, <- pair_add. f_equal.
  assert (E : fr.Sub (fr.Sub f y) (fr.Mul q (fr.Sub alpha z))
              = fr.Add (fr.Add (fr.Add f (fr.Neg y)) (fr.Mul z q))
                       (fr.Neg (fr.Mul alpha q))) by (fr_unfold; ring).
  rewrite E, !g1_mul_Add, !g1_mul_Neg_point, !g1_mul_Mul, g1_mul_neg_point.
  unfold g1_sub. reflexivity.
Qed.

(** X19. [Verify] decides the quotient relation.  Take a key with trapdoor
    [alpha] whose generators pair non-degenerately and whose [PairingLines]
    are, when the call is made, the precomputed lines of its [GenG2] and
    [AlphaG2]; take a commitment [[f]G1] and a proof with quotient
    commitment [[q]G1] for the point [z] and the value [y]: [Verify]
    returns nil exactly when [f - y = q * (alpha - z)], and
    [ErrVerifyOpeningProof] exactly when it does not hold. *)
Theorem Verify_accepts_iff_quotient (openKey : OpeningKey)
  (alpha f q y z : fr.Element) :
  well_formed_key openKey -> trapdoor openKey alpha -> nondegenerate openKey ->
  (outcome (Verify (g1_mul (fr.BigInt f) (GenG1 openKey))
              {| QuotientCommitment := g1_mul (fr.BigInt q) (GenG1 openKey);
                 InputPoint := z; ClaimedValue := y |} openKey)
   = Return None
   <-> fr.Sub f y = fr.Mul q (fr.Sub alpha z))
  /\ (outcome (Verify (g1_mul (fr.BigInt f) (GenG1 openKey))
                 {| QuotientCommitment := g1_mul (fr.BigInt q) (GenG1 openKey);
                    InputPoint := z; ClaimedValue := y |} openKey)
      = Return (Some ErrVerifyOpeningProof)
      <-> fr.Sub f y <> fr.Mul q (fr.Sub alpha z)).
Proof.
  intros Hkey Halpha Hnd.
  set (c := g1_mul (fr.BigInt f) (GenG1 openKey)).
  set (p := {| QuotientCommitment := g1_mul (fr.BigInt q) (GenG1 openKey);
               InputPoint := z; ClaimedValue := y |}).
  destruct (Verify_nil_iff c p openKey Hkey) as [Hnil Herr].
  assert (Hiff : pairing_product c p openKey = gt_one
                 <-> fr.Sub f y = fr.Mul q (fr.Sub alpha z)).
  { unfold c, p. rewrite (pairing_product_scalar openKey alpha f q y z Halpha).
    split.
    - intros H. apply Hnd in H. fr_unfold. now apply Zmod.sub_eq_0.
    - intros H. rewrite H.
      assert (E : fr.Sub (fr.Mul q (fr.Sub alpha z)) (fr.Mul q (fr.Sub alpha z))
                  = fr.Zero) by (fr_unfold; ring).
      now rewrite E, g1_mul_Zero, pair_zero. }
  split; [now rewrite Hnil | now rewrite Herr, Hiff].
Qed.

End Scalars.

(** Two valid openings in the pairing in the exponent, under the key with
    trapdoor 5: the commitment is 5, the value claimed at the point [z] is
    [z], and the quotient is 1. *)
Definition valid_proof (z : Z) : OpeningProof (C := ExponentCurve) :=
  {| QuotientCommitment := fr.One; InputPoint := fr.SetUint64 z;
     ClaimedValue := fr.SetUint64 z |}.

Definition valid_proofs : list (OpeningProof (C := ExponentCurve)) :=
  [valid_proof 2; valid_proof 3].

Definition valid_commitments : list (Commitment (C := ExponentCurve)) :=
  [fr.SetUint64 5; fr.SetUint64 5].

Lemma valid_proofs_verify i c p :
  nth_error valid_commitments i = Some c -> nth_error valid_proofs i = Some p ->
  outcome (Verify c p example_key) = Return None.
Proof.
  destruct i as [|[|i]]; cbn [nth_error valid_commitments valid_proofs];
    intros Hc Hp.
  - injection Hc as <-. injection Hp as <-. vm_compute. reflexivity.
  - injection Hc as <-. injection Hp as <-. vm_compute. reflexivity.
  - destruct i; discriminate Hc.
Qed.

Lemma BatchVerifyMultiPoints_complete_witness :
  outcome (BatchVerifyMultiPoints valid_commitments valid_proofs example_key
             (fr.SetUint64 4, None))
  = Return None.
Proof.
  apply (BatchVerifyMultiPoints_complete (C := ExponentCurve)
           valid_commitments valid_proofs example_key (fr.SetUint64 4)).
  - reflexivity.
  - reflexivity.
  - unfold len, MaxInt. cbn [length valid_commitments]. lia.
  - exact valid_proofs_verify.
Defined.

Lemma valid_proofs_product i c p :
  nth_error valid_commitments i = Some c -> nth_error valid_proofs i = Some p ->
  pairing_product c p example_key = gt_one.
Proof.
  destruct i as [|[|i]]; cbn [nth_error valid_commitments valid_proofs];
    intros Hc Hp.
  - injection Hc as <-. injection Hp as <-. vm_compute. reflexivity.
  - injection Hc as <-. injection Hp as <-. vm_compute. reflexivity.
  - destruct i; discriminate Hc.
Qed.

Lemma invalid_proof_product :
  pairing_product (C := ExponentCurve) (fr.SetUint64 6) (valid_proof 3) example_key
  <> gt_one.
Proof.
  intros E. apply (f_equal Zmod.to_Z) in E. vm_compute in E. discriminate E.
Qed.

Lemma BatchVerifyMultiPoints_single_fault_witness :
  outcome (BatchVerifyMultiPoints [fr.SetUint64 5; fr.SetUint64 6] valid_proofs
             example_key (fr.SetUint64 4, None))
  = Return (Some ErrVerifyOpeningProof).
Proof.
  apply (BatchVerifyMultiPoints_single_fault (C := ExponentCurve)
           [fr.SetUint64 5; fr.SetUint64 6] valid_proofs example_key
           (fr.SetUint64 4) 1 (fr.SetUint64 6) (valid_proof 3)).
  - reflexivity.
  - unfold len, MaxInt. cbn [length]. lia.
  - left. exact fr_four_nonzero.
  - reflexivity.
  - reflexivity.
  - exact invalid_proof_product.
  - intros i c p Hi Hc Hp. destruct i as [|[|i]]; [|contradiction|].
    + apply (valid_proofs_product 0); [exact Hc | exact Hp].
    + destruct i; discriminate Hc.
Defined.

Lemma example_key_trapdoor : trapdoor (C := ExponentCurve) example_key (fr.SetUint64 5).
Proof.
  unfold trapdoor.
  cbn [G1Affine G2Affine GT pair g1_mul ExponentCurve AlphaG2 GenG2 example_key].
  intros p. unfold fr.BigInt. rewrite Zmod.of_Z_to_Z. fr_unfold. ring.
Qed.

Lemma example_key_nondegenerate : nondegenerate (C := ExponentCurve) example_key.
Proof.
  unfold nondegenerate.
  cbn [G1Affine G2Affine GT pair g1_mul gt_one ExponentCurve GenG1 GenG2 example_key].
  intros s. unfold fr.BigInt. rewrite Zmod.of_Z_to_Z. fr_unfold. intros H.
  transitivity (Zmod.mul (Zmod.mul s Zmod.one) Zmod.one); [ring | exact H].
Qed.

Lemma Verify_accepts_iff_quotient_witness :
  (outcome (Verify (C := ExponentCurve)
              (g1_mul (fr.BigInt (fr.SetUint64 5)) (GenG1 example_key))
              {| QuotientCommitment := g1_mul (fr.BigInt fr.One) (GenG1 example_key);
                 InputPoint := fr.SetUint64 2; ClaimedValue := fr.SetUint64 2 |}
              example_key)
   = Return None
   <-> fr.Sub (fr.SetUint64 5) (fr.SetUint64 2)
       = fr.Mul fr.One (fr.Sub (fr.SetUint64 5) (fr.SetUint64 2)))
  /\ (outcome (Verify (C := ExponentCurve)
                 (g1_mul (fr.BigInt (fr.SetUint64 5)) (GenG1 example_key))
                 {| QuotientCommitment := g1_mul (fr.BigInt fr.One) (GenG1 example_key);
                    InputPoint := fr.SetUint64 2; ClaimedValue := fr.SetUint64 2 |}
                 example_key)
      = Return (Some ErrVerifyOpeningProof)
      <-> fr.Sub (fr.SetUint64 5) (fr.SetUint64 2)
          <> fr.Mul fr.One (fr.Sub (fr.SetUint64 5) (fr.SetUint64 2))).
Proof.
  apply (Verify_accepts_iff_quotient (C := ExponentCurve) example_key
           (fr.SetUint64 5) (fr.SetUint64 5) fr.One (fr.SetUint64 2) (fr.SetUint64 2)).
  - reflexivity.
  - exact example_key_trapdoor.
  - exact example_key_nondegenerate.
Defined.

Lemma BatchVerifyMultiPoints_zero_draw_witness :
  (outcome (BatchVerifyMultiPoints [fr.SetUint64 5; fr.SetUint64 6] valid_proofs
              example_key (fr.Zero, None))
   = Return None
   <-> pairing_product (C := ExponentCurve) (fr.SetUint64 5) (valid_proof 2) example_key
       = gt_one)
  /\ (outcome (BatchVerifyMultiPoints [fr.SetUint64 5; fr.SetUint64 6] valid_proofs
                 example_key (fr.Zero, None))
      = Return (Some ErrVerifyOpeningProof)
      <-> pairing_product (C := ExponentCurve) (fr.SetUint64 5) (valid_proof 2)
            example_key
          <> gt_one).
Proof.
  apply (BatchVerifyMultiPoints_zero_draw (C := ExponentCurve)
           [fr.SetUint64 5; fr.SetUint64 6] valid_proofs example_key).
  - reflexivity.
  - unfold len, MaxInt. cbn [length]. lia.
  - reflexivity.
  - reflexivity.
Defined.

(** ** Domains of different sizes *)

(** X20. [NewDomain] depends on the size only through the next power of two:
    called again on the cardinality it returned, it returns the same
    domain.  That cardinality is less than twice the size asked for. *)
Theorem NewDomain_idempotent m d :
  0 <= m < 2 ^ 64 -> outcome (NewDomain m) = Return d ->
  outcome (NewDomain (Cardinality d)) = Return d
  /\ (1 <= m -> Cardinality d < 2 * m).
Proof.
  intros Hm Hd.
  destruct (NewDomain_returns m d Hm Hd) as (k & Hk & Hle & _ & Hmin & ->).
  cbn [Cardinality domain_of_log].
  assert (Hpow : 0 < 2 ^ k <= 2 ^ 32)
    by (split; [apply Z.pow_pos_nonneg | apply Z.pow_le_mono_r]; lia).
  split.
  - now apply NewDomain_power.
  - intros H1. destruct (Z.eq_dec k 0) as [->|Hk0]; [change (2 ^ 0) with 1; lia|].
    destruct (Z.lt_ge_cases m (2 ^ (k - 1) + 1)) as [Hlt|Hge].
    + assert (2 ^ k <= 2 ^ (k - 1)) by (apply Hmin; lia).
      assert (k <= k - 1) by (apply (Z.pow_le_mono_r_iff 2); lia). lia.
    + replace k with (Z.succ (k - 1)) at 1 by lia. rewrite Z.pow_succ_r by lia. lia.
Qed.

Lemma NewDomain_idempotent_witness :
  outcome (NewDomain (Cardinality (domain_of_log 2))) = Return (domain_of_log 2)
  /\ (1 <= 3 -> Cardinality (domain_of_log 2) < 2 * 3).
Proof.
  exact (NewDomain_idempotent 3 (domain_of_log 2) ltac:(lia) NewDomain_3).
Defined.

(** X21. Domains are nested: the domain of twice the cardinality has the square
    root of the generator for its generator, and the roots of the smaller
    domain are its roots of even index. *)
Theorem NewDomain_nested m d d' :
  0 <= m < 2 ^ 64 -> outcome (NewDomain m) = Return d ->
  outcome (NewDomain (2 * Cardinality d)) = Return d' ->
  Cardinality d' = 2 * Cardinality d
  /\ fr.Square (Generator d') = Generator d
  /\ forall i, 0 <= i < Cardinality d ->
       exists root, nth_error (Roots d) (Z.to_nat i) = Some root
         /\ nth_error (Roots d') (Z.to_nat (2 * i)) = Some root.
Proof.
  intros Hm Hd Hd'.
  destruct (NewDomain_returns m d Hm Hd) as (k & Hk & _ & _ & _ & ->).
  cbn [Cardinality domain_of_log] in Hd'.
  assert (Hpow : 0 < 2 ^ k <= 2 ^ 32)
    by (split; [apply Z.pow_pos_nonneg | apply Z.pow_le_mono_r]; lia).
  destruct (NewDomain_returns (2 * 2 ^ k) d' ltac:(lia) Hd')
    as (k' & Hk' & Hle' & _ & Hmin' & ->).
  assert (H2 : 2 ^ (k + 1) = 2 * 2 ^ k) by (rewrite Z.pow_add_r; lia).
  assert (k' = k + 1).
  { assert (2 ^ k' <= 2 ^ (k + 1)) by (apply Hmin'; lia).
    assert (k + 1 <= k') by (apply (Z.pow_le_mono_r_iff 2); lia).
    assert (k' <= k + 1) by (apply (Z.pow_le_mono_r_iff 2); lia).
    lia. }
  subst k'. cbn [Cardinality Generator Roots domain_of_log].
  split; [exact H2|].
  assert (Hg : generator_of_log k = Zmod.pow (generator_of_log (k + 1)) 2)
    by (apply generator_of_log_square; lia).
  split; [unfold fr.Square; now rewrite Hg, Zmod.pow_2_r|].
  intros i Hi. exists (Zmod.pow (generator_of_log k) i). split.
  - rewrite nth_error_powers, Z2Nat.id by lia. reflexivity.
  - rewrite nth_error_powers, Z2Nat.id by lia.
    rewrite Hg, <- Zmod.pow_mul_r_nonneg by lia. reflexivity.
Qed.

Lemma NewDomain_nested_witness :
  Cardinality (domain_of_log 3) = 2 * Cardinality (domain_of_log 2)
  /\ fr.Square (Generator (domain_of_log 3)) = Generator (domain_of_log 2).
Proof.
  pose proof (NewDomain_nested 3 (domain_of_log 2) (domain_of_log 3)
                ltac:(lia) NewDomain_3 (NewDomain_power 3 ltac:(lia)))
    as (H1 & H2 & _).
  exact (conj H1 H2).
Defined.

(** ** The bit-reversal permutation ([internal/kzg/domain_test.go])

    The permutation against which the tests compare the in-place bit
    reversal of the library. *)

(** [bits.Reverse64]: the bits of [x] in reverse order.  [reverse_bits n]
    reverses the [n] low bits: bit 0 goes to position [n - 1]. *)
Fixpoint reverse_bits (n : nat) (x : Z) : Z :=
  match n with
  | O => 0
  | S n' =>
      Z.lor (Z.shiftl (Z.b2z (Z.testbit x 0)) (Z.of_nat n'))
            (reverse_bits n' (Z.shiftr x 1))
  end.

Definition Reverse64 (x : Z) : Z := reverse_bits 64 x.

(** Modelled from the spec: [utils.IsPowerOfTwo] is in a file of the
    repository that is not among the sources.  The spec has the sizes be
    powers of two, at least 1; the function holds exactly of these. *)
Definition IsPowerOfTwo (value : Z) : bool :=
  (0 <? value) && (Z.land value (value - 1) =? 0).

(** What a call of a test helper comes to: a result, a panic with a
    message of the helper's own, or a panic of the runtime. *)
Inductive helper_outcome (A : Type) : Type :=
| Returned (a : A)
| PanicMessage (msg : String.string)
| RuntimePanic (p : panic).
Arguments Returned {A} a.
Arguments PanicMessage {A} msg.
Arguments RuntimePanic {A} p.

Definition bitReversalPermutation (l : list fr.Element)
  : helper_outcome (list fr.Element) :=
  let size := uint64_of_int (len l) in
  if negb (IsPowerOfTwo size) then
    PanicMessage "size of slice must be a power of two"
  else
    let out := make fr.Zero size in
    match outcome (for_loop (length l) 0
             (fun i out =>
                let j := Z.shiftr (Reverse64 (uint64_of_int i)) (65 - Len64 size) in
                x <- index l j ;;
                store out i x)
             out)
    with
    | Return out => Returned out
    | Panic p => RuntimePanic p
    end.

Lemma testbit_b2z (t : bool) (b : Z) :
  Z.testbit (Z.b2z t) b = (b =? 0) && t.
Proof.
  destruct t; cbn [Z.b2z].
  - destruct (Z.eqb_spec b 0) as [->|Hb]; [reflexivity|].
    destruct b; [now elim Hb | reflexivity | reflexivity].
  - rewrite Z.bits_0. now destruct (b =? 0).
Qed.

Lemma reverse_bits_spec (n : nat) : forall x b, 0 <= b ->
  Z.testbit (reverse_bits n x) b
  = if b <? Z.of_nat n then Z.testbit x (Z.of_nat n - 1 - b) else false.
Proof.
  induction n as [|n IH]; intros x b Hb; cbn [reverse_bits].
  - rewrite Z.bits_0. destruct (Z.ltb_spec b (Z.of_nat 0)); [lia | reflexivity].
  - rewrite Z.lor_spec. rewrite Z.shiftl_spec by exact Hb.
    rewrite testbit_b2z. rewrite IH by exact Hb.
    rewrite Nat2Z.inj_succ.
    destruct (Z.lt_trichotomy b (Z.of_nat n)) as [H|[H|H]].
    + rewrite (proj2 (Z.ltb_lt b (Z.of_nat n))), (proj2 (Z.ltb_lt b (Z.succ (Z.of_nat n))))
        by lia.
      rewrite (proj2 (Z.eqb_neq (b - Z.of_nat n) 0)) by lia. cbn [andb orb].
      rewrite Z.shiftr_spec by lia. f_equal. lia.
    + rewrite (proj2 (Z.ltb_ge b (Z.of_nat n))), (proj2 (Z.ltb_lt b (Z.succ (Z.of_nat n))))
        by lia.
      rewrite (proj2 (Z.eqb_eq (b - Z.of_nat n) 0)) by lia. cbn [andb].
      rewrite orb_false_r. f_equal. lia.
    + rewrite (proj2 (Z.ltb_ge b (Z.of_nat n))), (proj2 (Z.ltb_ge b (Z.succ (Z.of_nat n))))
        by lia.
      rewrite (proj2 (Z.eqb_neq (b - Z.of_nat n) 0)) by lia. reflexivity.
Qed.

Lemma reverse_bits_nonneg (n : nat) : forall x, 0 <= reverse_bits n x.
Proof.
  induction n as [|n IH]; intros x; cbn [reverse_bits]; [lia|].
  apply Z.lor_nonneg. split; [|apply IH].
  apply Z.shiftl_nonneg. destruct (Z.testbit x 0); cbn; lia.
Qed.

(** The index that the loop reads for the index [i], in a slice of [2^k]
    elements. *)
Definition reversed_index (k i : Z) : Z := Z.shiftr (Reverse64 i) (64 - k).

Lemma reversed_index_spec k i b : 0 <= k <= 64 -> 0 <= b ->
  Z.testbit (reversed_index k i) b
  = if b <? k then Z.testbit i (k - 1 - b) else false.
Proof.
  intros Hk Hb. unfold reversed_index, Reverse64.
  rewrite Z.shiftr_spec, reverse_bits_spec by lia.
  change (Z.of_nat 64) with 64.
  destruct (Z.lt_ge_cases b k) as [H|H].
  - rewrite (proj2 (Z.ltb_lt (b + (64 - k)) 64)), (proj2 (Z.ltb_lt b k)) by lia.
    f_equal. lia.
  - rewrite (proj2 (Z.ltb_ge (b + (64 - k)) 64)), (proj2 (Z.ltb_ge b k)) by lia.
    reflexivity.
Qed.

Lemma bits_above_bound (j k : Z) : 0 <= j -> 0 <= k ->
  (forall b, k <= b -> Z.testbit j b = false) -> j < 2 ^ k.
Proof.
  intros Hj Hk Hbits. destruct (Z.lt_ge_cases j (2 ^ k)) as [H|H]; [exact H|].
  exfalso.
  assert (Hpos : 0 < j) by (assert (0 < 2 ^ k) by (apply Z.pow_pos_nonneg; lia); lia).
  assert (Hlog : k <= Z.log2 j) by (apply Z.log2_le_pow2; lia).
  pose proof (Z.bit_log2 j Hpos) as Hbit. rewrite (Hbits _ Hlog) in Hbit.
  discriminate.
Qed.

Lemma reversed_index_bound k i : 0 <= k <= 64 ->
  0 <= reversed_index k i < 2 ^ k.
Proof.
  intros Hk.
  assert (Hnn : 0 <= reversed_index k i).
  { unfold reversed_index, Reverse64. apply Z.shiftr_nonneg, reverse_bits_nonneg. }
  split; [exact Hnn|]. apply bits_above_bound; [exact Hnn | lia |].
  intros b Hb. rewrite reversed_index_spec by lia.
  destruct (Z.ltb_spec b k); [lia | reflexivity].
Qed.

Lemma reversed_index_involutive k i : 0 <= k <= 64 -> 0 <= i < 2 ^ k ->
  reversed_index k (reversed_index k i) = i.
Proof.
  intros Hk Hi. apply Z.bits_inj'. intros b Hb.
  rewrite reversed_index_spec by lia.
  destruct (Z.ltb_spec b k) as [Hlt|Hge].
  - rewrite reversed_index_spec by lia.
    destruct (Z.ltb_spec (k - 1 - b) k); [|lia]. f_equal. lia.
  - symmetry. destruct (Z.eq_dec i 0) as [->|Hi0]; [apply Z.bits_0|].
    apply Z.bits_above_log2; [lia|].
    assert (Hmono : 2 ^ k <= 2 ^ b) by (apply Z.pow_le_mono_r; lia).
    apply Z.log2_lt_pow2; lia.
Qed.

Lemma IsPowerOfTwo_pow2 k : 0 <= k -> IsPowerOfTwo (2 ^ k) = true.
Proof.
  intros Hk. unfold IsPowerOfTwo.
  assert (Hp : 0 < 2 ^ k) by (apply Z.pow_pos_nonneg; lia).
  rewrite (proj2 (Z.ltb_lt 0 (2 ^ k)) Hp). cbn [andb].
  replace (2 ^ k - 1) with (Z.ones k) by (rewrite Z.ones_equiv; lia).
  rewrite Z.land_ones, Z.mod_same by lia. reflexivity.
Qed.

Lemma IsPowerOfTwo_only v : IsPowerOfTwo v = true -> exists k, 0 <= k /\ v = 2 ^ k.
Proof.
  unfold IsPowerOfTwo. intros H. apply andb_prop in H. destruct H as [Hpos Hland].
  apply Z.ltb_lt in Hpos. apply Z.eqb_eq in Hland.
  exists (Z.log2 v). split; [apply Z.log2_nonneg|].
  destruct (Z.log2_spec v Hpos) as [Hlo Hhi].
  destruct (Z.eq_dec v (2 ^ Z.log2 v)) as [E|NE]; [exact E|]. exfalso.
  assert (Hlog : Z.log2 (v - 1) = Z.log2 v).
  { apply Z.log2_unique; [apply Z.log2_nonneg|]. rewrite <- Z.add_1_r in Hhi. lia. }
  assert (Hbit : Z.testbit (Z.land v (v - 1)) (Z.log2 v) = true).
  { rewrite Z.land_spec, Z.bit_log2 by lia.
    rewrite <- Hlog. rewrite Z.bit_log2; [reflexivity|].
    assert (0 < 2 ^ Z.log2 v)
      by (apply Z.pow_pos_nonneg; [lia | apply Z.log2_nonneg]).
    lia. }
  rewrite Hland, Z.bits_0 in Hbit. discriminate.
Qed.

Lemma Len64_pow2 k : 0 <= k -> Len64 (2 ^ k) = k + 1.
Proof.
  intros Hk. assert (Hp : 0 < 2 ^ k) by (apply Z.pow_pos_nonneg; lia).
  unfold Len64. rewrite <- (Z.log2_pow2 k Hk) at 2.
  destruct (2 ^ k); lia.
Qed.

Lemma bitReversalPermutation_run k (l : list fr.Element) :
  0 <= k <= 62 -> len l = 2 ^ k ->
  bitReversalPermutation l
  = Returned (map (fun i => nth (Z.to_nat (reversed_index k (Z.of_nat i))) l fr.Zero)
                  (seq 0 (length l))).
Proof.
  intros Hk Hlen.
  assert (Hp : 0 < 2 ^ k <= 2 ^ 62)
    by (split; [apply Z.pow_pos_nonneg | apply Z.pow_le_mono_r]; lia).
  unfold bitReversalPermutation.
  rewrite uint64_of_int_small by (unfold MaxInt; lia).
  rewrite Hlen, IsPowerOfTwo_pow2 by lia. cbn [negb].
  rewrite Len64_pow2 by lia. replace (65 - (k + 1)) with (64 - k) by lia.
  unfold make. rewrite <- Hlen. unfold len at 1. rewrite Nat2Z.id.
  rewrite (fill_loop fr.Zero
    (fun i => nth (Z.to_nat (reversed_index k (Z.of_nat i))) l fr.Zero));
    [reflexivity|].
  intros j done rest Hj Hdone.
  rewrite uint64_of_int_small by (unfold MaxInt, len in *; lia).
  fold (reversed_index k (Z.of_nat j)).
  pose proof (reversed_index_bound k (Z.of_nat j) ltac:(lia)) as Hb.
  rewrite <- (Z2Nat.id (reversed_index k (Z.of_nat j))) at 1 by lia.
  rewrite outcome_bind,
    (outcome_index l _ (nth (Z.to_nat (reversed_index k (Z.of_nat j))) l fr.Zero))
    by (apply nth_error_nth'; unfold len in Hlen; lia).
  subst j. rewrite outcome_store by (rewrite length_app; cbn [length]; lia).
  now rewrite set_nth_app.
Qed.

(** X22. On a slice whose length is a power of two, [2^k],
    [bitReversalPermutation] returns the slice permuted by reversing the
    [k]-bit indices: the entry of index [i] is the entry of the input whose
    index has the bits of [i] in reverse order.  Applied twice it gives the
    slice back.  On any other length it panics with its message. *)
Theorem bitReversalPermutation_involution (l : list fr.Element) :
  len l <= MaxInt ->
  ((forall k, 0 <= k -> len l <> 2 ^ k) ->
     bitReversalPermutation l
     = PanicMessage "size of slice must be a power of two")
  /\ (forall k, 0 <= k -> len l = 2 ^ k ->
        exists out,
          bitReversalPermutation l = Returned out
          /\ len out = len l
          /\ (forall i, 0 <= i < 2 ^ k ->
                exists j, 0 <= j < 2 ^ k
                  /\ (forall b, 0 <= b < k ->
                        Z.testbit j b = Z.testbit i (k - 1 - b))
                  /\ nth_error out (Z.to_nat i) = nth_error l (Z.to_nat j))
          /\ bitReversalPermutation out = Returned l).
Proof.
  intros Hmax. split.
  - intros Hnot. unfold bitReversalPermutation.
    rewrite uint64_of_int_small by (pose proof (len_nonneg l); lia).
    destruct (IsPowerOfTwo (len l)) eqn:E; [|reflexivity].
    exfalso. destruct (IsPowerOfTwo_only _ E) as (k & Hk & Hl). now apply (Hnot k).
  - intros k Hk0 Hlen.
    assert (Hk : 0 <= k <= 62).
    { split; [exact Hk0|]. assert (k < 63); [|lia].
      apply (Z.pow_lt_mono_r_iff 2); unfold MaxInt in Hmax; lia. }
    assert (Hp : 0 < 2 ^ k) by (apply Z.pow_pos_nonneg; lia).
    assert (Hn : length l = Z.to_nat (2 ^ k)) by (unfold len in Hlen; lia).
    set (out := map (fun i => nth (Z.to_nat (reversed_index k (Z.of_nat i))) l fr.Zero)
                    (seq 0 (length l))).
    assert (Hout : length out = length l) by (unfold out; now rewrite length_map, length_seq).
    exists out. split; [now apply bitReversalPermutation_run|].
    split; [unfold len; now rewrite Hout|]. split.
    + intros i Hi. exists (reversed_index k i).
      pose proof (reversed_index_bound k i ltac:(lia)) as Hb.
      split; [exact Hb|]. split.
      * intros b Hb'. rewrite reversed_index_spec by lia.
        now rewrite (proj2 (Z.ltb_lt b k)) by lia.
      * unfold out. rewrite nth_error_map, nth_error_seq_0 by lia.
        cbn [option_map]. rewrite Z2Nat.id by lia.
        symmetry. apply nth_error_nth'. lia.
    + rewrite (bitReversalPermutation_run k out Hk)
        by (unfold len; rewrite Hout; exact Hlen).
      f_equal. rewrite Hout.
      transitivity (map (fun j => nth j l fr.Zero) (seq 0 (length l)));
        [|rewrite (map_nth_seq (fun x => x) fr.Zero l); apply map_id].
      apply map_ext_in. intros i Hi. apply in_seq in Hi.
      pose proof (reversed_index_bound k (Z.of_nat i) ltac:(lia)) as Hb.
      unfold out. rewrite nth_map_seq by lia.
      rewrite Z2Nat.id, reversed_index_involutive, Nat2Z.id by lia. reflexivity.
Qed.

Lemma bitReversalPermutation_involution_witness :
  exists out,
    bitReversalPermutation example_poly = Returned out
    /\ len out = len example_poly
    /\ bitReversalPermutation out = Returned example_poly.
Proof.
  assert (Hmax : len example_poly <= MaxInt)
    by (unfold len, MaxInt; cbn [length example_poly]; lia).
  destruct (proj2 (bitReversalPermutation_involution example_poly Hmax) 2
              ltac:(lia) eq_refl) as (out & H1 & H2 & _ & H4).
  exists out. exact (conj H1 (conj H2 H4)).
Defined.

(** ** Half a turn *)

(** X23. In a constructed domain of two or more roots, the root half way
    round is [-1]: the root of index [i + Cardinality/2] is the opposite of
    the root of index [i].  So the roots sum to zero. *)
Theorem NewDomain_half_turn m d :
  0 <= m < 2 ^ 64 -> outcome (NewDomain m) = Return d ->
  2 <= Cardinality d ->
  (forall i, 0 <= i < Cardinality d / 2 ->
     exists root,
       nth_error (Roots d) (Z.to_nat i) = Some root
       /\ nth_error (Roots d) (Z.to_nat (i + Cardinality d / 2)) = Some (fr.Neg root))
  /\ fr_sum (fun i => nth i (Roots d) fr.Zero) (length (Roots d)) = fr.Zero.
Proof.
  intros Hm Hd Hc.
  destruct (NewDomain_returns m d Hm Hd) as (k & Hk & _ & _ & _ & ->).
  cbn [Cardinality Roots domain_of_log] in *.
  assert (Hk1 : 1 <= k).
  { destruct (Z.eq_dec k 0) as [->|]; [change (2 ^ 0) with 1 in Hc; lia | lia]. }
  assert (Hhalf : 2 ^ k = 2 * 2 ^ (k - 1)).
  { replace k with (Z.succ (k - 1)) at 1 by lia. rewrite Z.pow_succ_r by lia. lia. }
  assert (Hp : 0 < 2 ^ (k - 1)) by (apply Z.pow_pos_nonneg; lia).
  assert (Hdiv : 2 ^ k / 2 = 2 ^ (k - 1)).
  { rewrite Hhalf, Z.mul_comm. apply Z.div_mul. lia. }
  rewrite Hdiv. split.
  - intros i Hi. exists (Zmod.pow (generator_of_log k) i). split.
    + rewrite nth_error_powers, Z2Nat.id by lia. reflexivity.
    + rewrite nth_error_powers, Z2Nat.id by lia.
      rewrite Zmod.pow_add_r_nonneg, generator_half_order by lia.
      apply (f_equal Some). fr_unfold. ring.
  - rewrite length_powers.
    rewrite (fr_sum_ext _ (fun i => Zmod.pow (generator_of_log k) (Z.of_nat i))).
    + apply geometric_sum.
      * rewrite Z2Nat.id by lia. now apply generator_order.
      * rewrite <- (Zmod.pow_1_r (generator_of_log k)).
        apply generator_exact_order; [exact Hk | lia].
    + intros i Hi. apply nth_error_nth. now apply nth_error_powers.
Qed.

Lemma NewDomain_half_turn_witness :
  fr_sum (fun i => nth i (Roots (domain_of_log 2)) fr.Zero)
         (length (Roots (domain_of_log 2)))
  = fr.Zero.
Proof.
  refine (proj2 (NewDomain_half_turn 3 (domain_of_log 2) _ NewDomain_3 _)).
  - lia.
  - cbn [Cardinality domain_of_log]. lia.
Defined.
